(** * Verification of the XAIGER backend (backends/aiger/xaiger.cc)

    A shallow embedding of the parts of [XAigerWriter] that the
    specification talks about: the variable-length delta encoding, the
    AIG builder ([mkgate], [bit2aig], the numbering and output phase of
    the constructor), the byte stream of [write_aiger], the output part of
    [write_map], the signal canonicalizer and the dependency orderer. *)

From Stdlib Require Import ZArith Lia String Ascii List.
From stdpp Require Import base gmap list strings countable.
Import ListNotations.

Open Scope Z_scope.

(** ** RTLIL bits *)

(** [RTLIL::State]. *)
Inductive State := S0 | S1 | Sx | Sz | Sa | Sm.

(** [RTLIL::SigBit]: either a constant or (wire, offset).  Wires are
    identified by an index into the module's wire list. *)
Inductive SigBit :=
| SBConst (s : State)
| SBWire (wire : nat) (offset : nat).

#[global] Instance State_eq_dec : EqDecision State.
Proof. solve_decision. Defined.
#[global] Instance SigBit_eq_dec : EqDecision SigBit.
Proof. solve_decision. Defined.

Definition State_to_nat (s : State) : nat :=
  match s with S0 => 0 | S1 => 1 | Sx => 2 | Sz => 3 | Sa => 4 | Sm => 5 end%nat.
Definition State_of_nat (n : nat) : State :=
  match n with 0 => S0 | 1 => S1 | 2 => Sx | 3 => Sz | 4 => Sa | _ => Sm end%nat.

#[global] Instance State_countable : Countable State.
Proof.
  refine (inj_countable' State_to_nat State_of_nat _).
  intros []; reflexivity.
Defined.

#[global] Instance SigBit_countable : Countable SigBit.
Proof.
  refine (inj_countable'
            (fun b => match b with
                      | SBConst s => inl s
                      | SBWire w o => inr (w, o) end)
            (fun x : State + (nat * nat) => match x with
                      | inl s => SBConst s
                      | inr (w, o) => SBWire w o end) _).
  intros []; reflexivity.
Defined.

(** ** Errors of the writer

    [log_assert] failures, [dict::at] on a missing key, the native
    stack running out in the recursion of [bit2aig] (modelled by a depth
    bound), [log_error], and a null pointer dereferenced. *)
Inductive xerr := AssertFail | AtMissing | RecursionDepth | LogError | NullDeref.

Inductive result (A : Type) :=
| Ok (a : A)
| Err (e : xerr).
Arguments Ok {A} a.
Arguments Err {A} e.

Definition bind {A B} (m : result A) (k : A -> result B) : result B :=
  match m with Ok a => k a | Err e => Err e end.

Notation "x <- m ;; k" := (bind m (fun x => k))
  (at level 100, m at next level, right associativity).

Definition log_assert (b : bool) : result unit :=
  if b then Ok tt else Err AssertFail.

(** [dict::at]. *)
Definition at_ {K V} `{Countable K} (m : gmap K V) (k : K) : result V :=
  match m !! k with Some v => Ok v | None => Err AtMissing end.

(** ** [aiger_encode] (lines 64-74)

    The argument is an [int]; every value the writer passes is in
    [0, 2^31).  The C loop shifts right by 7 each round, so on an [int]
    the body runs at most 4 times; [enc_loop] is given 5 rounds. *)
Fixpoint enc_loop (fuel : nat) (x : Z) : list Z :=
  match fuel with
  | O => [x]
  | S f =>
      if negb (Z.land x (Z.lnot 127) =? 0)
      then Z.lor (Z.land x 127) 128 :: enc_loop f (Z.shiftr x 7)
      else [x]
  end.

Definition aiger_encode (x : Z) : result (list Z) :=
  _ <- log_assert (0 <=? x) ;;
  Ok (enc_loop 5 x).

(** Modelled from the spec: the reader side of the binary AIGER delta
    encoding (the frontend that parses it is not part of this source):
    "7-bit little-group variable-length encoding (continuation bit = top
    bit of each byte)".  [decode_num] reads one number, low group first. *)
Fixpoint decode_num (bs : list Z) : option (Z * list Z) :=
  match bs with
  | [] => None
  | b :: rest =>
      if Z.testbit b 7 then
        match decode_num rest with
        | Some (v, r) => Some (Z.lor (Z.land b 127) (Z.shiftl v 7), r)
        | None => None
        end
      else Some (Z.land b 127, rest)
  end.

(** Modelled from the spec: decoding a whole delta stream, one number after
    the other until the bytes run out. *)
Fixpoint decode_all_fuel (fuel : nat) (bs : list Z) : option (list Z) :=
  match bs with
  | [] => Some []
  | _ =>
      match fuel with
      | O => None
      | S f =>
          match decode_num bs with
          | Some (v, r) =>
              match decode_all_fuel f r with
              | Some vs => Some (v :: vs)
              | None => None
              end
          | None => None
          end
      end
  end.

Definition decode_all (bs : list Z) : option (list Z) :=
  decode_all_fuel (length bs) bs.

(** The bytes [aiger_encode] writes for a list of numbers, in order. *)
Fixpoint encode_all (xs : list Z) : result (list Z) :=
  match xs with
  | [] => Ok []
  | x :: xs' => e <- aiger_encode x ;; r <- encode_all xs' ;; Ok (e ++ r)
  end.

(** ** The writer's tables and AIG state

    [tables] holds what the classifier (lines 146-576) leaves behind: the
    pools [input_bits] and [output_bits] in their sorted order, the
    relations, the box interface bits (only the bit of each tuple),
    the registers [ff_bits] with their mergeability class, in the order
    the [dict] is iterated, the arrival times as the bit patterns of the
    stored [float]s, the [init] values, and per box the numbers written to
    the [h] section. *)
Record box_info := {
  box_inputs : Z;
  box_outputs : Z;
  box_id : Z;
  (** [log_id(cell->name)] *)
  box_name : string
}.

Record tables := {
  input_bits : list SigBit;
  output_bits : list SigBit;
  not_map : gmap SigBit SigBit;
  and_map : gmap SigBit (SigBit * SigBit);
  alias_map : gmap SigBit SigBit;
  ci_bits : list SigBit;
  co_bits : list SigBit;
  ff_bits : list (SigBit * Z);
  arrival_times : gmap SigBit Z;
  init_map : gmap SigBit bool;
  (** bits of [ff_bits] whose wire's [\init] attribute is [S1] there *)
  ff_init_one : list SigBit;
  box_list : list box_info
}.

(** The counters and tables of the AIG under construction. *)
Record aigstate := {
  aig_m : Z; aig_i : Z; aig_l : Z; aig_o : Z; aig_a : Z;
  aig_gates : list (Z * Z);
  aig_outputs : list Z;
  aig_map : gmap SigBit Z;
  ordered_outputs : gmap SigBit Z
}.

Definition aigstate0 : aigstate :=
  {| aig_m := 0; aig_i := 0; aig_l := 0; aig_o := 0; aig_a := 0;
     aig_gates := []; aig_outputs := []; aig_map := ∅;
     ordered_outputs := ∅ |}.

Definition set_aig_map (mp : gmap SigBit Z) (s : aigstate) : aigstate :=
  {| aig_m := aig_m s; aig_i := aig_i s; aig_l := aig_l s; aig_o := aig_o s;
     aig_a := aig_a s; aig_gates := aig_gates s; aig_outputs := aig_outputs s;
     aig_map := mp; ordered_outputs := ordered_outputs s |}.

(** [aig_m++, aig_i++]. *)
Definition bump_input (s : aigstate) : aigstate :=
  {| aig_m := aig_m s + 1; aig_i := aig_i s + 1; aig_l := aig_l s;
     aig_o := aig_o s; aig_a := aig_a s; aig_gates := aig_gates s;
     aig_outputs := aig_outputs s; aig_map := aig_map s;
     ordered_outputs := ordered_outputs s |}.

(** [ordered_outputs[bit] = aig_o++] (the map is passed updated). *)
Definition count_output (oo : gmap SigBit Z) (s : aigstate) : aigstate :=
  {| aig_m := aig_m s; aig_i := aig_i s; aig_l := aig_l s;
     aig_o := aig_o s + 1; aig_a := aig_a s; aig_gates := aig_gates s;
     aig_outputs := aig_outputs s; aig_map := aig_map s;
     ordered_outputs := oo |}.

(** [aig_outputs.push_back(a)]. *)
Definition append_output (a : Z) (s : aigstate) : aigstate :=
  {| aig_m := aig_m s; aig_i := aig_i s; aig_l := aig_l s;
     aig_o := aig_o s; aig_a := aig_a s; aig_gates := aig_gates s;
     aig_outputs := aig_outputs s ++ [a]; aig_map := aig_map s;
     ordered_outputs := ordered_outputs s |}.

(** [XAigerWriter::mkgate] (lines 102-107). *)
Definition mkgate (s : aigstate) (a0 a1 : Z) : aigstate * Z :=
  let m := aig_m s + 1 in
  ({| aig_m := m; aig_i := aig_i s; aig_l := aig_l s; aig_o := aig_o s;
      aig_a := aig_a s + 1;
      aig_gates := aig_gates s ++ [if a0 >? a1 then (a0, a1) else (a1, a0)];
      aig_outputs := aig_outputs s; aig_map := aig_map s;
      ordered_outputs := ordered_outputs s |}, 2 * m).

Definition is_x_or_z (b : SigBit) : bool :=
  match b with SBConst Sx | SBConst Sz => true | _ => false end.

(** The end of [bit2aig] (lines 134-141): the [x]/[z] override, the
    assertion, and the memo entry. *)
Definition bit2aig_finish (bit : SigBit) (s : aigstate) (a : Z)
  : result (aigstate * Z) :=
  a' <- (if is_x_or_z bit then at_ (aig_map s) (SBConst S0) else Ok a) ;;
  _ <- log_assert (0 <=? a') ;;
  Ok (set_aig_map (<[bit := a']> (aig_map s)) s, a').

(** [XAigerWriter::bit2aig] (lines 109-142).  A cached bit returns at
    once; every uncached call consumes one unit of [depth], the native
    stack of the recursion. *)
Fixpoint bit2aig (depth : nat) (T : tables) (s : aigstate) (bit : SigBit)
  : result (aigstate * Z) :=
  match aig_map s !! bit with
  | Some a => _ <- log_assert (0 <=? a) ;; Ok (s, a)
  | None =>
      match depth with
      | O => Err RecursionDepth
      | S d =>
          r <- match not_map T !! bit with
               | Some nb =>
                   p <- bit2aig d T s nb ;;
                   Ok (fst p, Z.lxor (snd p) 1)
               | None =>
                   match and_map T !! bit with
                   | Some (x, y) =>
                       p0 <- bit2aig d T s x ;;
                       p1 <- bit2aig d T (fst p0) y ;;
                       Ok (mkgate (fst p1) (snd p0) (snd p1))
                   | None =>
                       match alias_map T !! bit with
                       | Some ab => bit2aig d T s ab
                       | None => Ok (s, -1)
                       end
                   end
               end ;;
          bit2aig_finish bit (fst r) (snd r)
      end
  end.

(** ** Numbering and output phase of the constructor (lines 578-629) *)

(** [for (auto bit : input_bits)] and [for (const auto &i : ff_bits)]
    (lines 581-592): a fresh input literal per bit. *)
Fixpoint alloc_pis (bits : list SigBit) (s : aigstate) : result aigstate :=
  match bits with
  | [] => Ok s
  | bit :: rest =>
      let s1 := bump_input s in
      _ <- log_assert (negb (bool_decide (is_Some (aig_map s1 !! bit)))) ;;
      alloc_pis rest (set_aig_map (<[bit := 2 * aig_m s1]> (aig_map s1)) s1)
  end.

(** [for (auto &c : ci_bits)] (lines 594-601): [aig_map.insert] keeps an
    existing entry, and then the new literal goes to [ff_aig_map]. *)
Fixpoint alloc_cis (bits : list SigBit) (s : aigstate) (ffm : gmap SigBit Z)
  : aigstate * gmap SigBit Z :=
  match bits with
  | [] => (s, ffm)
  | bit :: rest =>
      let s1 := bump_input s in
      match aig_map s1 !! bit with
      | None => alloc_cis rest (set_aig_map (<[bit := 2 * aig_m s1]> (aig_map s1)) s1) ffm
      | Some _ => alloc_cis rest s1 (<[bit := 2 * aig_m s1]> ffm)
      end
  end.

(** [ordered_outputs[bit] = aig_o++; aig_outputs.push_back(bit2aig(bit))]
    for each bit in turn (lines 603-607 and 614-617). *)
Fixpoint emit_bits (depth : nat) (T : tables) (bits : list SigBit) (s : aigstate)
  : result aigstate :=
  match bits with
  | [] => Ok s
  | bit :: rest =>
      let s1 := count_output (<[bit := aig_o s]> (ordered_outputs s)) s in
      p <- bit2aig depth T s1 bit ;;
      emit_bits depth T rest (append_output (snd p) (fst p))
  end.

(** [aig_o++; aig_outputs.push_back(ff_aig_map.at(bit))] (lines 619-623). *)
Fixpoint emit_ffs (ffm : gmap SigBit Z) (ffs : list (SigBit * Z)) (s : aigstate)
  : result aigstate :=
  match ffs with
  | [] => Ok s
  | (bit, _) :: rest =>
      let s1 := count_output (ordered_outputs s) s in
      a <- at_ ffm bit ;;
      emit_ffs ffm rest (append_output a s1)
  end.

Definition set_output_bits (ob : list SigBit) (T : tables) : tables :=
  {| input_bits := input_bits T; output_bits := ob; not_map := not_map T;
     and_map := and_map T; alias_map := alias_map T; ci_bits := ci_bits T;
     co_bits := co_bits T; ff_bits := ff_bits T;
     arrival_times := arrival_times T; init_map := init_map T;
     ff_init_one := ff_init_one T; box_list := box_list T |}.

(** The writer object after its constructor. *)
Record writer := {
  wtables : tables;
  zinit_mode : bool;
  wstate : aigstate;
  omode : bool
}.

(** Lines 578-629 of [XAigerWriter::XAigerWriter], run on the tables the
    classifier produced. *)
Definition construct (depth : nat) (zinit : bool) (T : tables) : result writer :=
  let s0 := set_aig_map (<[SBConst S1 := 1]> (<[SBConst S0 := 0]> ∅)) aigstate0 in
  s1 <- alloc_pis (input_bits T) s0 ;;
  s2 <- alloc_pis (map fst (ff_bits T)) s1 ;;
  let '(s3, ffm) := alloc_cis (ci_bits T) s2 ∅ in
  s4 <- emit_bits depth T (co_bits T) s3 ;;
  let '(ob, om) := match output_bits T with
                   | [] => ([SBConst S0], true)
                   | ob => (ob, false)
                   end in
  let T' := set_output_bits ob T in
  s5 <- emit_bits depth T' ob s4 ;;
  s6 <- emit_ffs ffm (ff_bits T') s5 ;;
  let '(s7, om') := match ob with
                    | [] => (append_output 0 (count_output (ordered_outputs s6) s6), true)
                    | _ => (s6, om)
                    end in
  Ok {| wtables := T'; zinit_mode := zinit; wstate := s7; omode := om' |}.

(** ** The builder invariant

    While [bit2aig] runs, the variables are the [I] inputs followed by the
    gates in creation order; every literal in [aig_map] names an existing
    variable; gate [k] (variable [I + k + 1]) stores its larger operand
    first and both operands name earlier variables. *)
Definition builder_inv (I : Z) (s : aigstate) : Prop :=
  aig_i s = I /\ aig_l s = 0 /\ 0 <= I /\
  aig_a s = Z.of_nat (length (aig_gates s)) /\
  aig_m s = I + aig_a s /\
  (forall b a, aig_map s !! b = Some a -> 0 <= a <= 2 * aig_m s + 1) /\
  (forall (k : nat) x y, aig_gates s !! k = Some (x, y) ->
     0 <= y <= x /\ x < 2 * (I + Z.of_nat k + 1)).

(** ** Bytes and text *)

(** The ASCII bytes of a string. *)
Definition bytes_of_string (s : string) : list Z :=
  map (fun c => Z.of_nat (nat_of_ascii c)) (list_ascii_of_string s).

(** Decimal digits of a non-negative [int] (at most 10 of them). *)
Fixpoint digits_aux (fuel : nat) (n : Z) (acc : list Z) : list Z :=
  match fuel with
  | O => acc
  | S f =>
      let acc' := (48 + n mod 10) :: acc in
      if n <? 10 then acc' else digits_aux f (n / 10) acc'
  end.

(** [stringf("%d", n)]. *)
Definition decimal (n : Z) : list Z :=
  if n <? 0 then 45 :: digits_aux 11 (- n) [] else digits_aux 11 n [].

Definition newline : list Z := [10].
Definition space : list Z := [32].

(** [for (int i = lo; i < hi; i++)]. *)
Definition zrange (lo hi : Z) : list Z :=
  map (fun k => lo + Z.of_nat k) (seq 0 (Z.to_nat (hi - lo))).

Fixpoint mapM {A B} (f : A -> result B) (l : list A) : result (list B) :=
  match l with
  | [] => Ok []
  | x :: xs => y <- f x ;; ys <- mapM f xs ;; Ok (y :: ys)
  end.

(** [std::vector::at]. *)
Definition vat {A} (l : list A) (i : Z) : result A :=
  if i <? 0 then Err AtMissing
  else match l !! Z.to_nat i with Some a => Ok a | None => Err AtMissing end.

(** ** Byte order

    The host is little- or big-endian ([__BYTE_ORDER__]). *)
Inductive endian := LittleEndian | BigEndian.

(** Byte [k] (0 = least significant) of a 32-bit value. *)
Definition byte_at (x : Z) (k : Z) : Z := Z.land (Z.shiftr x (8 * k)) 255.

(** Big-endian and little-endian byte sequences of a 32-bit value. *)
Definition be32 (x : Z) : list Z := [byte_at x 3; byte_at x 2; byte_at x 1; byte_at x 0].
Definition le32 (x : Z) : list Z := [byte_at x 0; byte_at x 1; byte_at x 2; byte_at x 3].

(** The four bytes [write(reinterpret_cast<const char*>(&x), 4)] puts out
    for a 32-bit object holding [x]: memory order of the host. *)
Definition native_bytes (e : endian) (x : Z) : list Z :=
  match e with LittleEndian => le32 x | BigEndian => be32 x end.

(** [bswap32]. *)
Definition bswap32 (x : Z) : Z :=
  Z.lor (Z.shiftl (byte_at x 0) 24)
    (Z.lor (Z.shiftl (byte_at x 1) 16)
       (Z.lor (Z.shiftl (byte_at x 2) 8) (byte_at x 3))).

(** [to_big_endian] (lines 54-62). *)
Definition to_big_endian (e : endian) (i32 : Z) : Z :=
  match e with LittleEndian => bswap32 i32 | BigEndian => i32 end.

(** The lambda [write_buffer] (lines 692-695). *)
Definition write_buffer (e : endian) (i32 : Z) : list Z :=
  native_bytes e (to_big_endian e i32).

(** The lambda [write_buffer_float] (lines 710-712); a [float] is given by
    its IEEE-754 single-precision bit pattern. *)
Definition write_buffer_float (e : endian) (f32 : Z) : list Z :=
  native_bytes e f32.

(** The bit pattern of [(float)n] for an integer with [|n| < 2^24], where
    the conversion is exact ([arrival_times[b] = arrival] stores an [int]
    into a [float]). *)
Definition f32_of_int (n : Z) : Z :=
  let a := Z.abs n in
  let sign := if n <? 0 then Z.shiftl 1 31 else 0 in
  if a =? 0 then 0
  else
    let e := Z.log2 a in
    Z.lor sign (Z.lor (Z.shiftl (127 + e) 23)
                      (Z.shiftl (a - Z.shiftl 1 e) (23 - e))).

(** A section of the extended format: tag, big-endian length, payload
    (lines 827-831 and the like). *)
Definition section (e : endian) (tag : string) (payload : list Z) : list Z :=
  bytes_of_string tag ++ native_bytes e (to_big_endian e (Z.of_nat (length payload)))
  ++ payload.

(** What [write_aiger] needs beyond the writer object: the host byte
    order, the version string, and the bytes that the nested writer on the
    ["$__holes__"] module produced (that module is built by the passes
    [flatten], [techmap], [aigmap] and [clean], outside this file). *)
Record environment := {
  host : endian;
  yosys_version_str : string;
  holes_aig : list Z
}.

(** ** [XAigerWriter::write_aiger] (lines 632-952) *)

(** [arrival_times.at(bit, 0)]: the stored [float], or [0.0]. *)
Definition arrival_of (T : tables) (bit : SigBit) : Z :=
  match arrival_times T !! bit with Some f => f | None => f32_of_int 0 end.

(** One output literal line, [stringf("%d\n", aig_outputs.at(i))]. *)
Definition output_line (s : aigstate) (i : Z) : result (list Z) :=
  a <- vat (aig_outputs s) i ;; Ok (decimal a ++ newline).

(** Lines 644-687: the body in ASCII or binary form. *)
Definition write_body (s : aigstate) (ascii_mode : bool) : result (list Z) :=
  let aig_obc := aig_o s in
  let aig_obcj := aig_obc in
  let aig_obcjf := aig_obcj in
  if ascii_mode then
    ins <- mapM (fun i => Ok (decimal (2 * i + 2) ++ newline)) (zrange 0 (aig_i s)) ;;
    o1 <- mapM (output_line s) (zrange 0 aig_obc) ;;
    o2 <- mapM (fun _ => Ok (bytes_of_string "1" ++ newline)) (zrange aig_obc aig_obcj) ;;
    o3 <- mapM (output_line s) (zrange aig_obc aig_obcj) ;;
    o4 <- mapM (output_line s) (zrange aig_obcj aig_obcjf) ;;
    gs <- mapM (fun i =>
                  g <- vat (aig_gates s) i ;;
                  Ok (decimal (2 * (aig_i s + aig_l s + i) + 2) ++ space ++
                      decimal (fst g) ++ space ++ decimal (snd g) ++ newline))
               (zrange 0 (aig_a s)) ;;
    Ok (concat ins ++ concat o1 ++ concat o2 ++ concat o3 ++ concat o4 ++ concat gs)
  else
    o1 <- mapM (output_line s) (zrange 0 aig_obc) ;;
    o2 <- mapM (fun _ => Ok (bytes_of_string "1" ++ newline)) (zrange aig_obc aig_obcj) ;;
    o3 <- mapM (output_line s) (zrange aig_obc aig_obcj) ;;
    o4 <- mapM (output_line s) (zrange aig_obcj aig_obcjf) ;;
    gs <- mapM (fun i =>
                  let lhs := 2 * (aig_i s + aig_l s + i) + 2 in
                  g <- vat (aig_gates s) i ;;
                  let delta0 := lhs - fst g in
                  let delta1 := fst g - snd g in
                  e0 <- aiger_encode delta0 ;;
                  e1 <- aiger_encode delta1 ;;
                  Ok (e0 ++ e1))
               (zrange 0 (aig_a s)) ;;
    Ok (concat o1 ++ concat o2 ++ concat o3 ++ concat o4 ++ concat gs).

(** The [h] entries of the box loop (lines 809-812). *)
Definition box_h_entries (e : endian) (boxes : list box_info) : list Z :=
  concat (imap (fun k b => write_buffer e (box_inputs b) ++ write_buffer e (box_outputs b) ++
                           write_buffer e (box_id b) ++ write_buffer e (Z.of_nat k)) boxes).

(** The [r] loop (lines 819-825): per register its class for [r] and its
    arrival time for [i]. *)
Definition r_entry (e : endian) (T : tables) (ff : SigBit * Z) : result (list Z * list Z) :=
  _ <- log_assert (snd ff >? 0) ;;
  Ok (write_buffer e (snd ff), write_buffer_float e (arrival_of T (fst ff))).

(** The [s] loop (lines 836-847). *)
Definition s_entry (e : endian) (T : tables) (ff : SigBit * Z) : list Z :=
  if bool_decide (fst ff ∈ ff_init_one T) then write_buffer e 1 else write_buffer e 0.

Definition write_aiger (env : environment) (w : writer) (ascii_mode : bool)
  : result (list Z) :=
  let s := wstate w in
  let T := wtables w in
  let e := host env in
  let wb := write_buffer e in
  let aig_obcjf := aig_o s in
  _ <- log_assert (aig_m s =? aig_i s + aig_l s + aig_a s) ;;
  _ <- log_assert (aig_obcjf =? Z.of_nat (length (aig_outputs s))) ;;
  let header :=
    bytes_of_string (if ascii_mode then "aag" else "aig") ++
    space ++ decimal (aig_m s) ++ space ++ decimal (aig_i s) ++ space ++
    decimal (aig_l s) ++ space ++ decimal (aig_o s) ++ space ++
    decimal (aig_a s) ++ newline in
  body <- write_body s ascii_mode ;;
  _ <- log_assert (negb (bool_decide (output_bits T = []))) ;;
  let nin := Z.of_nat (length (input_bits T)) in
  let nout := Z.of_nat (length (output_bits T)) in
  let nff := Z.of_nat (length (ff_bits T)) in
  let h0 := wb 1 ++ wb (nin + nff + Z.of_nat (length (ci_bits T))) ++
            wb (nout + nff + Z.of_nat (length (co_bits T))) ++
            wb (nin + nff) ++ wb (nout + nff) ++
            wb (Z.of_nat (length (box_list T))) in
  let i0 := concat (map (fun b => write_buffer_float e (arrival_of T b)) (input_bits T)) in
  ext <- (if negb (bool_decide (box_list T = [])) || negb (bool_decide (ff_bits T = []))
          then
            rs <- mapM (r_entry e T) (ff_bits T) ;;
            let r := wb nff ++ concat (map fst rs) in
            let sb := wb nff ++ concat (map (s_entry e T) (ff_bits T)) in
            Ok (section e "r" r ++ section e "s" sb ++ section e "a" (holes_aig env),
                box_h_entries e (box_list T), concat (map snd rs))
          else Ok ([], [], [])) ;;
  let '(rsa, hbox, iff) := ext in
  Ok (header ++ body ++ bytes_of_string "c" ++ rsa ++
      section e "h" (h0 ++ hbox) ++ section e "i" (i0 ++ iff) ++
      bytes_of_string "Generated by " ++ bytes_of_string (yosys_version_str env) ++ newline).

(** The state during input numbering (lines 578-601): no gates, no
    outputs, every variable an input. *)
Definition alloc_inv (s : aigstate) : Prop :=
  aig_a s = 0 /\ aig_gates s = [] /\ aig_l s = 0 /\ aig_m s = aig_i s /\
  0 <= aig_i s /\ aig_o s = 0 /\ aig_outputs s = [] /\
  (forall b a, aig_map s !! b = Some a -> 0 <= a <= 2 * aig_m s + 1).

(** A rank function that strictly decreases along every recorded
    [not_map], [and_map] and [alias_map] dependency: the relations are
    acyclic. *)
Definition ranked (T : tables) (rank : SigBit -> nat) : Prop :=
  (forall b nb, not_map T !! b = Some nb -> (rank nb < rank b)%nat) /\
  (forall b x y, and_map T !! b = Some (x, y) ->
     (rank x < rank b)%nat /\ (rank y < rank b)%nat) /\
  (forall b ab, alias_map T !! b = Some ab -> (rank ab < rank b)%nat).

(** A decision procedure for [ranked] over the finite maps. *)
Definition ranked_b (T : tables) (rank : SigBit -> nat) : bool :=
  forallb (fun p => Nat.ltb (rank p.2) (rank p.1)) (map_to_list (not_map T)) &&
  forallb (fun p => Nat.ltb (rank p.2.1) (rank p.1) && Nat.ltb (rank p.2.2) (rank p.1))
          (map_to_list (and_map T)) &&
  forallb (fun p => Nat.ltb (rank p.2) (rank p.1)) (map_to_list (alias_map T)).

(** ** A small example design

    Inputs [w0], [w1]; [w2 = ~w0] (a [$_NOT_]); [w3 = w2 & w1] (an
    [$_AND_]); primary output [w3]; one [$__ABC9_FF_] whose Q is [w5] and
    whose D is the flop box output, also named [w5] after [sigmap]; the
    arrival time of [w0] is [1.0f]. *)
Definition ex_tables : tables :=
  {| input_bits := [SBWire 0 0; SBWire 1 0]; output_bits := [SBWire 3 0];
     not_map := <[SBWire 2 0 := SBWire 0 0]> ∅;
     and_map := <[SBWire 3 0 := (SBWire 2 0, SBWire 1 0)]> ∅;
     alias_map := ∅; ci_bits := [SBWire 5 0]; co_bits := [];
     ff_bits := [(SBWire 5 0, 1)];
     arrival_times := <[SBWire 0 0 := f32_of_int 1]> ∅; init_map := ∅;
     ff_init_one := []; box_list := [] |}.

(** The same design without a primary output. *)
Definition ex_tables_no_output : tables := set_output_bits [] ex_tables.

Definition ex_rank (b : SigBit) : nat :=
  match b with SBConst _ => 0 | SBWire w _ => w end.

Definition writer_default : writer :=
  {| wtables := ex_tables; zinit_mode := false; wstate := aigstate0; omode := false |}.

(** The writer built for [ex_tables] (with a stack of depth 10). *)
Definition ex_writer : writer :=
  match construct 10 false ex_tables with Ok w => w | Err _ => writer_default end.

(** ** Layout of the extension sections

    The sections of the extended format as the bytes they hold: a section
    is its tag, its length as a big-endian 32-bit word, and its payload. *)
Definition be_section (tag : string) (payload : list Z) : list Z :=
  bytes_of_string tag ++ be32 (Z.of_nat (length payload)) ++ payload.

(** Whether [write_aiger] writes the [r], [s] and [a] sections (line 722). *)
Definition ext_present (T : tables) : bool :=
  negb (bool_decide (box_list T = [])) || negb (bool_decide (ff_bits T = [])).

Definition h_payload (T : tables) : list Z :=
  let nin := Z.of_nat (length (input_bits T)) in
  let nout := Z.of_nat (length (output_bits T)) in
  let nff := Z.of_nat (length (ff_bits T)) in
  be32 1 ++ be32 (nin + nff + Z.of_nat (length (ci_bits T))) ++
  be32 (nout + nff + Z.of_nat (length (co_bits T))) ++
  be32 (nin + nff) ++ be32 (nout + nff) ++ be32 (Z.of_nat (length (box_list T))) ++
  concat (imap (fun k b => be32 (box_inputs b) ++ be32 (box_outputs b) ++
                           be32 (box_id b) ++ be32 (Z.of_nat k)) (box_list T)).

Definition r_payload (T : tables) : list Z :=
  be32 (Z.of_nat (length (ff_bits T))) ++ concat (map (fun ff => be32 ff.2) (ff_bits T)).

Definition s_payload (T : tables) : list Z :=
  be32 (Z.of_nat (length (ff_bits T))) ++
  concat (map (fun ff => be32 (if bool_decide (ff.1 ∈ ff_init_one T) then 1 else 0))
              (ff_bits T)).

(** The [i] payload: the arrival time of each input, then (with the
    extension sections) of each register, as host-order [float]s. *)
Definition i_payload (e : endian) (T : tables) : list Z :=
  concat (map (fun b => native_bytes e (arrival_of T b)) (input_bits T)) ++
  (if ext_present T
   then concat (map (fun ff => native_bytes e (arrival_of T ff.1)) (ff_bits T))
   else []).

Definition trailer (env : environment) : list Z :=
  bytes_of_string "Generated by " ++ bytes_of_string (yosys_version_str env) ++ newline.

(** The host and version of the example runs. *)
Definition ex_env_le : environment :=
  {| host := LittleEndian; yosys_version_str := "Yosys"; holes_aig := [] |}.

(** The file [write_aiger] puts out for [ex_tables] in binary mode on a
    little-endian host. *)
Definition ex_aiger_bytes : list Z :=
  match write_aiger ex_env_le ex_writer false with Ok b => b | Err _ => [] end.

(** ** [XAigerWriter::write_map] (lines 954-1027) *)

(** Modelled from the spec: the [dict<int, string>] of [kernel/hashlib.h]
    as its entries in iteration order.  The map file lines are "grouped
    and sorted by index within each category", so after [sort()] the
    entries are iterated by ascending key; [operator[]] on a new key adds
    an entry that is iterated first.  A value built by [+=] of whole lines
    is kept as the list of those lines. *)
Definition dict (V : Type) := list (Z * V).

Fixpoint dict_lookup {V} (k : Z) (d : dict V) : option V :=
  match d with
  | [] => None
  | (k', v) :: r => if k =? k' then Some v else dict_lookup k r
  end.

Fixpoint dict_update {V} (k : Z) (f : V -> V) (d : dict V) : dict V :=
  match d with
  | [] => []
  | (k', v) :: r => if k =? k' then (k', f v) :: r else (k', v) :: dict_update k f r
  end.

(** [d[k] += line]. *)
Definition dict_add (k : Z) (line : list Z) (d : dict (list (list Z))) : dict (list (list Z)) :=
  match dict_lookup k d with
  | Some _ => dict_update k (fun v => v ++ [line]) d
  | None => (k, [line]) :: d
  end.

(** [d[k] = v]. *)
Definition dict_set {V} (k : Z) (v : V) (d : dict V) : dict V :=
  match dict_lookup k d with
  | Some _ => dict_update k (fun _ => v) d
  | None => (k, v) :: d
  end.

Fixpoint dict_ins {V} (k : Z) (v : V) (d : dict V) : dict V :=
  match d with
  | [] => [(k, v)]
  | (k', v') :: r => if k <=? k' then (k, v) :: d else (k', v') :: dict_ins k v r
  end.

(** [d.sort()]. *)
Definition dict_sort {V} (d : dict V) : dict V :=
  fold_right (fun kv acc => dict_ins kv.1 kv.2 acc) [] d.

(** [for (auto &it : d) f << it.second;]. *)
Definition dict_text (d : dict (list (list Z))) : list (list Z) := concat (map snd d).

(** A wire of the module: its bits are [SBWire wire_id i] for
    [i < wire_width]; [wire_name] is the text [log_id(wire)] gives. *)
Record mwire := {
  wire_id : nat;
  wire_name : string;
  wire_width : nat
}.

(** What [write_map] reads from the module: [module->wires()] in order,
    and the writer's [sigmap]. *)
Record modinfo := {
  mwires : list mwire;
  msigmap : SigBit -> SigBit
}.

(** [for (auto x : l) { ... }] over a loop body that may fail. *)
Fixpoint foldM {A B} (f : B -> A -> result B) (l : list A) (b : B) : result B :=
  match l with
  | [] => Ok b
  | x :: xs => b' <- f b x ;; foldM f xs b'
  end.

(** The init field of an output line (lines 980-983). *)
Definition init_value (zinit : bool) (im : gmap SigBit bool) (b : SigBit) : Z :=
  match (im !! b : option bool) with
  | Some v => if v then 1 else 0
  | None => if zinit then 0 else 2
  end.

Definition input_line (a : Z) (i : nat) (name : string) : list Z :=
  bytes_of_string "input " ++ decimal (Z.shiftr a 1 - 1) ++ space ++
  decimal (Z.of_nat i) ++ space ++ bytes_of_string name ++ newline.

Definition output_line_map (o ncos : Z) (i : nat) (name : string) (init : Z) : list Z :=
  bytes_of_string "output " ++ decimal (o - ncos) ++ space ++ decimal (Z.of_nat i) ++
  space ++ bytes_of_string name ++ space ++ decimal init ++ newline.

Definition wire_line (a : Z) (i : nat) (name : string) : list Z :=
  bytes_of_string "wire " ++ decimal a ++ space ++ decimal (Z.of_nat i) ++ space ++
  bytes_of_string name ++ newline.

Definition box_line (k : nat) (name : string) : list Z :=
  bytes_of_string "box " ++ decimal (Z.of_nat k) ++ space ++ decimal 0 ++ space ++
  bytes_of_string name ++ newline.

Definition dummy_line : list Z := bytes_of_string "output 0 0 $__dummy__" ++ newline.

(** [input_lines], [output_lines] and [wire_lines] while the wires are
    scanned. *)
Record maplines := {
  input_lines : dict (list (list Z));
  output_lines : dict (list (list Z));
  wire_lines : dict (list (list Z))
}.

Definition maplines0 : maplines :=
  {| input_lines := []; output_lines := []; wire_lines := [] |}.

(** The body of the inner loop (lines 969-995) for bit [i] of [wr]. *)
Definition map_bit (w : writer) (mi : modinfo) (verbose_map : bool)
    (wr : mwire) (acc : maplines) (i : nat) : result maplines :=
  let T := wtables w in
  let s := wstate w in
  let b := SBWire (wire_id wr) i in
  il <- (if bool_decide (b ∈ input_bits T)
         then a <- at_ (aig_map s) b ;;
              _ <- log_assert (Z.land a 1 =? 0) ;;
              Ok (dict_add a (input_line a i (wire_name wr)) (input_lines acc))
         else Ok (input_lines acc)) ;;
  if bool_decide (b ∈ output_bits T) then
    o <- at_ (ordered_outputs s) b ;;
    let init := init_value (zinit_mode w) (init_map T) b in
    Ok {| input_lines := il;
          output_lines := dict_add o (output_line_map o (Z.of_nat (length (co_bits T))) i
                                        (wire_name wr) init) (output_lines acc);
          wire_lines := wire_lines acc |}
  else if verbose_map then
    match aig_map s !! msigmap mi b with
    | None => Ok {| input_lines := il; output_lines := output_lines acc;
                    wire_lines := wire_lines acc |}
    | Some a =>
        Ok {| input_lines := il; output_lines := output_lines acc;
              wire_lines := dict_add a (wire_line a i (wire_name wr)) (wire_lines acc) |}
    end
  else Ok {| input_lines := il; output_lines := output_lines acc;
             wire_lines := wire_lines acc |}.

(** The loop over the wires (lines 962-997). *)
Definition map_scan (w : writer) (mi : modinfo) (verbose_map : bool) : result maplines :=
  foldM (fun acc wr => foldM (map_bit w mi verbose_map wr) (seq 0 (wire_width wr)) acc)
        (mwires mi) maplines0.

(** [write_map]: the lines of the map file.  A failed [log_assert] aborts
    the pass, so no file is produced. *)
Definition write_map (w : writer) (mi : modinfo) (verbose_map : bool)
  : result (list (list Z)) :=
  let T := wtables w in
  acc <- map_scan w mi verbose_map ;;
  let il := dict_sort (input_lines acc) in
  _ <- log_assert (Nat.eqb (length il) (length (input_bits T))) ;;
  let init_lines : dict (list (list Z)) := [] in
  let latch_lines : dict (list (list Z)) := [] in
  let boxes := imap (fun k bx => box_line k (box_name bx)) (box_list T) in
  let ol0 := dict_sort (output_lines acc) in
  let ol := if omode w then dict_set 0 [dummy_line] ol0 else ol0 in
  _ <- log_assert (Nat.eqb (length ol) (length (output_bits T))) ;;
  let extra := if omode w && bool_decide (output_bits T = [])
               then [bytes_of_string "output " ++ decimal (Z.of_nat (length ol)) ++
                     bytes_of_string " 0 $__dummy__" ++ newline]
               else [] in
  Ok (dict_text il ++ dict_text (dict_sort init_lines) ++ boxes ++ dict_text ol ++ extra ++
      dict_text (dict_sort latch_lines) ++ dict_text (dict_sort (wire_lines acc))).

(** The writer with its [zinit_mode] set to [z]. *)
Definition set_zinit (z : bool) (w : writer) : writer :=
  {| wtables := wtables w; zinit_mode := z; wstate := wstate w; omode := omode w |}.

(** Whether a map line is an [output] line. *)
Fixpoint starts_with (p l : list Z) : bool :=
  match p, l with
  | [], _ => true
  | x :: p', y :: l' => (x =? y) && starts_with p' l'
  | _ :: _, [] => false
  end.

Definition is_output_line (l : list Z) : bool := starts_with (bytes_of_string "output ") l.

(** The example module: wires [w0] to [w5], one bit each. *)
Definition ex_modinfo : modinfo :=
  {| mwires := map (fun k => {| wire_id := k; wire_name := "w" ++ String (ascii_of_nat (48 + k)) EmptyString; wire_width := 1 |})
                   (seq 0 6);
     msigmap := fun b => b |}.

(** The writer built for [ex_tables_no_output]. *)
Definition ex_writer_no_output : writer :=
  match construct 10 false ex_tables_no_output with Ok w => w | Err _ => writer_default end.

(** Every line held in a dict satisfies [P]. *)
Definition dict_lines_all (P : list Z -> Prop) (d : dict (list (list Z))) : Prop :=
  Forall (fun kv => Forall P kv.2) d.

Definition not_output_line (l : list Z) : Prop := is_output_line l = false.

(** What [map_scan] builds when no wire bit is a primary output. *)
Definition scan_no_output (acc : maplines) : Prop :=
  output_lines acc = [] /\ dict_lines_all not_output_line (input_lines acc) /\
  dict_lines_all not_output_line (wire_lines acc).

(** ** Relations between runs *)

(** Two outcomes of a pass agree: both results related by [R], or the
    same error. *)
Definition result_rel {A} (R : A -> A -> Prop) (r1 r2 : result A) : Prop :=
  match r1, r2 with
  | Ok a1, Ok a2 => R a1 a2
  | Err e1, Err e2 => e1 = e2
  | _, _ => False
  end.

(** Two map lines are equal, or are the same [output] line ending in init
    field [0] and in init field [2]. *)
Definition init_rel (l1 l2 : list Z) : Prop :=
  l1 = l2 \/
  exists pre, starts_with (bytes_of_string "output ") pre = true /\
              l1 = pre ++ decimal 0 ++ newline /\ l2 = pre ++ decimal 2 ++ newline.

Definition dict_rel (d1 d2 : dict (list (list Z))) : Prop :=
  Forall2 (fun e1 e2 => e1.1 = e2.1 /\ Forall2 init_rel e1.2 e2.2) d1 d2.

Definition maplines_rel (a1 a2 : maplines) : Prop :=
  input_lines a1 = input_lines a2 /\ wire_lines a1 = wire_lines a2 /\
  dict_rel (output_lines a1) (output_lines a2).

(** ** The dependency orderer (lines 215-409) *)

(** A dependency graph: the nodes and the edges (driver, user). *)
Record graph := {
  g_nodes : list nat;
  g_edges : list (nat * nat)
}.

(** Modelled from the spec: [TopoSort::sort] of [kernel/utils.h], which
    orders the nodes so that every edge goes forward and reports whether
    the graph has a loop.  Kahn's algorithm: repeatedly take out a node
    with no edge from a node still left; the result is the order taken
    and the nodes left over. *)
Fixpoint kahn (fuel : nat) (edges : list (nat * nat)) (rem sorted : list nat)
  : list nat * list nat :=
  match fuel with
  | O => (sorted, rem)
  | S f =>
      match List.find (fun v => forallb (fun e => negb (Nat.eqb e.2 v &&
                                                          existsb (Nat.eqb e.1) rem)) edges) rem with
      | None => (sorted, rem)
      | Some v => kahn f edges (List.remove Nat.eq_dec v rem) (sorted ++ [v])
      end
  end.

(** Modelled from the spec: [no_loops = toposort.sort()] and
    [toposort.sorted]. *)
Definition topo_sort (g : graph) : bool * list nat :=
  let '(sorted, rem) := kahn (length (g_nodes g)) (g_edges g) (g_nodes g) [] in
  (match rem with [] => true | _ => false end, sorted).

(** Paths of one or more edges. *)
Inductive reach (E : list (nat * nat)) : nat -> nat -> Prop :=
| reach_one u v : In (u, v) E -> reach E u v
| reach_step u w v : In (u, w) E -> reach E w v -> reach E u v.

Definition has_cycle (g : graph) : Prop := exists x, reach (g_edges g) x x.

(** What a module says of one of its ports ([inst_module->wire(name)]):
    [port_input], [port_output], and its [abc9_arrival] attribute: absent
    ([None]), an integer ([Some (Some n)]), or a constant with flags set,
    which is not an integer ([Some None]). *)
Record port_info := {
  pi_input : bool;
  pi_output : bool;
  pi_arrival : option (option Z)
}.

(** A connection of a box cell: the port name, the module's wire of that
    name ([None] for a null pointer) and the connected signal, as it is
    and through [sigmap]. *)
Record box_conn := {
  bc_name : nat;
  bc_port : option port_info;
  bc_sig : list SigBit;
  bc_mapped : list SigBit
}.

(** A cell whose module has [abc9_box_id]: the cell type, whether the
    module has [abc9_flop], the cell's [abc9_mergeability] attribute
    ([as_int], [None] when absent) and its connections in order. *)
Record box_cell := {
  bx_type : nat;
  bx_flop : bool;
  bx_merge : option Z;
  bx_conns : list box_conn
}.

(** A connection of any other cell as lines 296-299 read it: whether its
    signal is fully constant, the port wire of the cell's module ([None]
    when there is no module or no such wire), and [cell->input(name)],
    [cell->output(name)]. *)
Record other_conn := {
  oc_const : bool;
  oc_port : option port_info;
  oc_cell_input : bool;
  oc_cell_output : bool
}.

(** The cells as the classifier sees them, gate ports already through
    [sigmap]: [$_NOT_], [$_AND_], [$__ABC9_FF_], a cell whose module has
    [abc9_box_id], and any other cell with [cell_known] (line 294) and its
    connections. *)
Inductive cell_kind :=
| CNot (a y : SigBit)
| CAnd (a b y : SigBit)
| CFF (d q : SigBit)
| CBox (bx : box_cell)
| COther (known : bool) (conns : list other_conn).

(** A cell; [cell_name] stands for its [IdString]. *)
Record cell := {
  cell_name : nat;
  cell_kind_of : cell_kind
}.

(** The part of the classifier's state the orderer and the flop-box pass
    use: the gate maps, the keys of [ff_bits] with their values, the
    [TopoSort] nodes, [bit_users], [bit_drivers], [abc9_box_seen] and
    [flop_boxes]. *)
Record order_state := {
  c_not_map : gmap SigBit SigBit;
  c_and_map : gmap SigBit (SigBit * SigBit);
  c_ff_bits : list (SigBit * Z);
  topo_nodes : list nat;
  bit_users : gmap SigBit (list nat);
  bit_drivers : gmap SigBit (list nat);
  abc9_box_seen : bool;
  c_flop_boxes : list box_cell
}.

Definition order_state0 : order_state :=
  {| c_not_map := ∅; c_and_map := ∅; c_ff_bits := []; topo_nodes := [];
     bit_users := ∅; bit_drivers := ∅; abc9_box_seen := false; c_flop_boxes := [] |}.

(** [m[b].insert(n)]. *)
Definition pool_add (m : gmap SigBit (list nat)) (b : SigBit) (n : nat) : gmap SigBit (list nat) :=
  <[b := n :: default [] (m !! b)]> m.

Definition set_users (st : order_state) (u : gmap SigBit (list nat)) : order_state :=
  {| c_not_map := c_not_map st; c_and_map := c_and_map st; c_ff_bits := c_ff_bits st;
     topo_nodes := topo_nodes st; bit_users := u; bit_drivers := bit_drivers st;
     abc9_box_seen := abc9_box_seen st; c_flop_boxes := c_flop_boxes st |}.

Definition set_drivers (st : order_state) (dr : gmap SigBit (list nat)) : order_state :=
  {| c_not_map := c_not_map st; c_and_map := c_and_map st; c_ff_bits := c_ff_bits st;
     topo_nodes := topo_nodes st; bit_users := bit_users st; bit_drivers := dr;
     abc9_box_seen := abc9_box_seen st; c_flop_boxes := c_flop_boxes st |}.

Definition set_ff_bits (st : order_state) (ff : list (SigBit * Z)) : order_state :=
  {| c_not_map := c_not_map st; c_and_map := c_and_map st; c_ff_bits := ff;
     topo_nodes := topo_nodes st; bit_users := bit_users st; bit_drivers := bit_drivers st;
     abc9_box_seen := abc9_box_seen st; c_flop_boxes := c_flop_boxes st |}.

(** [ff_bits.count(b)]. *)
Definition ff_has (ff : list (SigBit * Z)) (b : SigBit) : bool :=
  existsb (fun e => bool_decide (e.1 = b)) ff.

(** One connection of a box cell (lines 275-286): [port_wire->port_input]
    dereferences the wire, an [inout] port is skipped, an input port adds
    the cell to [bit_users] and an output port to [bit_drivers] for each
    bit of [sigmap(conn.second)]. *)
Definition box_conn_step (n : nat) (st : order_state) (bc : box_conn) : result order_state :=
  match bc_port bc with
  | None => Err NullDeref
  | Some p =>
      if pi_input p then
        if pi_output p then Ok st
        else Ok (set_users st (fold_left (fun m b => pool_add m b n) (bc_mapped bc) (bit_users st)))
      else if pi_output p then
        Ok (set_drivers st (fold_left (fun m b => pool_add m b n) (bc_mapped bc) (bit_drivers st)))
      else Ok st
  end.

(** The checks of one connection of any other cell (lines 296-327): a
    connection neither input nor output, and a non-integer
    [abc9_arrival] on an output port, are [log_error]s.  The bits it adds
    to the port lists lie outside [order_state]. *)
Definition other_conn_check (known : bool) (oc : other_conn) : result unit :=
  if oc_const oc then Ok tt else
  let is_input := match oc_port oc with Some p => pi_input p | None => false end
                  || negb known || oc_cell_input oc in
  let is_output := match oc_port oc with Some p => pi_output p | None => false end
                   || negb known || oc_cell_output oc in
  if negb is_input && negb is_output then Err LogError
  else if is_output then
    match oc_port oc with
    | Some p => match pi_arrival p with Some None => Err LogError | _ => Ok tt end
    | None => Ok tt
    end
  else Ok tt.

(** The loop body over [module->selected_cells()] (lines 221-345), as far
    as [order_state] goes. *)
Definition classify_cell (holes_mode : bool) (st : order_state) (c : cell) : result order_state :=
  let n := cell_name c in
  match cell_kind_of c with
  | CNot a y =>
      Ok {| c_not_map := <[y := a]> (c_not_map st); c_and_map := c_and_map st;
            c_ff_bits := c_ff_bits st;
            topo_nodes := if holes_mode then topo_nodes st else topo_nodes st ++ [n];
            bit_users := if holes_mode then bit_users st else pool_add (bit_users st) a n;
            bit_drivers := if holes_mode then bit_drivers st else pool_add (bit_drivers st) y n;
            abc9_box_seen := abc9_box_seen st; c_flop_boxes := c_flop_boxes st |}
  | CAnd a b y =>
      Ok {| c_not_map := c_not_map st; c_and_map := <[y := (a, b)]> (c_and_map st);
            c_ff_bits := c_ff_bits st;
            topo_nodes := if holes_mode then topo_nodes st else topo_nodes st ++ [n];
            bit_users := if holes_mode then bit_users st
                         else pool_add (pool_add (bit_users st) a n) b n;
            bit_drivers := if holes_mode then bit_drivers st else pool_add (bit_drivers st) y n;
            abc9_box_seen := abc9_box_seen st; c_flop_boxes := c_flop_boxes st |}
  | k =>
      _ <- log_assert (negb holes_mode) ;;
      match k with
      | CFF d q =>
          _ <- log_assert (negb (ff_has (c_ff_bits st) d)) ;;
          Ok (set_ff_bits st (c_ff_bits st ++ [(d, 0)]))
      | CBox bx =>
          st1 <- foldM (box_conn_step n) (bx_conns bx)
                   {| c_not_map := c_not_map st; c_and_map := c_and_map st;
                      c_ff_bits := c_ff_bits st; topo_nodes := topo_nodes st ++ [n];
                      bit_users := bit_users st; bit_drivers := bit_drivers st;
                      abc9_box_seen := true; c_flop_boxes := c_flop_boxes st |} ;;
          Ok {| c_not_map := c_not_map st1; c_and_map := c_and_map st1;
                c_ff_bits := c_ff_bits st1; topo_nodes := topo_nodes st1;
                bit_users := bit_users st1; bit_drivers := bit_drivers st1;
                abc9_box_seen := abc9_box_seen st1;
                c_flop_boxes := if bx_flop bx then c_flop_boxes st1 ++ [bx]
                                else c_flop_boxes st1 |}
      | COther known conns =>
          _ <- foldM (fun (_ : unit) oc => other_conn_check known oc) conns tt ;;
          Ok st
      | _ => Ok st
      end
  end.

(** The first connection whose signal is one bit of [ff_bits] (lines
    354-358), with that bit. *)
Fixpoint find_ff_conn (ff : list (SigBit * Z)) (conns : list box_conn)
  : option (box_conn * SigBit) :=
  match conns with
  | [] => None
  | bc :: rest =>
      match bc_sig bc with
      | [b] => if ff_has ff b then Some (bc, b) else find_ff_conn ff rest
      | _ => find_ff_conn ff rest
      end
  end.

(** [d = cell->getPort(name)] (line 376): [getPort] is [connections_.at]
    (a missing port, or the empty [IdString()], fails), and making a
    [SigBit] of the [SigSpec] needs a one-bit signal. *)
Definition get_port_bit (conns : list box_conn) (name : option nat) : result SigBit :=
  match name with
  | None => Err AtMissing
  | Some p =>
      match List.find (fun bc => Nat.eqb (bc_name bc) p) conns with
      | None => Err AtMissing
      | Some bc => match bc_sig bc with [b] => Ok b | _ => Err AssertFail end
      end
  end.

(** [ff_bits.at(d) = v]. *)
Definition ff_set (d : SigBit) (v : Z) (ff : list (SigBit * Z)) : result (list (SigBit * Z)) :=
  if ff_has ff d
  then Ok (map (fun e => if bool_decide (e.1 = d) then (d, v) else e) ff)
  else Err AtMissing.

(** One flop box (lines 350-384) with [flop_q] (type to the port holding
    D, [None] for [IdString()], and its arrival) and [ff_bits]; [SigBit d]
    starts as [SigBit()], that is [State::S0].  The write to
    [arrival_times] lies outside this state. *)
Definition flop_step (acc : gmap nat (option nat * Z) * list (SigBit * Z)) (bx : box_cell)
  : result (gmap nat (option nat * Z) * list (SigBit * Z)) :=
  let '(fq, ff) := acc in
  r <- match fq !! bx_type bx with
       | Some (pname, _) => d <- get_port_bit (bx_conns bx) pname ;; Ok (fq, d)
       | None =>
           match find_ff_conn ff (bx_conns bx) with
           | None => Ok (<[bx_type bx := (None, 0)]> fq, SBConst S0)
           | Some (bc, d) =>
               p <- match bc_port bc with Some p => Ok p | None => Err AssertFail end ;;
               arr <- match pi_arrival p with
                      | None => Ok 0 | Some (Some v) => Ok v | Some None => Err LogError end ;;
               _ <- log_assert (bool_decide (bc_mapped bc = [d])) ;;
               Ok (<[bx_type bx := (Some (bc_name bc), arr)]> fq, d)
           end
       end ;;
  m <- match bx_merge bx with Some m => Ok m | None => Err AssertFail end ;;
  ff' <- ff_set r.2 m ff ;;
  Ok (r.1, ff').

(** The loop over [flop_boxes] (lines 349-386). *)
Definition flop_pass (st : order_state) : result order_state :=
  r <- foldM flop_step (c_flop_boxes st) (∅, c_ff_bits st) ;;
  Ok (set_ff_bits st r.2).

(** [toposort.edge(driver_cell, user_cell)] for every bit with both users
    and drivers (lines 388-392). *)
Definition topo_edges (st : order_state) : list (nat * nat) :=
  flat_map (fun bu => match bit_drivers st !! bu.1 with
                      | Some ds => flat_map (fun d => map (fun u => (d, u)) bu.2) ds
                      | None => []
                      end) (map_to_list (bit_users st)).

(** The graph of the [TopoSort]; [edge] also adds both ends as nodes. *)
Definition topo_graph (st : order_state) : graph :=
  let es := topo_edges st in
  {| g_nodes := topo_nodes st ++ flat_map (fun e => [e.1; e.2]) es; g_edges := es |}.

(** The cell loop, then, only when a box was seen (line 348), the flop-box
    pass, the edges, the sort and [log_assert(no_loops)] (lines 349-409);
    [sort] stands for [no_loops = toposort.sort()] on the graph. *)
Definition order_phase_with (sort : graph -> bool) (holes_mode : bool) (cells : list cell)
  : result order_state :=
  st <- foldM (classify_cell holes_mode) cells order_state0 ;;
  if abc9_box_seen st then
    st' <- flop_pass st ;;
    _ <- log_assert (sort (topo_graph st')) ;; Ok st'
  else Ok st.

(** The same with the [TopoSort] above. *)
Definition order_phase (holes_mode : bool) (cells : list cell) : result order_state :=
  order_phase_with (fun g => fst (topo_sort g)) holes_mode cells.

(** Two [$_NOT_] cells in a loop: [w0 = ~w1], [w1 = ~w0]. *)
Definition ex_loop_cells : list cell :=
  [ {| cell_name := 0; cell_kind_of := CNot (SBWire 1 0) (SBWire 0 0) |};
    {| cell_name := 1; cell_kind_of := CNot (SBWire 0 0) (SBWire 1 0) |} ].

(** An input port and an output port of a box module, with no arrival
    attribute. *)
Definition ex_in_port : port_info := {| pi_input := true; pi_output := false; pi_arrival := None |}.
Definition ex_out_port : port_info := {| pi_input := false; pi_output := true; pi_arrival := None |}.

(** A box (not a flop) of type [0] whose port [0] reads [w0] and whose
    port [1] drives [w1]. *)
Definition ex_box : box_cell :=
  {| bx_type := 0; bx_flop := false; bx_merge := None;
     bx_conns := [ {| bc_name := 0; bc_port := Some ex_in_port;
                      bc_sig := [SBWire 0 0]; bc_mapped := [SBWire 0 0] |};
                   {| bc_name := 1; bc_port := Some ex_out_port;
                      bc_sig := [SBWire 1 0]; bc_mapped := [SBWire 1 0] |} ] |}.

(** The same loop through a box: box [0] reads [w0] and drives [w1], and a
    [$_NOT_] drives [w0] from [w1]. *)
Definition ex_box_loop_cells : list cell :=
  [ {| cell_name := 0; cell_kind_of := CBox ex_box |};
    {| cell_name := 1; cell_kind_of := CNot (SBWire 1 0) (SBWire 0 0) |} ].

(** The tables of [ex_loop_cells] with no port: only the two inverters. *)
Definition ex_loop_tables : tables :=
  {| input_bits := []; output_bits := [];
     not_map := <[SBWire 1 0 := SBWire 0 0]> (<[SBWire 0 0 := SBWire 1 0]> ∅);
     and_map := ∅; alias_map := ∅; ci_bits := []; co_bits := []; ff_bits := [];
     arrival_times := ∅; init_map := ∅; ff_init_one := []; box_list := [] |}.

(** ** The signal canonicalizer (lines 150-163) *)

(** A wire of the module with what the promotion loops read: its name
    ([IdString], public when it starts with a backslash), width and port
    flags; its bits are [SBWire rw_id i]. *)
Record rtl_wire := {
  rw_id : nat;
  rw_name : string;
  rw_width : nat;
  port_input : bool;
  port_output : bool
}.

Definition is_public (w : rtl_wire) : bool :=
  match rw_name w with
  | String c _ => Ascii.eqb c "\"%char
  | EmptyString => false
  end.

Definition wire_bits (w : rtl_wire) : list SigBit :=
  map (fun i => SBWire (rw_id w) i) (seq 0 (rw_width w)).

(** Modelled from the spec: the [SigMap] of [kernel/sigtools.h].  Each
    bit lies on an electrical node ([node_of]); [SigMap(module)] gives
    each node a representative ([default_rep]), and [add] makes a bit the
    representative of its node unless an earlier [add] already chose one
    for that node. *)
Record sigmap_model := {
  node_of : SigBit -> nat;
  default_rep : nat -> SigBit;
  chosen : gmap nat SigBit
}.

(** Modelled from the spec: [SigMap::add] of one bit. *)
Definition sigmap_add_bit (sm : sigmap_model) (b : SigBit) : sigmap_model :=
  match chosen sm !! node_of sm b with
  | Some _ => sm
  | None => {| node_of := node_of sm; default_rep := default_rep sm;
               chosen := <[node_of sm b := b]> (chosen sm) |}
  end.

(** Modelled from the spec: [sigmap(bit)]. *)
Definition sigmap_apply (sm : sigmap_model) (b : SigBit) : SigBit :=
  match chosen sm !! node_of sm b with
  | Some r => r
  | None => default_rep sm (node_of sm b)
  end.

(** [sigmap.add(wire)]: every bit of the wire in turn. *)
Definition sigmap_add (sm : sigmap_model) (w : rtl_wire) : sigmap_model :=
  fold_left sigmap_add_bit (wire_bits w) sm.

(** Lines 150-163: promote the public wires, then the input wires, then
    the output wires, each loop over [module->wires()]. *)
Definition promote_wires (sm : sigmap_model) (wires : list rtl_wire) : sigmap_model :=
  let sm1 := fold_left (fun sm w => if is_public w then sigmap_add sm w else sm) wires sm in
  let sm2 := fold_left (fun sm w => if port_input w then sigmap_add sm w else sm) wires sm1 in
  fold_left (fun sm w => if port_output w then sigmap_add sm w else sm) wires sm2.

(** The bits the three loops add, in the order they add them. *)
Definition promotion_order (wires : list rtl_wire) : list SigBit :=
  flat_map wire_bits (List.filter is_public wires) ++
  flat_map wire_bits (List.filter port_input wires) ++
  flat_map wire_bits (List.filter port_output wires).

(** An example: [\a] (public), [$in] (input) and [$out] (output), all
    one bit on the same node, with [SigMap(module)] choosing [$out]. *)
Definition ex_wires : list rtl_wire :=
  [ {| rw_id := 2; rw_name := "$out"; rw_width := 1; port_input := false; port_output := true |};
    {| rw_id := 1; rw_name := "$in"; rw_width := 1; port_input := true; port_output := false |};
    {| rw_id := 0; rw_name := "\a"; rw_width := 1; port_input := false; port_output := false |} ].

Definition ex_sigmap0 : sigmap_model :=
  {| node_of := fun _ => 0%nat; default_rep := fun _ => SBWire 2 0; chosen := ∅ |}.

(* ------------------------------------------------------------------ *)
(** ** Cell classes, map lines and options *)

(** The cells the holes module may hold: [$_NOT_] and [$_AND_]. *)
Definition is_gate_cell (c : cell) : bool :=
  match cell_kind_of c with CNot _ _ | CAnd _ _ _ => true | _ => false end.

Definition is_box_cell (c : cell) : bool :=
  match cell_kind_of c with CBox _ => true | _ => false end.

(** The cells that become [TopoSort] nodes outside the holes module. *)
Definition is_ordered_cell (c : cell) : bool := is_gate_cell c || is_box_cell c.

(** The bits of a box connection through [sigmap] when its port is a pure
    input, and when it is a pure output (lines 276-285; an [inout] port
    counts as neither). *)
Definition conn_inputs (bc : box_conn) : list SigBit :=
  match bc_port bc with
  | Some p => if pi_input p && negb (pi_output p) then bc_mapped bc else []
  | None => []
  end.

Definition conn_outputs (bc : box_conn) : list SigBit :=
  match bc_port bc with
  | Some p => if negb (pi_input p) && pi_output p then bc_mapped bc else []
  | None => []
  end.

Definition box_in_bits (bx : box_cell) : list SigBit := flat_map conn_inputs (bx_conns bx).

Definition box_out_bits (bx : box_cell) : list SigBit := flat_map conn_outputs (bx_conns bx).

(** The bits a cell reads and drives for the ordering (lines 221-286). *)
Definition cell_inputs (c : cell) : list SigBit :=
  match cell_kind_of c with
  | CNot a _ => [a] | CAnd a b _ => [a; b] | CBox bx => box_in_bits bx | _ => [] end.

Definition cell_outputs (c : cell) : list SigBit :=
  match cell_kind_of c with
  | CNot _ y => [y] | CAnd _ _ y => [y] | CBox bx => box_out_bits bx | _ => [] end.

(** The literal of [State::S0] is [a0], and every [x] or [z] bit already
    translated has it. *)
Definition xz_inv (a0 : Z) (s : aigstate) : Prop :=
  aig_map s !! SBConst S0 = Some a0 /\
  forall b a, is_x_or_z b = true -> aig_map s !! b = Some a -> a = a0.

(** Whether a map line is a [wire] line. *)
Definition is_wire_line (l : list Z) : bool := starts_with (bytes_of_string "wire ") l.

(** The options [XAigerBackend::execute] reads (lines 1057-1060). *)
Record xaiger_opts := {
  opt_ascii_mode : bool;
  opt_zinit_mode : bool;
  opt_verbose_map : bool;
  opt_map_filename : string
}.

Definition xaiger_opts0 : xaiger_opts :=
  {| opt_ascii_mode := false; opt_zinit_mode := false; opt_verbose_map := false;
     opt_map_filename := "" |}.

(** The option loop of [execute] (lines 1064-1085): [args[argidx]] is
    [nth argidx args ""]; [fuel] bounds the rounds, each of which moves
    [argidx] on. *)
Fixpoint parse_loop (fuel : nat) (args : list string) (argidx : nat) (o : xaiger_opts)
  : xaiger_opts * nat :=
  match fuel with
  | O => (o, argidx)
  | S f =>
      if Nat.ltb argidx (length args) then
        let a := nth argidx args "" in
        if String.eqb a "-ascii" then
          parse_loop f args (S argidx)
            {| opt_ascii_mode := true; opt_zinit_mode := opt_zinit_mode o;
               opt_verbose_map := opt_verbose_map o; opt_map_filename := opt_map_filename o |}
        else if String.eqb a "-zinit" then
          parse_loop f args (S argidx)
            {| opt_ascii_mode := opt_ascii_mode o; opt_zinit_mode := true;
               opt_verbose_map := opt_verbose_map o; opt_map_filename := opt_map_filename o |}
        else if String.eqb (opt_map_filename o) "" && String.eqb a "-map" &&
                Nat.ltb (argidx + 1) (length args) then
          parse_loop f args (argidx + 2)
            {| opt_ascii_mode := opt_ascii_mode o; opt_zinit_mode := opt_zinit_mode o;
               opt_verbose_map := opt_verbose_map o;
               opt_map_filename := nth (argidx + 1) args "" |}
        else if String.eqb (opt_map_filename o) "" && String.eqb a "-vmap" &&
                Nat.ltb (argidx + 1) (length args) then
          parse_loop f args (argidx + 2)
            {| opt_ascii_mode := opt_ascii_mode o; opt_zinit_mode := opt_zinit_mode o;
               opt_verbose_map := true; opt_map_filename := nth (argidx + 1) args "" |}
        else (o, argidx)
      else (o, argidx)
  end.

(** [for (argidx = 1; argidx < args.size(); argidx++)]: the options and
    the index of the first argument left to [extra_args]. *)
Definition parse_args (args : list string) : xaiger_opts * nat :=
  parse_loop (length args) args 1 xaiger_opts0.

(** A state of [bit2aig] on [ex_tables] with the constants and the inputs
    numbered: [w0] is literal 2 and [w1] literal 4. *)
Definition ex_state_in : aigstate :=
  {| aig_m := 2; aig_i := 2; aig_l := 0; aig_o := 0; aig_a := 0;
     aig_gates := []; aig_outputs := [];
     aig_map := <[SBWire 1 0 := 4]> (<[SBWire 0 0 := 2]>
                  (<[SBConst S1 := 1]> (<[SBConst S0 := 0]> ∅)));
     ordered_outputs := ∅ |}.

(** A design whose register output [w0] is also a primary input. *)
Definition ex_dup_tables : tables :=
  {| input_bits := [SBWire 0 0]; output_bits := [];
     not_map := ∅; and_map := ∅; alias_map := ∅; ci_bits := []; co_bits := [];
     ff_bits := [(SBWire 0 0, 1)];
     arrival_times := ∅; init_map := ∅; ff_init_one := []; box_list := [] |}.

(** The options read with a map file already named. *)
Definition ex_opts_map : xaiger_opts :=
  {| opt_ascii_mode := false; opt_zinit_mode := false; opt_verbose_map := false;
     opt_map_filename := "a.map" |}.


(* ================================================================== *)
(** * Proofs *)

(** ** The delta encoding *)

Lemma low_high_split (x : Z) :
  0 <= x -> Z.lor (Z.land x 127) (Z.shiftl (Z.shiftr x 7) 7) = x.
Proof.
  intros Hx. apply Z.bits_inj'. intros n Hn.
  rewrite Z.lor_spec, Z.land_spec, Z.shiftl_spec by lia.
  change 127 with (Z.ones 7). rewrite Z.testbit_ones_nonneg by lia.
  destruct (Z.ltb_spec n 7).
  - rewrite (Z.testbit_neg_r _ (n - 7)) by lia. rewrite andb_true_r, orb_false_r. reflexivity.
  - rewrite Z.shiftr_spec by lia. rewrite Z.sub_add, andb_false_r. reflexivity.
Qed.

Lemma high_bits_zero (x : Z) :
  0 <= x -> (Z.land x (Z.lnot 127) =? 0) = (x <? 128).
Proof.
  intros Hx. change 127 with (Z.ones 7).
  rewrite <- Z.ldiff_land, Z.ldiff_ones_r by lia.
  rewrite Z.shiftr_div_pow2 by lia. change (2 ^ 7) with 128.
  destruct (Z.ltb_spec x 128).
  - rewrite Z.div_small by lia. reflexivity.
  - apply Z.eqb_neq. rewrite Z.shiftl_eq_0_iff by lia.
    pose proof (Z.div_le_lower_bound x 128 1). lia.
Qed.

Lemma testbit7_small (x : Z) : 0 <= x < 128 -> Z.testbit x 7 = false.
Proof.
  intros Hx.
  destruct (Z.eq_dec x 0) as [->|]; [reflexivity|].
  apply Z.bits_above_log2; [lia|].
  apply Z.log2_lt_pow2; [lia|]. change (2 ^ 7) with 128. lia.
Qed.

Lemma land127_small (x : Z) : 0 <= x < 128 -> Z.land x 127 = x.
Proof.
  intros Hx. change 127 with (Z.ones 7). rewrite Z.land_ones by lia.
  apply Z.mod_small. change (2 ^ 7) with 128. lia.
Qed.

Lemma cont_byte_bits (x : Z) :
  Z.testbit (Z.lor (Z.land x 127) 128) 7 = true /\
  Z.land (Z.lor (Z.land x 127) 128) 127 = Z.land x 127.
Proof.
  split.
  - rewrite Z.lor_spec. apply orb_true_r.
  - rewrite Z.land_lor_distr_l, <- Z.land_assoc, Z.land_diag.
    change (Z.land 128 127) with 0. apply Z.lor_0_r.
Qed.

Lemma shiftr7_bound (x : Z) (f : nat) :
  0 <= x < 2 ^ (7 * Z.of_nat (S f)) -> 0 <= Z.shiftr x 7 < 2 ^ (7 * Z.of_nat f).
Proof.
  intros Hx. rewrite Z.shiftr_div_pow2 by lia. split.
  - apply Z.div_pos; lia.
  - apply Z.div_lt_upper_bound; [lia|].
    rewrite <- Z.pow_add_r by lia. rewrite Nat2Z.inj_succ in Hx.
    replace (7 + 7 * Z.of_nat f) with (7 * Z.succ (Z.of_nat f)) by lia. lia.
Qed.

(** One number written by [enc_loop] is read back by [decode_num], and
    the bytes after it are left for the next one. *)
Lemma decode_enc_loop (f : nat) (x : Z) (rest : list Z) :
  0 <= x < 2 ^ (7 * Z.of_nat (S f)) ->
  decode_num (enc_loop f x ++ rest) = Some (x, rest).
Proof.
  revert x. induction f as [|f IH]; intros x Hx.
  - simpl in Hx. cbn [enc_loop app decode_num]. rewrite testbit7_small by lia.
    rewrite land127_small by lia. reflexivity.
  - cbn [enc_loop]. rewrite high_bits_zero by lia.
    destruct (Z.ltb_spec x 128); cbn [negb app decode_num].
    + rewrite testbit7_small, land127_small by lia. reflexivity.
    + destruct (cont_byte_bits x) as [-> ->].
      rewrite IH by (apply shiftr7_bound; exact Hx).
      rewrite low_high_split by lia. reflexivity.
Qed.

Lemma enc_loop_nonempty (f : nat) (x : Z) : enc_loop f x <> [].
Proof.
  destruct f; simpl; [discriminate|].
  destruct (negb _); discriminate.
Qed.

Lemma encode_all_ok (xs : list Z) :
  Forall (fun x => 0 <= x) xs ->
  encode_all xs = Ok (concat (map (enc_loop 5) xs)).
Proof.
  induction 1 as [|x xs Hx _ IH]; [reflexivity|].
  cbn [encode_all map concat]. unfold aiger_encode, log_assert.
  destruct (Z.leb_spec 0 x); [|lia]. cbn [bind]. rewrite IH. reflexivity.
Qed.

Lemma decode_all_fuel_concat (xs : list Z) (fuel : nat) :
  Forall (fun x => 0 <= x < 2 ^ 31) xs ->
  (length (concat (map (enc_loop 5) xs)) <= fuel)%nat ->
  decode_all_fuel fuel (concat (map (enc_loop 5) xs)) = Some xs.
Proof.
  intros Hall. revert fuel. induction Hall as [|x xs Hx _ IH]; intros fuel Hlen.
  - destruct fuel; reflexivity.
  - cbn [map concat] in *. rewrite length_app in Hlen.
    pose proof (enc_loop_nonempty 5 x) as Hne.
    destruct (enc_loop 5 x) as [|b bs] eqn:E; [contradiction|].
    destruct fuel as [|fuel]; [cbn [length] in Hlen; lia|].
    cbn [app decode_all_fuel]. rewrite app_comm_cons, <- E.
    rewrite decode_enc_loop by (rewrite Nat2Z.inj_succ; cbn; lia).
    rewrite IH by (cbn [length] in Hlen; lia). reflexivity.
Qed.

(** ** The builder invariant *)

Lemma lxor1_bound (a m : Z) :
  0 <= a <= 2 * m + 1 -> 0 <= Z.lxor a 1 <= 2 * m + 1.
Proof.
  intros Ha.
  assert (Hs : Z.shiftr (Z.lxor a 1) 1 = Z.shiftr a 1).
  { rewrite Z.shiftr_lxor. change (Z.shiftr 1 1) with 0. apply Z.lxor_0_r. }
  rewrite !Z.shiftr_div_pow2 in Hs by lia. change (2 ^ 1) with 2 in Hs.
  assert (Hn : 0 <= Z.lxor a 1) by (apply Z.lxor_nonneg; lia).
  pose proof (Z.div_mod (Z.lxor a 1) 2 ltac:(lia)).
  pose proof (Z.mod_pos_bound (Z.lxor a 1) 2 ltac:(lia)).
  pose proof (Z.div_le_mono a (2 * m + 1) 2 ltac:(lia) ltac:(lia)).
  replace ((2 * m + 1) / 2) with m in * by
    (rewrite Z.add_comm, Z.mul_comm, Z.div_add by lia; reflexivity).
  lia.
Qed.

Lemma set_aig_map_inv (I : Z) (s : aigstate) (b : SigBit) (a : Z) :
  builder_inv I s -> 0 <= a <= 2 * aig_m s + 1 ->
  builder_inv I (set_aig_map (<[b := a]> (aig_map s)) s).
Proof.
  intros (Hi & Hl & HI & Ha & Hm & Hmap & Hg) Hab.
  refine (conj Hi (conj Hl (conj HI (conj Ha (conj Hm (conj _ Hg)))))).
  cbn. intros b' a'. rewrite lookup_insert.
  case_decide; [intros [= <-]; lia | apply Hmap].
Qed.

Lemma mkgate_inv (I : Z) (s : aigstate) (a0 a1 : Z) :
  builder_inv I s -> 0 <= a0 <= 2 * aig_m s + 1 -> 0 <= a1 <= 2 * aig_m s + 1 ->
  builder_inv I (fst (mkgate s a0 a1)) /\
  snd (mkgate s a0 a1) = 2 * aig_m (fst (mkgate s a0 a1)) /\
  aig_m (fst (mkgate s a0 a1)) = aig_m s + 1.
Proof.
  intros (Hi & Hl & HI & Ha & Hm & Hmap & Hg) H0 H1.
  cbn. split; [|lia]. unfold builder_inv. cbn.
  rewrite length_app. cbn [length].
  do 5 (split; [lia|]). split.
  - intros b a Hb. specialize (Hmap b a Hb). lia.
  - intros k x y Hk. destruct (decide (k < length (aig_gates s))%nat) as [Hlt|Hge].
    + rewrite lookup_app_l in Hk by exact Hlt. apply (Hg k x y Hk).
    + rewrite lookup_app_r in Hk by lia.
      apply list_lookup_singleton_Some in Hk as [Hk0 Hxy].
      assert (k = length (aig_gates s)) by lia. subst k.
      destruct (Z.gtb_spec a0 a1); injection Hxy as <- <-; lia.
Qed.

Lemma bind_Ok {A B} (m : result A) (k : A -> result B) (b : B) :
  bind m k = Ok b -> exists a, m = Ok a /\ k a = Ok b.
Proof. destruct m as [a|e]; cbn; [eauto|discriminate]. Qed.

Lemma Ok_inj {A} (a b : A) : Ok a = Ok b -> a = b.
Proof. intros H. injection H. auto. Qed.

Ltac unbind H := apply bind_Ok in H as [?x [?E H]].

Lemma log_assert_Ok (b : bool) (u : unit) : log_assert b = Ok u -> b = true.
Proof. destruct b; cbn; [reflexivity|discriminate]. Qed.

Lemma bit2aig_finish_inv (I : Z) (bit : SigBit) (s s' : aigstate) (a a' : Z) :
  builder_inv I s -> a <= 2 * aig_m s + 1 ->
  bit2aig_finish bit s a = Ok (s', a') ->
  builder_inv I s' /\ 0 <= a' <= 2 * aig_m s' + 1 /\ aig_m s' = aig_m s.
Proof.
  intros Hinv Ha H. unfold bit2aig_finish in H.
  unbind H. unbind H. injection H as <- <-.
  apply log_assert_Ok, Z.leb_le in E0.
  assert (x <= 2 * aig_m s + 1).
  { destruct (is_x_or_z bit).
    - unfold at_ in E. destruct (aig_map s !! SBConst S0) eqn:E1; [|discriminate].
      injection E as <-. destruct Hinv as (_&_&_&_&_&Hmap&_). apply (Hmap _ _ E1).
    - injection E as <-. exact Ha. }
  split; [apply set_aig_map_inv; [exact Hinv| lia]|].
  cbn. lia.
Qed.

Lemma bit2aig_inv (T : tables) (I : Z) (d : nat) :
  forall (s : aigstate) (b : SigBit) (s' : aigstate) (a : Z),
  builder_inv I s -> bit2aig d T s b = Ok (s', a) ->
  builder_inv I s' /\ 0 <= a <= 2 * aig_m s' + 1 /\ aig_m s <= aig_m s'.
Proof.
  induction d as [|d IH]; intros s b s' a Hinv H; cbn [bit2aig] in H;
    destruct (aig_map s !! b) as [a0|] eqn:Hb;
    try discriminate;
    try (unbind H; cbn beta in H; injection H as <- <-;
         pose proof Hinv as (_&_&_&_&_&Hmap&_);
         specialize (Hmap _ _ Hb); split; [exact Hinv|lia]).
  unbind H. destruct x as [s1 a1]. cbn [fst snd] in H.
  destruct (not_map T !! b) as [nb|].
  - unbind E. injection E as <- <-. destruct x as [s0 a0]. cbn [fst snd] in *.
    destruct (IH _ _ _ _ Hinv E0) as (Hinv0 & Ha0 & Hm0).
    assert (Hx : Z.lxor a0 1 <= 2 * aig_m s0 + 1)
      by (pose proof (lxor1_bound a0 (aig_m s0) Ha0); lia).
    destruct (bit2aig_finish_inv _ _ _ _ _ _ Hinv0 Hx H) as (? & ? & ?).
    refine (conj _ (conj _ _)); [assumption|lia|lia].
  - destruct (and_map T !! b) as [[x y]|].
    + unbind E. unbind E. destruct x0 as [s0 a0], x1 as [s2 a2]. cbn [fst snd] in *.
      destruct (IH _ _ _ _ Hinv E0) as (Hinv0 & Ha0 & Hm0).
      destruct (IH _ _ _ _ Hinv0 E1) as (Hinv2 & Ha2 & Hm2).
      apply Ok_inj in E as Em.
      destruct (mkgate_inv I s2 a0 a2 Hinv2 ltac:(lia) ltac:(lia)) as (Hg1 & Hg2 & Hg3).
      rewrite Em in Hg1, Hg2, Hg3. cbn [fst snd] in Hg1, Hg2, Hg3.
      assert (Hx : a1 <= 2 * aig_m s1 + 1) by lia.
      destruct (bit2aig_finish_inv _ _ _ _ _ _ Hg1 Hx H) as (? & ? & ?).
      refine (conj _ (conj _ _)); [assumption|lia|lia].
    + destruct (alias_map T !! b) as [ab|].
      * destruct (IH _ _ _ _ Hinv E) as (Hinv1 & Ha1 & Hm1).
        assert (Hx : a1 <= 2 * aig_m s1 + 1) by lia.
        destruct (bit2aig_finish_inv _ _ _ _ _ _ Hinv1 Hx H) as (? & ? & ?).
        refine (conj _ (conj _ _)); [assumption|lia|lia].
      * injection E as <- <-.
        assert (Hx : -1 <= 2 * aig_m s + 1)
          by (destruct Hinv as (_&_&HI&Ha&Hm&_); lia).
        destruct (bit2aig_finish_inv _ _ _ _ _ _ Hinv Hx H) as (? & ? & ?).
        refine (conj _ (conj _ _)); [assumption|lia|lia].
Qed.

(** [bit2aig] only touches [aig_m], [aig_a], [aig_gates] and [aig_map]. *)
Lemma bit2aig_frame (T : tables) (d : nat) :
  forall (s : aigstate) (b : SigBit) (s' : aigstate) (a : Z),
  bit2aig d T s b = Ok (s', a) ->
  aig_i s' = aig_i s /\ aig_l s' = aig_l s /\ aig_o s' = aig_o s /\
  aig_outputs s' = aig_outputs s /\ ordered_outputs s' = ordered_outputs s.
Proof.
  assert (Hfin : forall bit s0 a0 s' a,
             bit2aig_finish bit s0 a0 = Ok (s', a) ->
             aig_i s' = aig_i s0 /\ aig_l s' = aig_l s0 /\ aig_o s' = aig_o s0 /\
             aig_outputs s' = aig_outputs s0 /\ ordered_outputs s' = ordered_outputs s0).
  { intros bit s0 a0 s' a H. unfold bit2aig_finish in H.
    unbind H. unbind H. injection H as <- <-. cbn. tauto. }
  induction d as [|d IH]; intros s b s' a H; cbn [bit2aig] in H;
    destruct (aig_map s !! b) as [a0|] eqn:Hb; try discriminate;
    try (unbind H; cbn beta in H; injection H as <- <-; tauto).
  unbind H. destruct x as [s1 a1]. cbn [fst snd] in H.
  apply Hfin in H. destruct (not_map T !! b) as [nb|].
  - unbind E. injection E as <- <-. destruct x as [s0 a0]. cbn [fst snd] in *.
    apply IH in E0. intuition congruence.
  - destruct (and_map T !! b) as [[x y]|].
    + unbind E. unbind E. destruct x0 as [s0 a0], x1 as [s2 a2]. cbn [fst snd] in *.
      apply IH in E0. apply IH in E1. apply Ok_inj in E. unfold mkgate in E.
      injection E as <- _. cbn in H. intuition congruence.
    + destruct (alias_map T !! b) as [ab|].
      * apply IH in E. intuition congruence.
      * injection E as <- <-. exact H.
Qed.

Lemma alloc_builder_inv (s : aigstate) : alloc_inv s -> builder_inv (aig_i s) s.
Proof.
  intros (Ha & Hg & Hl & Hm & HI & _ & _ & Hmap).
  unfold builder_inv. rewrite Hg. cbn [length].
  do 5 (split; [lia|]). split; [exact Hmap|].
  intros k x y Hk. rewrite lookup_nil in Hk. discriminate.
Qed.

Lemma alloc_inv_step (s : aigstate) (bit : SigBit) :
  alloc_inv s ->
  alloc_inv (set_aig_map (<[bit := 2 * aig_m (bump_input s)]> (aig_map (bump_input s)))
               (bump_input s)) /\ alloc_inv (bump_input s).
Proof.
  intros (Ha & Hg & Hl & Hm & HI & Ho & Hos & Hmap).
  split; unfold alloc_inv; cbn; do 7 (split; [lia || assumption|]).
  - intros b a. rewrite lookup_insert. case_decide.
    + intros [= <-]. lia.
    + intros Hb. specialize (Hmap b a Hb). lia.
  - intros b a Hb. specialize (Hmap b a Hb). lia.
Qed.

Lemma alloc_pis_inv (bits : list SigBit) :
  forall s s', alloc_inv s -> alloc_pis bits s = Ok s' -> alloc_inv s'.
Proof.
  induction bits as [|bit rest IH]; intros s s' Hs H; cbn in H.
  - injection H as <-. exact Hs.
  - unbind H. apply (IH _ _ (proj1 (alloc_inv_step s bit Hs)) H).
Qed.

Lemma alloc_cis_inv (bits : list SigBit) :
  forall s ffm, alloc_inv s -> alloc_inv (fst (alloc_cis bits s ffm)).
Proof.
  induction bits as [|bit rest IH]; intros s ffm Hs; cbn [alloc_cis].
  - exact Hs.
  - destruct (aig_map (bump_input s) !! bit);
      apply IH; apply (alloc_inv_step s bit Hs).
Qed.

Lemma count_append_inv (I : Z) (s : aigstate) (oo : gmap SigBit Z) (a : Z) :
  builder_inv I s -> builder_inv I (append_output a (count_output oo s)).
Proof. intros H. exact H. Qed.

Lemma emit_bits_inv (d : nat) (T : tables) (I : Z) (bits : list SigBit) :
  forall s s', builder_inv I s -> emit_bits d T bits s = Ok s' ->
  builder_inv I s' /\
  aig_o s' = aig_o s + Z.of_nat (length bits) /\
  length (aig_outputs s') = (length (aig_outputs s) + length bits)%nat.
Proof.
  induction bits as [|bit rest IH]; intros s s' Hs H; cbn in H.
  - injection H as <-. cbn. split; [exact Hs|lia].
  - unbind H. destruct x as [s1 a1]. cbn [fst snd] in H.
    pose proof (bit2aig_frame _ _ _ _ _ _ E) as (Hi & Hl & Ho & Hos & Hoo).
    assert (Hc : builder_inv I (count_output (<[bit:=aig_o s]> (ordered_outputs s)) s))
      by exact Hs.
    pose proof (bit2aig_inv _ _ _ _ _ _ _ Hc E) as (Hs1 & _ & _).
    apply IH in H as (Hs' & Ho' & Hl'); [|exact Hs1].
    cbn in Ho, Hos, Ho', Hl'. rewrite length_app, Hos in Hl'. cbn [length] in *.
    split; [exact Hs'|]. split; lia.
Qed.

Lemma emit_ffs_inv (ffm : gmap SigBit Z) (I : Z) (ffs : list (SigBit * Z)) :
  forall s s', builder_inv I s -> emit_ffs ffm ffs s = Ok s' ->
  builder_inv I s' /\
  aig_o s' = aig_o s + Z.of_nat (length ffs) /\
  length (aig_outputs s') = (length (aig_outputs s) + length ffs)%nat.
Proof.
  induction ffs as [|[bit c] rest IH]; intros s s' Hs H; cbn in H.
  - injection H as <-. cbn. split; [exact Hs|lia].
  - unbind H. apply IH in H as (Hs' & Ho' & Hl'); [|exact Hs].
    cbn in Ho', Hl'. rewrite length_app in Hl'. cbn [length] in *.
    split; [exact Hs'|]. split; lia.
Qed.

(** The writer after its constructor satisfies the builder invariant, and
    every output slot counted in [aig_o] holds one literal: box inputs,
    primary outputs (with the dummy when there are none), registers. *)
Lemma construct_inv (d : nat) (z : bool) (T : tables) (w : writer) :
  construct d z T = Ok w ->
  builder_inv (aig_i (wstate w)) (wstate w) /\
  aig_o (wstate w) = Z.of_nat (length (aig_outputs (wstate w))) /\
  length (aig_outputs (wstate w)) =
    (length (co_bits T) + length (output_bits (wtables w)) + length (ff_bits T))%nat /\
  output_bits (wtables w) <> [] /\
  co_bits (wtables w) = co_bits T /\ ff_bits (wtables w) = ff_bits T /\
  input_bits (wtables w) = input_bits T /\ ci_bits (wtables w) = ci_bits T.
Proof.
  intros H. unfold construct in H.
  unbind H. unbind H.
  assert (A0 : alloc_inv (set_aig_map (<[SBConst S1 := 1]> (<[SBConst S0 := 0]> ∅)) aigstate0)).
  { unfold alloc_inv. cbn. do 7 (split; [lia || reflexivity|]).
    intros b a. rewrite !lookup_insert, lookup_empty.
    repeat case_decide; intros Hb; try discriminate; injection Hb as <-; lia. }
  pose proof (alloc_pis_inv _ _ _ A0 E) as A1.
  pose proof (alloc_pis_inv _ _ _ A1 E0) as A2.
  destruct (alloc_cis (ci_bits T) x0 ∅) as [s3 ffm] eqn:E3.
  pose proof (alloc_cis_inv (ci_bits T) x0 ∅ A2) as A3. rewrite E3 in A3. cbn [fst] in A3.
  pose proof (alloc_builder_inv _ A3) as B3.
  unbind H.
  destruct (emit_bits_inv _ _ _ _ _ _ B3 E1) as (B4 & O4 & L4).
  destruct (output_bits T) as [|ob0 obs] eqn:Eob.
  - unbind H. unbind H.
    destruct (emit_bits_inv _ _ _ _ _ _ B4 E2) as (B5 & O5 & L5).
    destruct (emit_ffs_inv _ _ _ _ _ B5 E4) as (B6 & O6 & L6).
    injection H as <-. cbn - [length].
    destruct A3 as (_ & _ & _ & _ & _ & Ho3 & Hos3 & _).
    rewrite Hos3 in L4. cbn [length] in *.
    assert (Hi : aig_i x3 = aig_i s3).
    { destruct B6 as (Hi6 & _). exact Hi6. }
    unfold set_output_bits in *.
    cbn [ff_bits co_bits input_bits ci_bits output_bits wstate wtables] in *.
    rewrite Hi. split; [exact B6|]. repeat split; try lia; discriminate.
  - unbind H. unbind H.
    destruct (emit_bits_inv _ _ _ _ _ _ B4 E2) as (B5 & O5 & L5).
    destruct (emit_ffs_inv _ _ _ _ _ B5 E4) as (B6 & O6 & L6).
    injection H as <-. cbn - [length].
    destruct A3 as (_ & _ & _ & _ & _ & Ho3 & Hos3 & _).
    rewrite Hos3 in L4. cbn [length] in *.
    assert (Hi : aig_i x3 = aig_i s3).
    { destruct B6 as (Hi6 & _). exact Hi6. }
    unfold set_output_bits in *.
    cbn [ff_bits co_bits input_bits ci_bits output_bits wstate wtables] in *.
    rewrite Hi. split; [exact B6|]. repeat split; try lia; discriminate.
Qed.

(** ** The output section of [write_aiger] *)

Lemma vat_of_nat {A} (l : list A) (k : nat) : vat l (0 + Z.of_nat k) =
  match l !! k with Some a => Ok a | None => Err AtMissing end.
Proof.
  unfold vat. destruct (Z.ltb_spec (0 + Z.of_nat k) 0); [lia|].
  rewrite Z.add_0_l, Nat2Z.id. reflexivity.
Qed.

Lemma output_lines_from (s : aigstate) (l : list Z) :
  forall k, drop k (aig_outputs s) = l ->
  mapM (output_line s) (map (fun j => 0 + Z.of_nat j) (seq k (length l))) =
  Ok (map (fun a => decimal a ++ newline) l).
Proof.
  induction l as [|a l IH]; intros k Hd; [reflexivity|].
  cbn [length seq map mapM]. unfold output_line at 1.
  rewrite vat_of_nat.
  assert (Hk : aig_outputs s !! k = Some a).
  { pose proof (lookup_drop (aig_outputs s) k 0) as L.
    rewrite Hd, Nat.add_0_r in L. rewrite <- L. reflexivity. }
  rewrite Hk. cbn [bind].
  rewrite (IH (S k)); [reflexivity|].
  replace (S k) with (k + 1)%nat by lia. rewrite <- drop_drop, Hd. reflexivity.
Qed.

Lemma output_lines_ok (s : aigstate) :
  aig_o s = Z.of_nat (length (aig_outputs s)) ->
  mapM (output_line s) (zrange 0 (aig_o s)) =
  Ok (map (fun a => decimal a ++ newline) (aig_outputs s)).
Proof.
  intros Ho. unfold zrange. rewrite Ho, Z.sub_0_r, Nat2Z.id.
  apply output_lines_from. apply drop_0.
Qed.

Lemma zrange_empty (a : Z) : zrange a a = [].
Proof. unfold zrange. rewrite Z.sub_diag. reflexivity. Qed.

(** When [aig_o] counts the output literals, the body holds exactly one
    line per output literal, in order, after the input lines (ASCII) or
    at the start (binary), followed by the gates. *)
Lemma write_body_outputs (s : aigstate) (ascii_mode : bool) (body : list Z) :
  aig_o s = Z.of_nat (length (aig_outputs s)) ->
  write_body s ascii_mode = Ok body ->
  exists pre gs,
    body = pre ++ concat (map (fun a => decimal a ++ newline) (aig_outputs s)) ++ gs /\
    (ascii_mode = false -> pre = []).
Proof.
  intros Ho H. unfold write_body in H. rewrite !zrange_empty in H.
  rewrite output_lines_ok in H by exact Ho.
  destruct ascii_mode; cbn [mapM bind] in H.
  - unbind H. unbind H. injection H as <-.
    exists (concat x), (concat x0). split; [reflexivity|discriminate].
  - unbind H. injection H as <-.
    exists [], (concat x). split; reflexivity.
Qed.

(** ** C1 *)

(** C1: every non-negative [int] sequence written with [aiger_encode] is
    read back unchanged by the 7-bit little-group decoder; and for every
    gate of a constructed writer, [delta0 = lhs - rhs0] is positive (the
    new gate literal is above both operands) and [delta1 = rhs0 - rhs1] is
    non-negative (larger operand first). *)
Theorem delta_encoding_roundtrip :
  (forall xs : list Z, Forall (fun x => 0 <= x < 2 ^ 31) xs ->
     exists bs, encode_all xs = Ok bs /\ decode_all bs = Some xs) /\
  (forall (d : nat) (z : bool) (T : tables) (w : writer),
     construct d z T = Ok w ->
     forall (i : nat) (rhs0 rhs1 : Z), aig_gates (wstate w) !! i = Some (rhs0, rhs1) ->
     let lhs := 2 * (aig_i (wstate w) + aig_l (wstate w) + Z.of_nat i) + 2 in
     0 < lhs - rhs0 /\ 0 <= rhs0 - rhs1 /\ 0 <= rhs1).
Proof.
  split.
  - intros xs Hxs. exists (concat (map (enc_loop 5) xs)). split.
    + apply encode_all_ok. apply (List.Forall_impl (P := fun x => 0 <= x < 2 ^ 31)); [|exact Hxs].
      intros x Hx. lia.
    + apply decode_all_fuel_concat; [exact Hxs|lia].
  - intros d z T w Hw i rhs0 rhs1 Hg lhs.
    destruct (construct_inv _ _ _ _ Hw) as ((_ & Hl & _ & _ & _ & _ & Hgates) & _).
    destruct (Hgates i rhs0 rhs1 Hg). subst lhs. lia.
Qed.

(** ** C2 *)

(** C2: after the constructor, [M = I + L + A] with [L = 0], the output
    section written by [write_aiger] has one literal line per entry of
    [aig_outputs], and [aig_o] is that number, which is the number of box
    input bits plus primary output bits plus registers ([coNum] of [h]). *)
Theorem header_consistency (d : nat) (z : bool) (T : tables) (w : writer) :
  construct d z T = Ok w ->
  let s := wstate w in
  aig_m s = aig_i s + aig_l s + aig_a s /\ aig_l s = 0 /\
  aig_o s = Z.of_nat (length (aig_outputs s)) /\
  aig_o s = Z.of_nat (length (co_bits T)) + Z.of_nat (length (output_bits (wtables w)))
            + Z.of_nat (length (ff_bits T)) /\
  (forall (ascii_mode : bool) (body : list Z), write_body s ascii_mode = Ok body ->
     exists pre gs,
       body = pre ++ concat (map (fun a => decimal a ++ newline) (aig_outputs s)) ++ gs /\
       (ascii_mode = false -> pre = [])).
Proof.
  intros Hw s. subst s.
  destruct (construct_inv _ _ _ _ Hw)
    as ((Hi & Hl & _ & Ha & Hm & _ & _) & Ho & Hlen & _).
  split; [lia|]. split; [exact Hl|]. split; [exact Ho|]. split; [lia|].
  intros ascii_mode body Hb. exact (write_body_outputs _ _ _ Ho Hb).
Qed.

(** ** Memoization *)

Definition map_incl (m1 m2 : gmap SigBit Z) : Prop :=
  forall x v, m1 !! x = Some v -> m2 !! x = Some v.

Lemma map_incl_refl (m : gmap SigBit Z) : map_incl m m.
Proof. intros x v H. exact H. Qed.

Lemma map_incl_trans (m1 m2 m3 : gmap SigBit Z) :
  map_incl m1 m2 -> map_incl m2 m3 -> map_incl m1 m3.
Proof. intros H1 H2 x v H. apply H2, H1, H. Qed.

Lemma map_incl_insert_fresh (m : gmap SigBit Z) (b : SigBit) (a : Z) :
  m !! b = None -> map_incl m (<[b := a]> m).
Proof.
  intros Hb x v Hx. rewrite lookup_insert. case_decide; [subst; congruence|exact Hx].
Qed.

Lemma bit2aig_finish_memo (bit : SigBit) (s0 s s' : aigstate) (a a' : Z) :
  aig_map s0 !! bit = None -> map_incl (aig_map s0) (aig_map s) ->
  bit2aig_finish bit s a = Ok (s', a') ->
  aig_map s' !! bit = Some a' /\ 0 <= a' /\ map_incl (aig_map s0) (aig_map s').
Proof.
  intros Hb Hi H. unfold bit2aig_finish in H. unbind H. unbind H.
  injection H as <- <-. apply log_assert_Ok, Z.leb_le in E0. cbn.
  split; [apply lookup_insert_eq|]. split; [lia|].
  intros y v Hy. rewrite lookup_insert. case_decide; [subst; congruence|].
  apply Hi, Hy.
Qed.

(** [bit2aig] leaves its result in the memo table and never changes an
    entry that was there before. *)
Lemma bit2aig_memo (T : tables) (d : nat) :
  forall (s : aigstate) (b : SigBit) (s' : aigstate) (a : Z),
  bit2aig d T s b = Ok (s', a) ->
  aig_map s' !! b = Some a /\ 0 <= a /\ map_incl (aig_map s) (aig_map s').
Proof.
  induction d as [|d IH]; intros s b s' a H; cbn [bit2aig] in H;
    destruct (aig_map s !! b) as [a0|] eqn:Hb; try discriminate;
    try (unbind H; apply log_assert_Ok, Z.leb_le in E; cbn beta in H;
         injection H as <- <-; split; [exact Hb|split; [lia|apply map_incl_refl]]).
  unbind H. destruct x as [s1 a1]. cbn [fst snd] in H.
  apply (bit2aig_finish_memo b s s1 s' a1 a Hb); [|exact H].
  destruct (not_map T !! b) as [nb|].
  { unbind E. injection E as <- <-. destruct x as [s0 a0]. cbn [fst snd] in *.
    apply IH in E0 as (_ & _ & Hi0). exact Hi0. }
  destruct (and_map T !! b) as [[x y]|].
  { unbind E. unbind E. destruct x0 as [s0 a0], x1 as [s2 a2]. cbn [fst snd] in *.
    apply Ok_inj in E. injection E as E _.
    apply IH in E0 as (_ & _ & Hi0). apply IH in E1 as (_ & _ & Hi2).
    subst s1. cbn. eapply map_incl_trans; eassumption. }
  destruct (alias_map T !! b) as [ab|].
  { apply IH in E as (_ & _ & Hi0). exact Hi0. }
  injection E as <- <-. apply map_incl_refl.
Qed.

Lemma bit2aig_finish_not_depth (bit : SigBit) (s : aigstate) (a : Z) :
  bit2aig_finish bit s a <> Err RecursionDepth.
Proof.
  unfold bit2aig_finish. destruct (is_x_or_z bit); [unfold at_; destruct (_ !! _)|];
    cbn; try destruct (0 <=? _); cbn; discriminate.
Qed.

Lemma bit2aig_no_depth_error (T : tables) (rank : SigBit -> nat) :
  ranked T rank ->
  forall d s b, (rank b < d)%nat -> bit2aig d T s b <> Err RecursionDepth.
Proof.
  intros [Hn [Ha Hal]]. induction d as [|d IH]; intros s b Hd; [lia|].
  cbn [bit2aig]. destruct (aig_map s !! b).
  { cbn. destruct (0 <=? z); cbn; discriminate. }
  destruct (not_map T !! b) as [nb|] eqn:En.
  { specialize (Hn _ _ En). destruct (bit2aig d T s nb) as [[s0 a0]|e] eqn:E0; cbn.
    - apply bit2aig_finish_not_depth.
    - intros Heq. injection Heq as ->. exact (IH s nb ltac:(lia) E0). }
  destruct (and_map T !! b) as [[x y]|] eqn:Ea.
  { destruct (Ha _ _ _ Ea) as [Hx Hy].
    destruct (bit2aig d T s x) as [[s0 a0]|e] eqn:E0; cbn.
    - destruct (bit2aig d T s0 y) as [[s2 a2]|e] eqn:E2; cbn.
      + apply bit2aig_finish_not_depth.
      + intros Heq. injection Heq as ->. exact (IH s0 y ltac:(lia) E2).
    - intros Heq. injection Heq as ->. exact (IH s x ltac:(lia) E0). }
  destruct (alias_map T !! b) as [ab|] eqn:Eal.
  { specialize (Hal _ _ Eal). destruct (bit2aig d T s ab) as [[s0 a0]|e] eqn:E0; cbn.
    - apply bit2aig_finish_not_depth.
    - intros Heq. injection Heq as ->. exact (IH s ab ltac:(lia) E0). }
  cbn. apply bit2aig_finish_not_depth.
Qed.

Lemma ranked_b_sound (T : tables) (rank : SigBit -> nat) :
  ranked_b T rank = true -> ranked T rank.
Proof.
  unfold ranked_b. intros H. apply andb_prop in H as [H H3].
  apply andb_prop in H as [H1 H2].
  rewrite List.forallb_forall in H1, H2, H3. split; [|split].
  - intros b nb Hb. apply elem_of_map_to_list in Hb.
    apply list_elem_of_In in Hb. apply H1 in Hb. apply Nat.ltb_lt, Hb.
  - intros b x y Hb. apply elem_of_map_to_list in Hb.
    apply list_elem_of_In in Hb. apply H2 in Hb. cbn in Hb.
    apply andb_prop in Hb as [Hx Hy]. apply Nat.ltb_lt in Hx, Hy. lia.
  - intros b ab Hb. apply elem_of_map_to_list in Hb.
    apply list_elem_of_In in Hb. apply H3 in Hb. apply Nat.ltb_lt, Hb.
Qed.

(** C9: if the [not]/[and]/[alias] relations are acyclic (a rank function
    decreases along each of them), [bit2aig] called with a stack deeper
    than the rank of the bit never runs out of stack: it returns a literal
    or stops at an assertion.  On success the literal is left in the memo
    table, no earlier memo entry is changed, and every later call for the
    same bit, in any later state and at any depth, returns the same literal
    at once without touching the state. *)
Theorem bit2aig_terminates_memoized (T : tables) (rank : SigBit -> nat)
    (d : nat) (s : aigstate) (b : SigBit) :
  ranked T rank -> (rank b < d)%nat ->
  bit2aig d T s b <> Err RecursionDepth /\
  forall s' a, bit2aig d T s b = Ok (s', a) ->
    aig_map s' !! b = Some a /\ map_incl (aig_map s) (aig_map s') /\
    forall d' s'', map_incl (aig_map s') (aig_map s'') ->
      bit2aig d' T s'' b = Ok (s'', a).
Proof.
  intros Hr Hd. split; [exact (bit2aig_no_depth_error T rank Hr d s b Hd)|].
  intros s' a H. apply bit2aig_memo in H as (Hb & Ha & Hi).
  split; [exact Hb|]. split; [exact Hi|].
  intros d' s'' Hi'. apply Hi' in Hb.
  destruct d'; cbn [bit2aig]; rewrite Hb; cbn;
    replace (0 <=? a) with true by (symmetry; apply Z.leb_le; lia); reflexivity.
Qed.

Lemma bit2aig_terminates_memoized_witness :
  ranked ex_tables ex_rank /\ (ex_rank (SBWire 3 0) < 4)%nat /\
  bit2aig 4 ex_tables ex_state_in (SBWire 3 0) <> Err RecursionDepth /\
  exists s' a, bit2aig 4 ex_tables ex_state_in (SBWire 3 0) = Ok (s', a) /\
    aig_map s' !! SBWire 3 0 = Some a /\ map_incl (aig_map ex_state_in) (aig_map s') /\
    forall d' s'', map_incl (aig_map s') (aig_map s'') ->
      bit2aig d' ex_tables s'' (SBWire 3 0) = Ok (s'', a).
Proof.
  assert (Hr : ranked ex_tables ex_rank) by (apply ranked_b_sound; vm_compute; reflexivity).
  assert (Hd : (ex_rank (SBWire 3 0) < 4)%nat) by (cbn; lia).
  pose proof (bit2aig_terminates_memoized ex_tables ex_rank 4 ex_state_in (SBWire 3 0) Hr Hd)
    as [Hn Hm].
  split; [exact Hr|]. split; [exact Hd|]. split; [exact Hn|].
  destruct (bit2aig 4 ex_tables ex_state_in (SBWire 3 0)) as [[s' a]|e] eqn:E;
    [|vm_compute in E; discriminate].
  exists s', a. split; [reflexivity|]. exact (Hm s' a eq_refl).
Defined.

Lemma delta_encoding_roundtrip_witness :
  (Forall (fun x => 0 <= x < 2 ^ 31) [0; 127; 128; 300] /\
   exists bs, encode_all [0; 127; 128; 300] = Ok bs /\
              decode_all bs = Some [0; 127; 128; 300]) /\
  (construct 10 false ex_tables = Ok ex_writer /\
   aig_gates (wstate ex_writer) !! 0%nat = Some (4, 3) /\
   let lhs := 2 * (aig_i (wstate ex_writer) + aig_l (wstate ex_writer) + Z.of_nat 0) + 2 in
   0 < lhs - 4 /\ 0 <= 4 - 3 /\ 0 <= 3).
Proof.
  assert (Hf : Forall (fun x => 0 <= x < 2 ^ 31) [0; 127; 128; 300])
    by (repeat constructor; lia).
  assert (Hw : construct 10 false ex_tables = Ok ex_writer) by (vm_compute; reflexivity).
  assert (Hg : aig_gates (wstate ex_writer) !! 0%nat = Some (4, 3)) by (vm_compute; reflexivity).
  exact (conj (conj Hf (proj1 delta_encoding_roundtrip _ Hf))
              (conj Hw (conj Hg (proj2 delta_encoding_roundtrip 10%nat false ex_tables
                                   ex_writer Hw 0%nat 4 3 Hg)))).
Defined.

Lemma header_consistency_witness :
  construct 10 false ex_tables = Ok ex_writer /\
  let s := wstate ex_writer in
  aig_m s = aig_i s + aig_l s + aig_a s /\ aig_l s = 0 /\
  aig_o s = Z.of_nat (length (aig_outputs s)) /\
  aig_o s = Z.of_nat (length (co_bits ex_tables))
            + Z.of_nat (length (output_bits (wtables ex_writer)))
            + Z.of_nat (length (ff_bits ex_tables)) /\
  (forall (ascii_mode : bool) (body : list Z), write_body s ascii_mode = Ok body ->
     exists pre gs,
       body = pre ++ concat (map (fun a => decimal a ++ newline) (aig_outputs s)) ++ gs /\
       (ascii_mode = false -> pre = [])).
Proof.
  assert (Hw : construct 10 false ex_tables = Ok ex_writer) by (vm_compute; reflexivity).
  exact (conj Hw (header_consistency 10%nat false ex_tables ex_writer Hw)).
Defined.

(** ** The output list *)

Lemma alloc_pis_facts (bits : list SigBit) :
  forall s s', alloc_pis bits s = Ok s' ->
  aig_m s' = aig_m s + Z.of_nat (length bits) /\ map_incl (aig_map s) (aig_map s').
Proof.
  induction bits as [|bit rest IH]; intros s s' H; cbn in H.
  - injection H as <-. split; [cbn [length]; lia|apply map_incl_refl].
  - unbind H. apply log_assert_Ok in E.
    destruct (aig_map s !! bit) eqn:Hb; [discriminate|].
    apply IH in H as [Hm Hi]. cbn in Hm. split; [cbn [length]; lia|].
    eapply map_incl_trans; [|exact Hi]. cbn. apply map_incl_insert_fresh, Hb.
Qed.

Lemma alloc_cis_facts (bits : list SigBit) :
  forall s ffm, alloc_inv s ->
  aig_m (fst (alloc_cis bits s ffm)) = aig_m s + Z.of_nat (length bits) /\
  map_incl (aig_map s) (aig_map (fst (alloc_cis bits s ffm))) /\
  forall D a, snd (alloc_cis bits s ffm) !! D = Some a ->
    ffm !! D = Some a \/
    exists j v, bits !! j = Some D /\ a = 2 * (aig_m s + Z.of_nat j + 1) /\
                aig_map (fst (alloc_cis bits s ffm)) !! D = Some v /\ v < a.
Proof.
  induction bits as [|bit rest IH]; intros s ffm Hs; cbn [alloc_cis].
  - cbn [fst snd length]. split; [lia|]. split; [apply map_incl_refl|]. auto.
  - destruct (alloc_inv_step s bit Hs) as [Hs2 Hs1].
    destruct (aig_map (bump_input s) !! bit) as [v0|] eqn:Hb.
    + destruct (IH _ (<[bit := 2 * aig_m (bump_input s)]> ffm) Hs1) as (Hm & Hi & Hf).
      cbn [aig_m bump_input] in *. split; [cbn [length]; lia|]. split; [exact Hi|].
      intros D a Ha. apply Hf in Ha as [Ha|(j & v & Hj & -> & Hv & Hlt)].
      * rewrite lookup_insert in Ha. case_decide as HD; [|left; exact Ha].
        subst D. injection Ha as <-. right. exists 0%nat, v0.
        destruct Hs as (_ & _ & _ & _ & _ & _ & _ & Hmap).
        pose proof (Hmap _ _ Hb). split; [reflexivity|]. split; [lia|].
        split; [apply Hi, Hb|lia].
      * right. exists (S j), v. split; [exact Hj|]. split; [lia|]. auto.
    + destruct (IH _ ffm Hs2) as (Hm & Hi & Hf).
      cbn [aig_m bump_input set_aig_map] in *. split; [cbn [length]; lia|].
      split; [eapply map_incl_trans; [apply map_incl_insert_fresh, Hb|exact Hi]|].
      intros D a Ha. apply Hf in Ha as [Ha|(j & v & Hj & -> & Hv & Hlt)]; [left; exact Ha|].
      right. exists (S j), v. split; [exact Hj|]. split; [lia|]. auto.
Qed.

Lemma emit_bits_facts (d : nat) (T : tables) (bits : list SigBit) :
  forall s s', emit_bits d T bits s = Ok s' ->
  exists l, aig_outputs s' = aig_outputs s ++ l /\
    Forall2 (fun b a => aig_map s' !! b = Some a) bits l /\
    map_incl (aig_map s) (aig_map s').
Proof.
  induction bits as [|bit rest IH]; intros s s' H; cbn in H.
  - injection H as <-. exists []. rewrite app_nil_r.
    split; [reflexivity|]. split; [constructor|apply map_incl_refl].
  - unbind H. destruct x as [s2 a1]. cbn [fst snd] in H.
    pose proof (bit2aig_frame _ _ _ _ _ _ E) as (_ & _ & _ & Hout & _).
    apply bit2aig_memo in E as (Hb & _ & Hi1).
    apply IH in H as (l & Hl & Hf & Hi2). cbn in Hl, Hi2, Hout, Hi1.
    exists (a1 :: l). rewrite Hl, Hout, <- app_assoc. split; [reflexivity|].
    split; [constructor; [apply Hi2, Hb|exact Hf]|].
    eapply map_incl_trans; eassumption.
Qed.

Lemma emit_ffs_facts (ffm : gmap SigBit Z) (ffs : list (SigBit * Z)) :
  forall s s', emit_ffs ffm ffs s = Ok s' ->
  exists l, aig_outputs s' = aig_outputs s ++ l /\
    Forall2 (fun ff a => ffm !! ff.1 = Some a) ffs l /\
    aig_map s' = aig_map s.
Proof.
  induction ffs as [|[bit c] rest IH]; intros s s' H; cbn in H.
  - injection H as <-. exists []. rewrite app_nil_r. auto.
  - unbind H. unfold at_ in E. destruct (ffm !! bit) as [a|] eqn:Hb; [|discriminate].
    injection E as <-. apply IH in H as (l & Hl & Hf & Hm).
    exists (a :: l). rewrite Hl. cbn. rewrite <- app_assoc.
    split; [reflexivity|]. split; [constructor; [exact Hb|exact Hf]|exact Hm].
Qed.

Lemma bit2aig_cached (T : tables) (d : nat) (s : aigstate) (b : SigBit) (a : Z) :
  aig_map s !! b = Some a -> 0 <= a -> bit2aig d T s b = Ok (s, a).
Proof.
  intros Hb Ha. destruct d; cbn [bit2aig]; rewrite Hb; cbn;
    replace (0 <=? a) with true by (symmetry; apply Z.leb_le; lia); reflexivity.
Qed.

Lemma Forall2_mono {A B} (P Q : A -> B -> Prop) (l : list A) (k : list B) :
  Forall2 P l k -> (forall x y, P x y -> Q x y) -> Forall2 Q l k.
Proof. intros H HPQ. induction H; constructor; auto. Qed.

(** ** C3 *)

(** The output phase of the constructor, with the literal of [1'b0] and
    [omode]. *)
Lemma construct_outputs (d : nat) (z : bool) (T : tables) (w : writer) :
  construct d z T = Ok w ->
  let s := wstate w in
  omode w = match output_bits T with [] => true | _ => false end /\
  aig_map s !! SBConst S0 = Some 0 /\
  exists l1 l2 l3,
    aig_outputs s = l1 ++ l2 ++ l3 /\
    Forall2 (fun b a => forall d', bit2aig d' (wtables w) s b = Ok (s, a)) (co_bits T) l1 /\
    output_bits (wtables w) =
      match output_bits T with [] => [SBConst S0] | ob => ob end /\
    Forall2 (fun b a => forall d', bit2aig d' (wtables w) s b = Ok (s, a))
            (output_bits (wtables w)) l2 /\
    Forall2 (fun ff a =>
               (exists j, ci_bits T !! j = Some ff.1 /\
                  a = 2 * (Z.of_nat (length (input_bits T)) + Z.of_nat (length (ff_bits T))
                           + Z.of_nat j + 1)) /\
               exists v, v < a /\ forall d', bit2aig d' (wtables w) s ff.1 = Ok (s, v))
            (ff_bits T) l3.
Proof.
  intros Hw s. subst s.
  destruct (construct_inv _ _ _ _ Hw) as ((_ & _ & _ & _ & _ & Hmap & _) & _).
  assert (Hc : forall b a, aig_map (wstate w) !! b = Some a ->
                 forall d', bit2aig d' (wtables w) (wstate w) b = Ok (wstate w, a)).
  { intros b a Hb d'. apply bit2aig_cached; [exact Hb|]. apply (Hmap _ _ Hb). }
  clear Hmap. unfold construct in Hw.
  apply bind_Ok in Hw as [x [E Hw]]. apply bind_Ok in Hw as [x0 [E0 Hw]].
  assert (A0 : alloc_inv (set_aig_map (<[SBConst S1 := 1]> (<[SBConst S0 := 0]> ∅)) aigstate0)).
  { unfold alloc_inv. cbn. do 7 (split; [lia || reflexivity|]).
    intros b a. rewrite !lookup_insert, lookup_empty.
    repeat case_decide; intros Hb; try discriminate; injection Hb as <-; lia. }
  pose proof (alloc_pis_inv _ _ _ A0 E) as A1.
  pose proof (alloc_pis_inv _ _ _ A1 E0) as A2.
  apply alloc_pis_facts in E as [M1 I1]. apply alloc_pis_facts in E0 as [M2 I2].
  destruct (alloc_cis_facts (ci_bits T) x0 ∅ A2) as (M3 & I3 & F3).
  pose proof (alloc_cis_inv (ci_bits T) x0 ∅ A2) as A3.
  destruct (alloc_cis (ci_bits T) x0 ∅) as [s3 ffm] eqn:E3. cbn [fst snd] in M3, I3, F3, A3.
  destruct A3 as (_ & _ & _ & _ & _ & _ & Hos3 & _).
  rewrite length_map in M2. cbn in M1.
  apply bind_Ok in Hw as [x1 [E1 Hw]]. apply emit_bits_facts in E1 as (l1 & O1 & F1 & I4).
  destruct (output_bits T) as [|ob0 obs] eqn:Eob;
    apply bind_Ok in Hw as [x2 [E2 Hw]]; apply bind_Ok in Hw as [x3 [E4 Hw]];
    apply emit_bits_facts in E2 as (l2 & O2 & F2 & I5);
    apply emit_ffs_facts in E4 as (l3 & O3 & F4 & I6);
    injection Hw as <-; cbn [wstate wtables omode] in *;
    (split; [reflexivity|]);
    (split; [rewrite I6; apply I5, I4, I3, I2, I1; vm_compute; reflexivity|]);
    exists l1, l2, l3;
    (split; [rewrite O3, O2, O1, Hos3, <- !app_assoc; reflexivity|]);
    (split; [apply (Forall2_mono _ _ _ _ F1); intros b a Hb; apply Hc;
             rewrite I6; apply I5, Hb|]);
    (split; [reflexivity|]);
    (split; [apply (Forall2_mono _ _ _ _ F2); intros b a Hb; apply Hc;
             rewrite I6; exact Hb|]);
    apply (Forall2_mono _ _ _ _ F4); intros [D c] a Ha; cbn [fst] in *;
    (apply F3 in Ha as [Ha|(j & v & Hj & -> & Hv & Hlt)];
     [rewrite lookup_empty in Ha; discriminate|]);
    (split; [exists j; split; [exact Hj|lia]|]);
    exists v; (split; [exact Hlt|]); apply Hc; rewrite I6; apply I5, I4, Hv.
Qed.

(** C3 (amended): the output list is the box-input bits ([co_bits]) in
    order, then the primary outputs in the order of [output_bits] ([1'b0]
    alone when there is none), each entry being the literal that [bit2aig]
    gives the bit, and last one entry per register in [ff_bits] order.  The
    register entry is not the translation of its D bit: it is the fresh
    input literal that the numbering gave to the box-output bit ([ci_bits])
    equal to D, while [bit2aig] of D returns a strictly smaller literal (the
    register's own state input). *)
Theorem output_list_order (d : nat) (z : bool) (T : tables) (w : writer) :
  construct d z T = Ok w ->
  let s := wstate w in
  exists l1 l2 l3,
    aig_outputs s = l1 ++ l2 ++ l3 /\
    Forall2 (fun b a => forall d', bit2aig d' (wtables w) s b = Ok (s, a)) (co_bits T) l1 /\
    output_bits (wtables w) =
      match output_bits T with [] => [SBConst S0] | ob => ob end /\
    Forall2 (fun b a => forall d', bit2aig d' (wtables w) s b = Ok (s, a))
            (output_bits (wtables w)) l2 /\
    Forall2 (fun ff a =>
               (exists j, ci_bits T !! j = Some ff.1 /\
                  a = 2 * (Z.of_nat (length (input_bits T)) + Z.of_nat (length (ff_bits T))
                           + Z.of_nat j + 1)) /\
               exists v, v < a /\ forall d', bit2aig d' (wtables w) s ff.1 = Ok (s, v))
            (ff_bits T) l3.
Proof.
  intros Hw. exact (proj2 (proj2 (construct_outputs d z T w Hw))).
Qed.

Lemma output_list_order_witness :
  construct 10 false ex_tables = Ok ex_writer /\
  let s := wstate ex_writer in
  exists l1 l2 l3,
    aig_outputs s = l1 ++ l2 ++ l3 /\
    Forall2 (fun b a => forall d', bit2aig d' (wtables ex_writer) s b = Ok (s, a))
            (co_bits ex_tables) l1 /\
    output_bits (wtables ex_writer) =
      match output_bits ex_tables with [] => [SBConst S0] | ob => ob end /\
    Forall2 (fun b a => forall d', bit2aig d' (wtables ex_writer) s b = Ok (s, a))
            (output_bits (wtables ex_writer)) l2 /\
    Forall2 (fun ff a =>
               (exists j, ci_bits ex_tables !! j = Some ff.1 /\
                  a = 2 * (Z.of_nat (length (input_bits ex_tables))
                           + Z.of_nat (length (ff_bits ex_tables)) + Z.of_nat j + 1)) /\
               exists v, v < a /\
                 forall d', bit2aig d' (wtables ex_writer) s ff.1 = Ok (s, v))
            (ff_bits ex_tables) l3.
Proof.
  assert (Hw : construct 10 false ex_tables = Ok ex_writer) by (vm_compute; reflexivity).
  exact (conj Hw (output_list_order 10%nat false ex_tables ex_writer Hw)).
Defined.

(** C3 fails on [ex_tables]: the register's D bit is [w5], the output of
    the flop box.  The output list is [[10; 8]]: [10] for the primary
    output and [8] for the register, the literal given to the box output
    [w5] in the [ci_bits] loop.  [bit2aig] of the D bit gives [6] (the
    register's state input), so the register entry is not the translation
    of its D bit. *)
Lemma register_output_not_translation :
  construct 10 false ex_tables = Ok ex_writer /\
  ff_bits ex_tables = [(SBWire 5 0, 1)] /\
  aig_outputs (wstate ex_writer) = [10; 8] /\
  bit2aig 10 (wtables ex_writer) (wstate ex_writer) (SBWire 5 0) = Ok (wstate ex_writer, 6) /\
  ~ (exists s', bit2aig 10 (wtables ex_writer) (wstate ex_writer) (SBWire 5 0) = Ok (s', 8)).
Proof.
  assert (Hb : bit2aig 10 (wtables ex_writer) (wstate ex_writer) (SBWire 5 0)
               = Ok (wstate ex_writer, 6)) by (vm_compute; reflexivity).
  split; [vm_compute; reflexivity|]. split; [reflexivity|].
  split; [vm_compute; reflexivity|]. split; [exact Hb|].
  intros [s' Hs]. rewrite Hb in Hs. apply Ok_inj, (f_equal snd) in Hs. discriminate Hs.
Qed.

(** ** Byte order *)

Lemma byte_at_testbit (x k m : Z) : 0 <= k ->
  Z.testbit (byte_at x k) m = ((0 <=? m) && (m <? 8)) && Z.testbit x (m + 8 * k).
Proof.
  intros Hk. unfold byte_at. destruct (Z.leb_spec 0 m) as [Hm|Hm].
  - change 255 with (Z.ones 8). rewrite Z.land_spec, Z.shiftr_spec by lia.
    rewrite Z.testbit_ones_nonneg by lia. cbn [andb]. rewrite andb_comm. reflexivity.
  - rewrite Z.testbit_neg_r by lia. reflexivity.
Qed.

Lemma shiftl_testbit (a k m : Z) : 0 <= k -> 0 <= m ->
  Z.testbit (Z.shiftl a k) m = Z.testbit a (m - k).
Proof. intros Hk Hm. apply Z.shiftl_spec, Hm. Qed.

Ltac zcmp_cases :=
  repeat match goal with
         | |- context [?a <=? ?b] => destruct (Z.leb_spec a b)
         | |- context [?a <? ?b] => destruct (Z.ltb_spec a b)
         end; cbn [andb orb]; try lia; try reflexivity.

Lemma byte_at_bswap32 (x j : Z) : 0 <= j <= 3 ->
  byte_at (bswap32 x) j = byte_at x (3 - j).
Proof.
  intros Hj. apply Z.bits_inj'. intros n Hn.
  rewrite !byte_at_testbit by lia. unfold bswap32.
  rewrite !Z.lor_spec, !shiftl_testbit by lia.
  rewrite !byte_at_testbit by lia.
  assert (j = 0 \/ j = 1 \/ j = 2 \/ j = 3) as [-> | [-> | [-> | ->]]] by lia;
    zcmp_cases; rewrite ?orb_false_r; f_equal; lia.
Qed.

Lemma le32_bswap32 (x : Z) : le32 (bswap32 x) = be32 x.
Proof.
  unfold le32, be32. rewrite !byte_at_bswap32 by lia. reflexivity.
Qed.

(** [write_buffer] puts out the big-endian bytes on either host. *)
Lemma write_buffer_be32 (e : endian) (x : Z) : write_buffer e x = be32 x.
Proof. destruct e; [apply le32_bswap32|reflexivity]. Qed.

Lemma section_be (e : endian) (tag : string) (p : list Z) :
  section e tag p = be_section tag p.
Proof. unfold section, be_section. change (native_bytes e (to_big_endian e ?x)) with (write_buffer e x).
  rewrite write_buffer_be32. reflexivity. Qed.

Lemma mapM_r_entry (e : endian) (T : tables) (ffs : list (SigBit * Z)) :
  forall rs, mapM (r_entry e T) ffs = Ok rs ->
  map fst rs = map (fun ff => be32 ff.2) ffs /\
  map snd rs = map (fun ff => native_bytes e (arrival_of T ff.1)) ffs /\
  Forall (fun ff => ff.2 > 0) ffs.
Proof.
  induction ffs as [|ff rest IH]; intros rs H; cbn in H.
  - injection H as <-. split; [reflexivity|]. split; [reflexivity|constructor].
  - unbind H. unbind H. injection H as <-. unfold r_entry in E. unbind E.
    apply log_assert_Ok, Z.gtb_lt in E1. injection E as <-.
    destruct (IH _ E0) as (H1 & H2 & H3). cbn.
    rewrite H1, H2, write_buffer_be32. split; [reflexivity|]. split; [reflexivity|].
    constructor; [lia|exact H3].
Qed.

Lemma box_h_entries_be (e : endian) (boxes : list box_info) :
  box_h_entries e boxes =
  concat (imap (fun k b => be32 (box_inputs b) ++ be32 (box_outputs b) ++
                           be32 (box_id b) ++ be32 (Z.of_nat k)) boxes).
Proof.
  unfold box_h_entries. f_equal. apply imap_ext. intros k b _.
  rewrite !write_buffer_be32. reflexivity.
Qed.

Lemma s_entries_be (e : endian) (T : tables) (ffs : list (SigBit * Z)) :
  map (s_entry e T) ffs =
  map (fun ff => be32 (if bool_decide (ff.1 ∈ ff_init_one T) then 1 else 0)) ffs.
Proof.
  apply map_ext. intros ff. unfold s_entry.
  destruct (bool_decide _); apply write_buffer_be32.
Qed.

Lemma ex_pre_app {A} (a l t : list A) :
  (exists pre, l = pre ++ t) -> exists pre, a ++ l = pre ++ t.
Proof. intros [pre ->]. exists (a ++ pre). apply app_assoc. Qed.

(** The bytes [write_aiger] puts out after the body. *)
Lemma write_aiger_layout (env : environment) (w : writer) (ascii_mode : bool) (bs : list Z) :
  write_aiger env w ascii_mode = Ok bs ->
  exists pre,
    bs = pre ++ bytes_of_string "c" ++
         (if ext_present (wtables w)
          then be_section "r" (r_payload (wtables w)) ++
               be_section "s" (s_payload (wtables w)) ++ be_section "a" (holes_aig env)
          else []) ++
         be_section "h" (h_payload (wtables w)) ++
         be_section "i" (i_payload (host env) (wtables w)) ++ trailer env.
Proof.
  intros H. unfold write_aiger in H. unbind H. unbind H. unbind H. unbind H.
  unbind H. unfold i_payload, h_payload, r_payload, s_payload, trailer.
  rewrite ?section_be, ?write_buffer_be32 in H.
  unfold ext_present. destruct (_ || _) eqn:Ext.
  - unbind E3. apply Ok_inj in E3. subst x3. destruct (mapM_r_entry _ _ _ _ E4) as (R1 & R2 & _).
    cbn beta iota in H. rewrite ?section_be, ?write_buffer_be32 in H.
    apply Ok_inj in H. subst bs.
    do 2 apply ex_pre_app. exists []. rewrite app_nil_l.
    rewrite R1, R2, s_entries_be, box_h_entries_be, <- !app_assoc. reflexivity.
  - apply Ok_inj in E3. subst x3. cbn beta iota in H.
    rewrite ?section_be, ?write_buffer_be32 in H. apply Ok_inj in H. subst bs.
    apply orb_false_iff in Ext as [Eb _]. apply negb_false_iff, bool_decide_eq_true in Eb.
    rewrite Eb.
    do 2 apply ex_pre_app. exists []. rewrite !app_nil_l, !app_nil_r. reflexivity.
Qed.

Lemma ex_aiger_bytes_ok : write_aiger ex_env_le ex_writer false = Ok ex_aiger_bytes.
Proof. vm_compute. reflexivity. Qed.

(** ** C5 *)

(** C5 (amended): after the [c] byte come, only when there is a box or a
    register, the [r], [s] and [a] sections in this order, then always the
    [h] section and then the [i] section, each a tag byte, a big-endian
    32-bit length and the payload; the [a] payload is the nested holes
    encoding.  The [h] section follows the optional ones. *)
Theorem extension_section_order (env : environment) (w : writer) (ascii_mode : bool)
    (bs : list Z) :
  write_aiger env w ascii_mode = Ok bs ->
  (ext_present (wtables w) = true <->
   box_list (wtables w) <> [] \/ ff_bits (wtables w) <> []) /\
  exists pre R S H I,
    bs = pre ++ bytes_of_string "c" ++
         (if ext_present (wtables w)
          then be_section "r" R ++ be_section "s" S ++ be_section "a" (holes_aig env)
          else []) ++
         be_section "h" H ++ be_section "i" I ++ trailer env.
Proof.
  intros Hw. split.
  - unfold ext_present. rewrite orb_true_iff, !negb_true_iff, !bool_decide_eq_false.
    reflexivity.
  - destruct (write_aiger_layout _ _ _ _ Hw) as [pre Hpre].
    exists pre, (r_payload (wtables w)), (s_payload (wtables w)),
      (h_payload (wtables w)), (i_payload (host env) (wtables w)).
    exact Hpre.
Qed.

Lemma extension_section_order_witness :
  write_aiger ex_env_le ex_writer false = Ok ex_aiger_bytes /\
  (ext_present (wtables ex_writer) = true <->
   box_list (wtables ex_writer) <> [] \/ ff_bits (wtables ex_writer) <> []) /\
  exists pre R S H I,
    ex_aiger_bytes = pre ++ bytes_of_string "c" ++
         (if ext_present (wtables ex_writer)
          then be_section "r" R ++ be_section "s" S ++ be_section "a" (holes_aig ex_env_le)
          else []) ++
         be_section "h" H ++ be_section "i" I ++ trailer ex_env_le.
Proof.
  assert (Hw : write_aiger ex_env_le ex_writer false = Ok ex_aiger_bytes)
    by (vm_compute; reflexivity).
  exact (conj Hw (extension_section_order ex_env_le ex_writer false ex_aiger_bytes Hw)).
Defined.

(** C5 fails on [ex_tables], which has a register: the file is the header
    [aig 5 4 0 2 1], the binary body, [c], and then the [r] tag, not [h]. *)
Lemma extension_order_counterexample :
  exists body rest,
    write_body (wstate ex_writer) false = Ok body /\
    write_aiger ex_env_le ex_writer false =
      Ok (bytes_of_string "aig 5 4 0 2 1" ++ newline ++ body ++
          bytes_of_string "c" ++ bytes_of_string "r" ++ rest) /\
    bytes_of_string "r" <> bytes_of_string "h".
Proof.
  exists [49; 48; 10; 56; 10; 6; 1], (skipn 23 ex_aiger_bytes).
  split; [vm_compute; reflexivity|]. split; [vm_compute; reflexivity|].
  cbv. congruence.
Qed.

(** ** C6 *)

(** C6 (amended): every 32-bit integer of the extension (section lengths,
    the [h] words, the register count and merge classes of [r], the init
    words of [s]) is written big-endian on either host; the [float]
    arrival times are written in the host's byte order, so on a
    little-endian host they come out byte-reversed; and they all go into
    the [i] section (inputs first, then registers): the [r] section holds
    no [float]. *)
Theorem multibyte_byte_order (env : environment) (w : writer) (ascii_mode : bool)
    (bs : list Z) :
  write_aiger env w ascii_mode = Ok bs ->
  (exists pre,
    bs = pre ++ bytes_of_string "c" ++
         (if ext_present (wtables w)
          then be_section "r" (r_payload (wtables w)) ++
               be_section "s" (s_payload (wtables w)) ++ be_section "a" (holes_aig env)
          else []) ++
         be_section "h" (h_payload (wtables w)) ++
         be_section "i" (i_payload (host env) (wtables w)) ++ trailer env) /\
  (forall e x, write_buffer e x = be32 x) /\
  (forall f, write_buffer_float BigEndian f = be32 f) /\
  (forall f, write_buffer_float LittleEndian f = rev (be32 f)).
Proof.
  intros Hw. split; [exact (write_aiger_layout _ _ _ _ Hw)|].
  split; [exact write_buffer_be32|]. split; intros f; reflexivity.
Qed.

Lemma multibyte_byte_order_witness :
  write_aiger ex_env_le ex_writer false = Ok ex_aiger_bytes /\
  ((exists pre,
    ex_aiger_bytes = pre ++ bytes_of_string "c" ++
         (if ext_present (wtables ex_writer)
          then be_section "r" (r_payload (wtables ex_writer)) ++
               be_section "s" (s_payload (wtables ex_writer)) ++
               be_section "a" (holes_aig ex_env_le)
          else []) ++
         be_section "h" (h_payload (wtables ex_writer)) ++
         be_section "i" (i_payload (host ex_env_le) (wtables ex_writer)) ++
         trailer ex_env_le) /\
  (forall e x, write_buffer e x = be32 x) /\
  (forall f, write_buffer_float BigEndian f = be32 f) /\
  (forall f, write_buffer_float LittleEndian f = rev (be32 f))).
Proof.
  assert (Hw : write_aiger ex_env_le ex_writer false = Ok ex_aiger_bytes)
    by (vm_compute; reflexivity).
  exact (conj Hw (multibyte_byte_order ex_env_le ex_writer false ex_aiger_bytes Hw)).
Defined.

(** C6 fails on a little-endian host: the arrival time [1.0f] of input
    [w0] (bit pattern [0x3F800000], big-endian bytes [63 128 0 0]) is
    written as [0 0 128 63] in the [i] section of the file for
    [ex_tables]; and the [r] section is the register count and the merge
    class, two words, with no arrival time. *)
Lemma float_byte_order_counterexample :
  arrival_of ex_tables (SBWire 0 0) = f32_of_int 1 /\
  be32 (f32_of_int 1) = [63; 128; 0; 0] /\
  write_buffer_float LittleEndian (f32_of_int 1) = [0; 0; 128; 63] /\
  exists pre mid,
    write_aiger ex_env_le ex_writer false =
      Ok (pre ++ be_section "r" (be32 1 ++ be32 1) ++ mid ++
          be_section "i" ([0; 0; 128; 63] ++ [0; 0; 0; 0] ++ [0; 0; 0; 0]) ++
          trailer ex_env_le).
Proof.
  split; [reflexivity|]. split; [vm_compute; reflexivity|].
  split; [vm_compute; reflexivity|].
  exists (firstn 22 ex_aiger_bytes), (firstn 47 (skipn 35 ex_aiger_bytes)).
  vm_compute. reflexivity.
Qed.

(** ** The map file *)

Lemma dict_update_Forall {V} (Q : Z * V -> Prop) (k : Z) (f : V -> V) (d : dict V) :
  (forall k' v, Q (k', v) -> Q (k', f v)) -> Forall Q d -> Forall Q (dict_update k f d).
Proof.
  intros Hf Hd. induction Hd as [|[k' v] r Hq Hr IH]; cbn; [constructor|].
  destruct (k =? k'); constructor; auto.
Qed.

Lemma dict_ins_Forall {V} (Q : Z * V -> Prop) (k : Z) (v : V) (d : dict V) :
  Q (k, v) -> Forall Q d -> Forall Q (dict_ins k v d).
Proof.
  intros Hq Hd. induction Hd as [|[k' v'] r Hq' Hr IH]; cbn; [constructor; auto|].
  destruct (k <=? k'); constructor; auto.
Qed.

Lemma dict_sort_Forall {V} (Q : Z * V -> Prop) (d : dict V) :
  Forall Q d -> Forall Q (dict_sort d).
Proof.
  intros Hd. induction Hd as [|[k v] r Hq Hr IH]; cbn; [constructor|].
  apply dict_ins_Forall; auto.
Qed.

Lemma dict_add_all (P : list Z -> Prop) (k : Z) (line : list Z) (d : dict (list (list Z))) :
  P line -> dict_lines_all P d -> dict_lines_all P (dict_add k line d).
Proof.
  intros Hl Hd. unfold dict_add. destruct (dict_lookup k d).
  - apply dict_update_Forall; [|exact Hd]. intros k' v Hv. cbn in *.
    apply Forall_app; split; [exact Hv|constructor; auto].
  - constructor; [cbn; constructor; auto|exact Hd].
Qed.

Lemma dict_text_all (P : list Z -> Prop) (d : dict (list (list Z))) :
  dict_lines_all P d -> Forall P (dict_text d).
Proof.
  intros Hd. unfold dict_text. induction Hd as [|[k v] r Hq Hr IH]; cbn; [constructor|].
  apply Forall_app; auto.
Qed.

Lemma foldM_inv {A B} (P : B -> Prop) (f : B -> A -> result B) (l : list A) :
  (forall b x b', P b -> f b x = Ok b' -> P b') ->
  forall b b', P b -> foldM f l b = Ok b' -> P b'.
Proof.
  intros Hf. induction l as [|x xs IH]; intros b b' Hb H; cbn in H.
  - injection H as <-. exact Hb.
  - apply bind_Ok in H as [b1 [E H]]. exact (IH _ _ (Hf _ _ _ Hb E) H).
Qed.

Lemma map_scan_no_output (w : writer) (mi : modinfo) (verbose_map : bool) (acc : maplines) :
  (forall k i, SBWire k i ∉ output_bits (wtables w)) ->
  map_scan w mi verbose_map = Ok acc -> scan_no_output acc.
Proof.
  intros Hno. unfold map_scan.
  apply (foldM_inv scan_no_output); [|split; [reflexivity|split; constructor]].
  intros b wr b' Hb. apply (foldM_inv scan_no_output); [|exact Hb].
  clear b b' Hb. intros b i b' (Ho & Hi & Hw) H. unfold map_bit in H.
  apply bind_Ok in H as [il [E H]].
  assert (Hil : dict_lines_all not_output_line il).
  { destruct (bool_decide _) in E.
    - apply bind_Ok in E as [a [_ E]]. apply bind_Ok in E as [u [_ E]].
      injection E as <-. apply dict_add_all; [reflexivity|exact Hi].
    - injection E as <-. exact Hi. }
  rewrite bool_decide_eq_false_2 in H by apply Hno.
  destruct verbose_map; [destruct (aig_map _ !! _)|];
    injection H as <-; split; cbn; auto; split; auto.
  apply dict_add_all; [reflexivity|exact Hw].
Qed.

Lemma filter_none (f : list Z -> bool) (l : list (list Z)) :
  Forall (fun x => f x = false) l -> List.filter f l = [].
Proof. intros H. induction H; cbn; [reflexivity|]. rewrite H. exact IHForall. Qed.

Lemma filter_app' (f : list Z -> bool) (l1 l2 : list (list Z)) :
  List.filter f (l1 ++ l2) = List.filter f l1 ++ List.filter f l2.
Proof. induction l1; cbn; [reflexivity|]. destruct (f a); cbn; rewrite IHl1; reflexivity. Qed.

Lemma box_lines_not_output (boxes : list box_info) :
  Forall not_output_line (imap (fun k bx => box_line k (box_name bx)) boxes).
Proof.
  apply Forall_lookup. intros i l Hl. apply list_lookup_imap_Some in Hl as (bx & _ & ->).
  reflexivity.
Qed.

Lemma dict_sort_nil {V} : dict_sort (V := V) [] = [].
Proof. reflexivity. Qed.

(** With [omode] and [1'b0] as the only primary output, the map file has
    exactly one [output] line, the placeholder. *)
Lemma write_map_omode (w : writer) (mi : modinfo) (verbose_map : bool) (lines : list (list Z)) :
  omode w = true -> output_bits (wtables w) = [SBConst S0] ->
  write_map w mi verbose_map = Ok lines ->
  List.filter is_output_line lines = [dummy_line].
Proof.
  intros Hom Hob H. unfold write_map in H.
  apply bind_Ok in H as [acc [E H]].
  apply map_scan_no_output in E as (Ho & Hi & Hw);
    [|rewrite Hob; intros k i Hk; apply list_elem_of_singleton in Hk; discriminate].
  apply bind_Ok in H as [u [_ H]]. rewrite Hom, Hob, Ho, !dict_sort_nil in H.
  rewrite bool_decide_eq_false_2 in H by discriminate.
  cbn [dict_set dict_lookup length Nat.eqb log_assert bind andb dict_text map concat] in H.
  injection H as <-.
  rewrite !filter_app'.
  rewrite (filter_none _ (dict_text (dict_sort (input_lines acc))));
    [|apply dict_text_all, dict_sort_Forall, Hi].
  rewrite (filter_none _ (imap _ _)); [|apply box_lines_not_output].
  cbn [List.filter app]. change (is_output_line dummy_line) with true.
  rewrite filter_none; [reflexivity|apply dict_text_all, dict_sort_Forall, Hw].
Qed.

(** ** C8 *)

(** C8: when the design has no primary output, the constructor sets
    [omode], makes [1'b0] the only primary output, and its literal [0]
    is the single entry of the primary output group, between the box
    input literals and the register literals; it is counted in [aig_o]
    and written as an output line of the file.  The map file then holds
    exactly one [output] line, [output 0 0 $__dummy__]. *)
Theorem dummy_output_when_no_outputs (d : nat) (z : bool) (T : tables) (w : writer) :
  construct d z T = Ok w -> output_bits T = [] ->
  omode w = true /\ output_bits (wtables w) = [SBConst S0] /\
  (exists l1 l3, aig_outputs (wstate w) = l1 ++ 0 :: l3 /\
     length l1 = length (co_bits T) /\ length l3 = length (ff_bits T)) /\
  aig_o (wstate w) = Z.of_nat (length (co_bits T)) + 1 + Z.of_nat (length (ff_bits T)) /\
  (forall (ascii_mode : bool) (body : list Z), write_body (wstate w) ascii_mode = Ok body ->
     exists pre gs,
       body = pre ++ concat (map (fun a => decimal a ++ newline) (aig_outputs (wstate w))) ++ gs) /\
  (forall (mi : modinfo) (verbose_map : bool) (lines : list (list Z)),
     write_map w mi verbose_map = Ok lines ->
     List.filter is_output_line lines = [dummy_line]).
Proof.
  intros Hw Hob.
  destruct (construct_outputs _ _ _ _ Hw) as (Hom & H0 & l1 & l2 & l3 & Hout & F1 & Hob' & F2 & F3).
  destruct (construct_inv _ _ _ _ Hw) as (_ & Ho & _).
  rewrite Hob in Hom, Hob'. rewrite Hob' in F2.
  apply Forall2_cons_inv_l in F2 as (a & l2' & Ha & Hnil & ->).
  apply Forall2_nil_inv_l in Hnil as ->.
  specialize (Ha 0%nat). rewrite (bit2aig_cached _ _ _ _ _ H0) in Ha by lia.
  apply Ok_inj, (f_equal snd) in Ha. cbn in Ha. subst a.
  split; [exact Hom|]. split; [exact Hob'|].
  split; [exists l1, l3; split; [exact Hout|split; symmetry; eapply Forall2_length; eassumption]|].
  split.
  { rewrite Ho, Hout, !length_app. cbn [length].
    pose proof (Forall2_length F1). pose proof (Forall2_length F3). lia. }
  split.
  - intros ascii_mode body Hb.
    destruct (write_body_outputs _ _ _ Ho Hb) as (pre & gs & Hbody & _). eauto.
  - intros mi verbose_map lines Hm. exact (write_map_omode w mi verbose_map lines Hom Hob' Hm).
Qed.

Lemma dummy_output_when_no_outputs_witness :
  construct 10 false ex_tables_no_output = Ok ex_writer_no_output /\
  output_bits ex_tables_no_output = [] /\
  (omode ex_writer_no_output = true /\
   output_bits (wtables ex_writer_no_output) = [SBConst S0] /\
   (exists l1 l3, aig_outputs (wstate ex_writer_no_output) = l1 ++ 0 :: l3 /\
      length l1 = length (co_bits ex_tables_no_output) /\
      length l3 = length (ff_bits ex_tables_no_output)) /\
   aig_o (wstate ex_writer_no_output) =
     Z.of_nat (length (co_bits ex_tables_no_output)) + 1 +
     Z.of_nat (length (ff_bits ex_tables_no_output)) /\
   (forall (ascii_mode : bool) (body : list Z),
      write_body (wstate ex_writer_no_output) ascii_mode = Ok body ->
      exists pre gs,
        body = pre ++ concat (map (fun a => decimal a ++ newline)
                                  (aig_outputs (wstate ex_writer_no_output))) ++ gs) /\
   (forall (mi : modinfo) (verbose_map : bool) (lines : list (list Z)),
      write_map ex_writer_no_output mi verbose_map = Ok lines ->
      List.filter is_output_line lines = [dummy_line])).
Proof.
  assert (Hw : construct 10 false ex_tables_no_output = Ok ex_writer_no_output)
    by (vm_compute; reflexivity).
  assert (Hob : output_bits ex_tables_no_output = []) by reflexivity.
  exact (conj Hw (conj Hob (dummy_output_when_no_outputs 10%nat false _ _ Hw Hob))).
Defined.

(** ** [zinit_mode] *)

Lemma construct_zinit (d : nat) (z : bool) (T : tables) :
  construct d z T =
  match construct d false T with Ok w => Ok (set_zinit z w) | Err e => Err e end.
Proof.
  unfold construct, bind. repeat case_match; try reflexivity; congruence.
Qed.

Lemma write_aiger_zinit (env : environment) (z : bool) (w : writer) (ascii_mode : bool) :
  write_aiger env (set_zinit z w) ascii_mode = write_aiger env w ascii_mode.
Proof. destruct w; reflexivity. Qed.

Lemma dict_rel_keys (d1 d2 : dict (list (list Z))) :
  dict_rel d1 d2 -> map fst d1 = map fst d2.
Proof. intros H. induction H as [|e1 e2 r1 r2 [Hk _] _ IH]; cbn; congruence. Qed.

Lemma dict_lookup_keys {V} (k : Z) (d1 d2 : dict V) :
  map fst d1 = map fst d2 -> (dict_lookup k d1 = None <-> dict_lookup k d2 = None).
Proof.
  revert d2. induction d1 as [|[k1 v1] r1 IH]; intros [|[k2 v2] r2] H; cbn in *;
    try discriminate; [tauto|].
  injection H as <- Hr. destruct (k =? k1); [split; discriminate|]. apply IH, Hr.
Qed.

Lemma dict_update_rel (k : Z) (f1 f2 : list (list Z) -> list (list Z)) (d1 d2 : dict (list (list Z))) :
  (forall v1 v2, Forall2 init_rel v1 v2 -> Forall2 init_rel (f1 v1) (f2 v2)) ->
  dict_rel d1 d2 -> dict_rel (dict_update k f1 d1) (dict_update k f2 d2).
Proof.
  intros Hf H. induction H as [|[k1 v1] [k2 v2] r1 r2 [Hk Hv] Hr IH]; cbn in *; [constructor|].
  subst k2. destruct (k =? k1); constructor; try split; cbn; auto.
Qed.

Lemma dict_add_rel (k : Z) (l1 l2 : list Z) (d1 d2 : dict (list (list Z))) :
  init_rel l1 l2 -> dict_rel d1 d2 -> dict_rel (dict_add k l1 d1) (dict_add k l2 d2).
Proof.
  intros Hl H. unfold dict_add.
  pose proof (dict_lookup_keys k _ _ (dict_rel_keys _ _ H)) as Hk.
  destruct (dict_lookup k d1), (dict_lookup k d2); try (exfalso; intuition congruence).
  - apply dict_update_rel; [|exact H]. intros v1 v2 Hv. apply Forall2_app; auto.
  - constructor; [split; [reflexivity|constructor; auto]|exact H].
Qed.

Lemma dict_set_rel (k : Z) (v1 v2 : list (list Z)) (d1 d2 : dict (list (list Z))) :
  Forall2 init_rel v1 v2 -> dict_rel d1 d2 -> dict_rel (dict_set k v1 d1) (dict_set k v2 d2).
Proof.
  intros Hv H. unfold dict_set.
  pose proof (dict_lookup_keys k _ _ (dict_rel_keys _ _ H)) as Hk.
  destruct (dict_lookup k d1), (dict_lookup k d2); try (exfalso; intuition congruence).
  - apply dict_update_rel; [|exact H]. auto.
  - constructor; [split; [reflexivity|exact Hv]|exact H].
Qed.

Lemma dict_ins_rel (k : Z) (v1 v2 : list (list Z)) (d1 d2 : dict (list (list Z))) :
  Forall2 init_rel v1 v2 -> dict_rel d1 d2 -> dict_rel (dict_ins k v1 d1) (dict_ins k v2 d2).
Proof.
  intros Hv H. induction H as [|[k1 w1] [k2 w2] r1 r2 [Hk Hw] Hr IH]; cbn in *.
  - constructor; [split; auto|constructor].
  - subst k2. destruct (k <=? k1).
    + constructor; [split; auto|constructor; [split; auto|exact Hr]].
    + constructor; [split; auto|exact IH].
Qed.

Lemma dict_sort_rel (d1 d2 : dict (list (list Z))) :
  dict_rel d1 d2 -> dict_rel (dict_sort d1) (dict_sort d2).
Proof.
  intros H. induction H as [|[k1 v1] [k2 v2] r1 r2 [Hk Hv] Hr IH]; cbn in *; [constructor|].
  subst k2. apply dict_ins_rel; auto.
Qed.

Lemma dict_text_rel (d1 d2 : dict (list (list Z))) :
  dict_rel d1 d2 -> Forall2 init_rel (dict_text d1) (dict_text d2).
Proof.
  intros H. unfold dict_text.
  induction H as [|[k1 v1] [k2 v2] r1 r2 [Hk Hv] Hr IH]; cbn in *; [constructor|].
  apply Forall2_app; auto.
Qed.

Lemma Forall2_init_rel_refl (l : list (list Z)) : Forall2 init_rel l l.
Proof. induction l; constructor; [left; reflexivity|exact IHl]. Qed.

Lemma output_line_init_rel (o n : Z) (i : nat) (name : string) (im : gmap SigBit bool) (b : SigBit) :
  init_rel (output_line_map o n i name (init_value true im b))
           (output_line_map o n i name (init_value false im b)).
Proof.
  unfold init_value. destruct (im !! b); [left; reflexivity|].
  right. exists (bytes_of_string "output " ++ decimal (o - n) ++ space ++ decimal (Z.of_nat i) ++
                 space ++ bytes_of_string name ++ space).
  unfold output_line_map. rewrite <- !app_assoc. split; [reflexivity|split; reflexivity].
Qed.

Lemma foldM_rel {A B} (R : B -> B -> Prop) (f1 f2 : B -> A -> result B) (l : list A) :
  (forall b1 b2 x, R b1 b2 -> result_rel R (f1 b1 x) (f2 b2 x)) ->
  forall b1 b2, R b1 b2 -> result_rel R (foldM f1 l b1) (foldM f2 l b2).
Proof.
  intros Hf. induction l as [|x xs IH]; intros b1 b2 Hb; cbn; [exact Hb|].
  pose proof (Hf b1 b2 x Hb) as Hx.
  destruct (f1 b1 x), (f2 b2 x); cbn in *; try contradiction; [apply IH, Hx|exact Hx].
Qed.

Lemma map_bit_zinit_rel (w : writer) (mi : modinfo) (verbose_map : bool) (wr : mwire)
    (a1 a2 : maplines) (i : nat) :
  maplines_rel a1 a2 ->
  result_rel maplines_rel (map_bit (set_zinit true w) mi verbose_map wr a1 i)
                          (map_bit (set_zinit false w) mi verbose_map wr a2 i).
Proof.
  intros (Hi & Hw & Ho). unfold map_bit, bind. cbn [wtables wstate zinit_mode set_zinit].
  rewrite Hi, Hw. repeat case_match; cbn [result_rel]; try reflexivity;
    (split; [reflexivity|split; [reflexivity|cbn [output_lines]]]); try exact Ho.
  all: apply dict_add_rel; [apply output_line_init_rel|exact Ho].
Qed.

Lemma write_map_zinit_rel (w : writer) (mi : modinfo) (verbose_map : bool) :
  result_rel (Forall2 init_rel) (write_map (set_zinit true w) mi verbose_map)
                                (write_map (set_zinit false w) mi verbose_map).
Proof.
  assert (Hs : result_rel maplines_rel (map_scan (set_zinit true w) mi verbose_map)
                                       (map_scan (set_zinit false w) mi verbose_map)).
  { unfold map_scan. apply foldM_rel; [|split; [reflexivity|split; constructor]].
    intros b1 b2 wr Hb. apply foldM_rel; [|exact Hb].
    intros c1 c2 i Hc. apply map_bit_zinit_rel, Hc. }
  unfold write_map, bind. cbn [wtables omode set_zinit].
  destruct (map_scan (set_zinit true w) _ _) as [a1|e1],
           (map_scan (set_zinit false w) _ _) as [a2|e2]; cbn in Hs; try contradiction;
    [|exact Hs].
  destruct Hs as (Hi & Hw & Ho). rewrite Hi, Hw.
  destruct (log_assert _) as [[]|e]; [|reflexivity].
  assert (Hol : dict_rel (if omode w then dict_set 0 [dummy_line] (dict_sort (output_lines a1))
                          else dict_sort (output_lines a1))
                         (if omode w then dict_set 0 [dummy_line] (dict_sort (output_lines a2))
                          else dict_sort (output_lines a2))).
  { destruct (omode w); [apply dict_set_rel; [constructor; [left; reflexivity|constructor]|]|];
      apply dict_sort_rel, Ho. }
  rewrite <- (Forall2_length Hol).
  destruct (log_assert _) as [[]|e]; [|reflexivity].
  cbn [result_rel].
  apply Forall2_app; [apply Forall2_init_rel_refl|].
  apply Forall2_app; [apply Forall2_init_rel_refl|].
  apply Forall2_app; [apply Forall2_init_rel_refl|].
  apply Forall2_app; [apply dict_text_rel, Hol|].
  apply Forall2_init_rel_refl.
Qed.

(** ** C10 *)

(** C10: [zinit_mode] is only stored by the constructor and never read by
    [write_aiger], so the AIGER byte stream (or the error) is the same for
    both values of the flag.  In the map file the two runs give the same
    lines, except that an [output] line may end in init field [0] with
    the flag and [2] without it; the field differs only for a bit that
    has no [init_map] entry. *)
Theorem zinit_only_in_map (d : nat) (T : tables) (env : environment) (ascii_mode : bool) :
  bind (construct d true T) (fun w => write_aiger env w ascii_mode) =
  bind (construct d false T) (fun w => write_aiger env w ascii_mode) /\
  (forall w1 w2, construct d true T = Ok w1 -> construct d false T = Ok w2 ->
     forall (mi : modinfo) (verbose_map : bool),
       result_rel (Forall2 init_rel) (write_map w1 mi verbose_map) (write_map w2 mi verbose_map)) /\
  (forall b, init_map T !! b = None ->
     init_value true (init_map T) b = 0 /\ init_value false (init_map T) b = 2) /\
  (forall b v, init_map T !! b = Some v ->
     init_value true (init_map T) b = init_value false (init_map T) b).
Proof.
  split; [|split; [|split]].
  - rewrite (construct_zinit d true T).
    destruct (construct d false T) as [w|e]; cbn [bind]; [apply write_aiger_zinit|reflexivity].
  - intros w1 w2 H1 H2 mi verbose_map.
    rewrite construct_zinit, H2 in H1. apply Ok_inj in H1. subst w1.
    pose proof (construct_zinit d false T) as H. rewrite H2 in H. apply Ok_inj in H.
    replace (write_map w2 mi verbose_map) with (write_map (set_zinit false w2) mi verbose_map)
      by (rewrite <- H; reflexivity).
    apply write_map_zinit_rel.
  - intros b Hb. unfold init_value. rewrite Hb. split; reflexivity.
  - intros b v Hb. unfold init_value. rewrite Hb. reflexivity.
Qed.

Lemma zinit_only_in_map_witness :
  construct 10 true ex_tables = Ok (set_zinit true ex_writer) /\
  construct 10 false ex_tables = Ok ex_writer /\
  result_rel (Forall2 init_rel) (write_map (set_zinit true ex_writer) ex_modinfo true)
                                (write_map ex_writer ex_modinfo true).
Proof.
  assert (H1 : construct 10 true ex_tables = Ok (set_zinit true ex_writer))
    by (vm_compute; reflexivity).
  assert (H2 : construct 10 false ex_tables = Ok ex_writer) by (vm_compute; reflexivity).
  exact (conj H1 (conj H2 (proj1 (proj2 (zinit_only_in_map 10%nat ex_tables ex_env_le false))
                              _ _ H1 H2 ex_modinfo true))).
Defined.

(** ** The dependency orderer *)

Lemma reach_trans (E : list (nat * nat)) (u w v : nat) :
  reach E u w -> reach E w v -> reach E u v.
Proof.
  intros H1 H2. induction H1 as [u w' Hin|u w' w'' Hin _ IH].
  - exact (reach_step E u w' v Hin H2).
  - exact (reach_step E u w' v Hin (IH H2)).
Qed.

Lemma reach_last (E : list (nat * nat)) (u v : nat) :
  reach E u v -> exists w, (w = u \/ reach E u w) /\ In (w, v) E.
Proof.
  intros H. induction H as [u v Hin|u w v Hin _ (w' & Hw' & Hin')].
  - exists u. auto.
  - exists w'. split; [|exact Hin']. right.
    destruct Hw' as [->|Hw']; [apply reach_one, Hin|exact (reach_step E u w w' Hin Hw')].
Qed.

Lemma cycle_pred (E : list (nat * nat)) (x : nat) :
  reach E x x -> exists y, In (y, x) E /\ reach E y y.
Proof.
  intros H. destruct (reach_last E x x H) as (w & [->|Hw] & Hin).
  - exists x. auto.
  - exists w. split; [exact Hin|]. exact (reach_trans E w x w (reach_one E w x Hin) Hw).
Qed.

(** A node on a cycle is never taken out. *)
Lemma kahn_keeps_cycle (E : list (nat * nat)) (fuel : nat) :
  forall rem sorted, (forall v, reach E v v -> In v rem) ->
  forall v, reach E v v -> In v (snd (kahn fuel E rem sorted)).
Proof.
  induction fuel as [|f IH]; intros rem sorted Hrem v Hv; cbn [kahn]; [exact (Hrem v Hv)|].
  destruct (List.find _ rem) as [v0|] eqn:Hf; [|exact (Hrem v Hv)].
  apply IH; [|exact Hv]. clear v Hv. intros v Hv.
  apply List.find_some in Hf as [Hin Hp].
  destruct (Nat.eq_dec v v0) as [->|Hne]; [|apply List.in_in_remove; auto].
  exfalso. destruct (cycle_pred E v0 Hv) as (y & Hy & Hyy).
  rewrite List.forallb_forall in Hp. specialize (Hp _ Hy). cbn in Hp.
  rewrite Nat.eqb_refl in Hp. cbn in Hp.
  assert (existsb (Nat.eqb y) rem = true) as Hex.
  { apply List.existsb_exists. exists y. split; [exact (Hrem y Hyy)|apply Nat.eqb_refl]. }
  rewrite Hex in Hp. discriminate.
Qed.

(** Nodes each with a predecessor among them, walked backwards. *)
Lemma back_walk (E : list (nat * nat)) (R : list nat) :
  (forall v, In v R -> exists u, In u R /\ In (u, v) E) ->
  forall k h t, (length R < k + length (h :: t))%nat -> List.NoDup (h :: t) -> incl (h :: t) R ->
  (forall y, In y (h :: t) -> h = y \/ reach E h y) ->
  exists x, reach E x x.
Proof.
  intros Hs k. induction k as [|k IH]; intros h t Hlen Hnd Hinc Hr.
  - exfalso. pose proof (NoDup_incl_length Hnd Hinc). cbn in *. lia.
  - destruct (Hs h (Hinc h (or_introl eq_refl))) as (u & Hu & Hue).
    destruct (in_dec Nat.eq_dec u (h :: t)) as [Hin|Hnin].
    + exists u. destruct (Hr u Hin) as [->|Hhu]; [apply reach_one, Hue|].
      exact (reach_step E u h u Hue Hhu).
    + apply (IH u (h :: t)).
      * cbn in *. lia.
      * constructor; assumption.
      * intros y [<-|Hy]; [exact Hu|exact (Hinc y Hy)].
      * intros y [<-|Hy]; [left; reflexivity|right].
        destruct (Hr y Hy) as [<-|Hhy]; [apply reach_one, Hue|exact (reach_step E u h y Hue Hhy)].
Qed.

Lemma stuck_cycle (E : list (nat * nat)) (R : list nat) :
  R <> [] -> (forall v, In v R -> exists u, In u R /\ In (u, v) E) -> exists x, reach E x x.
Proof.
  intros Hne Hs. destruct R as [|v R']; [contradiction|].
  apply (back_walk E (v :: R') Hs (length (v :: R')) v []).
  - cbn. lia.
  - constructor; [intros []|constructor].
  - intros y [<-|[]]. left; reflexivity.
  - intros y [<-|[]]. left; reflexivity.
Qed.

Lemma forallb_false_ex {A} (f : A -> bool) (l : list A) :
  forallb f l = false -> exists x, In x l /\ f x = false.
Proof.
  induction l as [|x xs IH]; cbn; [discriminate|]. intros H.
  destruct (f x) eqn:Hx; cbn in H; [|exists x; auto].
  destruct (IH H) as (y & Hy & Hfy). exists y. auto.
Qed.

(** Kahn's algorithm with enough fuel ends with no node left, or with
    nodes each having an edge from a node left. *)
Lemma kahn_stuck (E : list (nat * nat)) (fuel : nat) :
  forall rem sorted, (length rem <= fuel)%nat ->
  snd (kahn fuel E rem sorted) = [] \/
  (snd (kahn fuel E rem sorted) <> [] /\
   forall v, In v (snd (kahn fuel E rem sorted)) ->
     exists u, In u (snd (kahn fuel E rem sorted)) /\ In (u, v) E).
Proof.
  induction fuel as [|f IH]; intros rem sorted Hlen; cbn [kahn].
  - left. destruct rem; [reflexivity|cbn in Hlen; lia].
  - destruct (List.find _ rem) as [v0|] eqn:Hf.
    + apply IH. apply List.find_some in Hf as [Hin _].
      pose proof (List.remove_length_lt Nat.eq_dec rem v0 Hin). lia.
    + cbn [snd]. destruct rem as [|r0 rs]; [left; reflexivity|right].
      split; [discriminate|]. intros v Hv.
      pose proof (List.find_none _ _ Hf v Hv) as Hp. cbn beta in Hp.
      apply forallb_false_ex in Hp as ([a b] & HeE & He).
      cbn [fst snd] in He. apply Bool.negb_false_iff, andb_prop in He as [H2 H1].
      apply Nat.eqb_eq in H2. subst b.
      apply List.existsb_exists in H1 as (u & Hu & Hequ). apply Nat.eqb_eq in Hequ. subst u.
      exists a. auto.
Qed.

Lemma topo_sort_true_acyclic (g : graph) :
  (forall u v, In (u, v) (g_edges g) -> In u (g_nodes g) /\ In v (g_nodes g)) ->
  fst (topo_sort g) = true -> ~ has_cycle g.
Proof.
  intros Hc. unfold topo_sort.
  assert (Hinit : forall v, reach (g_edges g) v v -> In v (g_nodes g)).
  { intros v Hv. destruct (cycle_pred _ v Hv) as (y & Hy & _). apply (Hc y v Hy). }
  pose proof (kahn_keeps_cycle (g_edges g) (length (g_nodes g)) (g_nodes g) [] Hinit) as Hk.
  destruct (kahn _ _ _ _) as [s r]. cbn [fst snd] in *.
  destruct r as [|r0 rs]; [|discriminate]. intros _ [x Hx]. exact (Hk x Hx).
Qed.

Lemma topo_sort_false_cycle (g : graph) :
  fst (topo_sort g) = false -> has_cycle g.
Proof.
  unfold topo_sort.
  pose proof (kahn_stuck (g_edges g) (length (g_nodes g)) (g_nodes g) [] (le_n _)) as Hk.
  destruct (kahn _ _ _ _) as [s r]. cbn [fst snd] in *.
  destruct r as [|r0 rs]; [discriminate|]. intros _.
  destruct Hk as [Hk|[Hne Hs]]; [discriminate|]. exact (stuck_cycle _ _ Hne Hs).
Qed.

Lemma topo_graph_closed (st : order_state) (u v : nat) :
  In (u, v) (g_edges (topo_graph st)) ->
  In u (g_nodes (topo_graph st)) /\ In v (g_nodes (topo_graph st)).
Proof.
  cbn [topo_graph g_edges g_nodes]. intros H.
  split; apply in_or_app; right; apply in_flat_map; exists (u, v); cbn; auto.
Qed.

(** The flop-box pass changes only the values of [ff_bits]. *)
Lemma flop_pass_frame (st st' : order_state) :
  flop_pass st = Ok st' ->
  topo_graph st' = topo_graph st /\ abc9_box_seen st' = abc9_box_seen st.
Proof.
  unfold flop_pass. intros H. apply bind_Ok in H as [r [_ H]].
  apply Ok_inj in H. subst st'. split; reflexivity.
Qed.

(** With the [TopoSort] modelled above, once a box was seen and the
    flop-box pass went through, the pass stops exactly when the graph of
    the cells has a cycle. *)
Lemma order_phase_cycle (cells : list cell) (st st' : order_state) :
  foldM (classify_cell false) cells order_state0 = Ok st ->
  abc9_box_seen st = true -> flop_pass st = Ok st' ->
  (order_phase false cells = Err AssertFail <-> has_cycle (topo_graph st)) /\
  (order_phase false cells = Ok st' <-> ~ has_cycle (topo_graph st)).
Proof.
  intros Hst Hb Hf. pose proof (flop_pass_frame _ _ Hf) as [Hg _].
  unfold order_phase, order_phase_with. rewrite Hst. cbn [bind]. rewrite Hb, Hf. cbn [bind].
  rewrite Hg. destruct (fst (topo_sort (topo_graph st))) eqn:Hs; cbn [log_assert bind].
  - pose proof (topo_sort_true_acyclic _ (topo_graph_closed st) Hs) as Hac.
    split; [split; [discriminate|intros Hc; contradiction]|].
    split; [intros _; exact Hac|reflexivity].
  - pose proof (topo_sort_false_cycle _ Hs) as Hcy.
    split; [split; [intros _; exact Hcy|reflexivity]|].
    split; [discriminate|intros Hn; contradiction].
Qed.

(** ** C7 *)

(** C7 (amended): outside the holes module, once the cell scan has gone
    through, the [NOT], [AND] and box cells are ordered only when a box
    cell was seen.  With no box the pass ends there, whatever the graph,
    so a cycle among gates is not reported.  With a box, the flop-box pass
    runs first and its failure ends the pass before any sort; after it
    the pass stops exactly when [TopoSort::sort] reports a loop in the
    graph of the cells, at [log_assert(no_loops)], an assertion that names
    no cell. *)
Theorem orderer_asserts_only_with_boxes (sort : graph -> bool) (cells : list cell)
    (st : order_state) :
  foldM (classify_cell false) cells order_state0 = Ok st ->
  (abc9_box_seen st = false -> order_phase_with sort false cells = Ok st) /\
  (forall e, abc9_box_seen st = true -> flop_pass st = Err e ->
     order_phase_with sort false cells = Err e) /\
  (forall st', abc9_box_seen st = true -> flop_pass st = Ok st' ->
     order_phase_with sort false cells =
       if sort (topo_graph st) then Ok st' else Err AssertFail).
Proof.
  intros Hst. unfold order_phase_with. rewrite Hst. cbn [bind].
  split; [intros Hb; rewrite Hb; reflexivity|].
  split; [intros e Hb Hf; rewrite Hb, Hf; reflexivity|].
  intros st' Hb Hf. rewrite Hb, Hf. cbn [bind].
  rewrite (proj1 (flop_pass_frame _ _ Hf)).
  destruct (sort (topo_graph st)); reflexivity.
Qed.

Lemma orderer_asserts_only_with_boxes_witness :
  exists st st', foldM (classify_cell false) ex_box_loop_cells order_state0 = Ok st /\
    abc9_box_seen st = true /\ flop_pass st = Ok st' /\
    order_phase_with (fun g => fst (topo_sort g)) false ex_box_loop_cells =
      (if fst (topo_sort (topo_graph st)) then Ok st' else Err AssertFail).
Proof.
  destruct (foldM (classify_cell false) ex_box_loop_cells order_state0) as [st|e] eqn:E;
    [|vm_compute in E; discriminate].
  assert (Hb : abc9_box_seen st = true) by (vm_compute in E; injection E as <-; reflexivity).
  destruct (flop_pass st) as [st'|e] eqn:F;
    [|exfalso; vm_compute in E; injection E as <-; vm_compute in F; discriminate].
  exists st, st'. split; [reflexivity|]. split; [exact Hb|]. split; [exact F|].
  exact (proj2 (proj2 (orderer_asserts_only_with_boxes (fun g => fst (topo_sort g))
                         ex_box_loop_cells st E)) st' Hb F).
Defined.

(** C7 fails on [ex_loop_cells], two inverters in a loop and no box: the
    orderer accepts the cells, whatever [TopoSort::sort] would say,
    although their graph has the cycle [0 -> 1 -> 0]; on the tables with
    this [not_map] and no port the constructor then succeeds, so the loop
    is never reported. *)
Lemma gate_loop_not_reported :
  let st := match foldM (classify_cell false) ex_loop_cells order_state0 with
            | Ok st => st | Err _ => order_state0 end in
  (forall sort, order_phase_with sort false ex_loop_cells = Ok st) /\
  has_cycle (topo_graph st) /\ abc9_box_seen st = false /\
  c_not_map st = not_map ex_loop_tables /\
  exists w, construct 10 false ex_loop_tables = Ok w.
Proof.
  intros st. split; [intros sort; reflexivity|].
  split.
  { exists 0%nat. apply (reach_step _ 0 1 0).
    - vm_compute. left. reflexivity.
    - apply reach_one. vm_compute. right. left. reflexivity. }
  split; [vm_compute; reflexivity|].
  split; [vm_compute; reflexivity|].
  exists (match construct 10 false ex_loop_tables with Ok w => w | Err _ => writer_default end).
  vm_compute. reflexivity.
Qed.

(** ** The signal canonicalizer *)

Lemma sigmap_add_bit_node (sm : sigmap_model) (x : SigBit) :
  node_of (sigmap_add_bit sm x) = node_of sm /\ default_rep (sigmap_add_bit sm x) = default_rep sm.
Proof. unfold sigmap_add_bit. destruct (chosen sm !! node_of sm x); auto. Qed.

(** After adding the bits [l], a node keeps a representative chosen
    before, or else gets the first bit of [l] on it. *)
Lemma fold_add_bits (l : list SigBit) :
  forall sm b,
  sigmap_apply (fold_left sigmap_add_bit l sm) b =
  match chosen sm !! node_of sm b with
  | Some r => r
  | None => match List.find (fun x => Nat.eqb (node_of sm x) (node_of sm b)) l with
            | Some r => r
            | None => default_rep sm (node_of sm b)
            end
  end.
Proof.
  induction l as [|x xs IH]; intros sm b; cbn [fold_left List.find]; [reflexivity|].
  rewrite IH. destruct (sigmap_add_bit_node sm x) as [Hn Hd]. rewrite Hn, Hd.
  unfold sigmap_add_bit. destruct (chosen sm !! node_of sm x) as [r0|] eqn:Hx.
  - destruct (chosen sm !! node_of sm b) as [r|] eqn:Hb; [reflexivity|].
    destruct (Nat.eqb (node_of sm x) (node_of sm b)) eqn:E; [|reflexivity].
    apply Nat.eqb_eq in E. rewrite E in Hx. congruence.
  - cbn [chosen node_of default_rep]. rewrite lookup_insert.
    case_decide as E.
    + rewrite E in Hx. rewrite Hx. rewrite E, Nat.eqb_refl. reflexivity.
    + replace (Nat.eqb (node_of sm x) (node_of sm b)) with false
        by (symmetry; apply Nat.eqb_neq; congruence). reflexivity.
Qed.

Lemma fold_promote (P : rtl_wire -> bool) (wires : list rtl_wire) :
  forall sm,
  fold_left (fun sm w => if P w then sigmap_add sm w else sm) wires sm =
  fold_left sigmap_add_bit (flat_map wire_bits (List.filter P wires)) sm.
Proof.
  induction wires as [|w ws IH]; intros sm; cbn [fold_left List.filter]; [reflexivity|].
  destruct (P w); cbn [flat_map]; [|apply IH].
  rewrite fold_left_app. apply IH.
Qed.

Lemma promote_wires_fold (sm : sigmap_model) (wires : list rtl_wire) :
  promote_wires sm wires = fold_left sigmap_add_bit (promotion_order wires) sm.
Proof.
  unfold promote_wires, promotion_order. rewrite !fold_promote, !fold_left_app. reflexivity.
Qed.

Lemma find_app {A} (f : A -> bool) (l1 l2 : list A) :
  List.find f (l1 ++ l2) = match List.find f l1 with Some x => Some x | None => List.find f l2 end.
Proof. induction l1 as [|x xs IH]; cbn; [reflexivity|]. destruct (f x); auto. Qed.

Lemma find_exists {A} (f : A -> bool) (l : list A) :
  (exists p, In p l /\ f p = true) -> exists x, List.find f l = Some x /\ In x l /\ f x = true.
Proof.
  intros (p & Hp & Hfp). destruct (List.find f l) as [x|] eqn:E.
  - exists x. apply List.find_some in E. auto.
  - rewrite (List.find_none f l E p Hp) in Hfp. discriminate.
Qed.

Lemma find_not_exists {A} (f : A -> bool) (l : list A) :
  ~ (exists p, In p l /\ f p = true) -> List.find f l = None.
Proof.
  intros Hn. destruct (List.find f l) as [x|] eqn:E; [|reflexivity].
  exfalso. apply Hn. exists x. apply List.find_some in E. exact E.
Qed.

(** ** C4 *)

(** C4: after the three promotion loops, starting from a [SigMap] with
    no bit added, the representative of a node is the first bit on it
    among the bits of the public wires, then of the input wires, then of
    the output wires (in wire order); so a node touched by a public wire
    has a public wire bit as representative, and one touched by no public
    wire but by an input wire has an input wire bit. *)
Theorem promotion_priority (no : SigBit -> nat) (dr : nat -> SigBit)
    (wires : list rtl_wire) (b : SigBit) :
  let sm := promote_wires {| node_of := no; default_rep := dr; chosen := ∅ |} wires in
  let on_node := fun x => Nat.eqb (no x) (no b) in
  sigmap_apply sm b =
    match List.find on_node (promotion_order wires) with Some r => r | None => dr (no b) end /\
  ((exists p, In p (flat_map wire_bits (List.filter is_public wires)) /\ no p = no b) ->
     In (sigmap_apply sm b) (flat_map wire_bits (List.filter is_public wires)) /\
     no (sigmap_apply sm b) = no b) /\
  (~ (exists p, In p (flat_map wire_bits (List.filter is_public wires)) /\ no p = no b) ->
   (exists p, In p (flat_map wire_bits (List.filter port_input wires)) /\ no p = no b) ->
     In (sigmap_apply sm b) (flat_map wire_bits (List.filter port_input wires)) /\
     no (sigmap_apply sm b) = no b).
Proof.
  intros sm on_node.
  assert (Hs : sigmap_apply sm b =
    match List.find on_node (promotion_order wires) with Some r => r | None => dr (no b) end).
  { subst sm. rewrite promote_wires_fold, fold_add_bits. cbn [chosen node_of default_rep].
    rewrite lookup_empty. reflexivity. }
  split; [exact Hs|]. rewrite Hs. unfold promotion_order. rewrite !find_app.
  split.
  - intros (p & Hp & Hnp).
    destruct (find_exists on_node _ (ex_intro _ p (conj Hp (proj2 (Nat.eqb_eq _ _) Hnp))))
      as (x & -> & Hx & Hfx).
    split; [exact Hx|apply Nat.eqb_eq, Hfx].
  - intros Hnpub (p & Hp & Hnp).
    rewrite find_not_exists.
    2: { intros (q & Hq & Hfq). apply Hnpub. exists q. split; [exact Hq|apply Nat.eqb_eq, Hfq]. }
    destruct (find_exists on_node _ (ex_intro _ p (conj Hp (proj2 (Nat.eqb_eq _ _) Hnp))))
      as (x & -> & Hx & Hfx).
    split; [exact Hx|apply Nat.eqb_eq, Hfx].
Qed.

Lemma promotion_priority_witness :
  sigmap_apply (promote_wires ex_sigmap0 ex_wires) (SBWire 2 0) = SBWire 0 0 /\
  (let sm := promote_wires ex_sigmap0 ex_wires in
   let on_node := fun x => Nat.eqb ((fun _ : SigBit => 0%nat) x) ((fun _ : SigBit => 0%nat) (SBWire 2 0)) in
   sigmap_apply sm (SBWire 2 0) =
     match List.find on_node (promotion_order ex_wires) with
     | Some r => r | None => (fun _ : nat => SBWire 2 0) 0%nat end /\
   ((exists p, In p (flat_map wire_bits (List.filter is_public ex_wires)) /\ 0%nat = 0%nat) ->
      In (sigmap_apply sm (SBWire 2 0)) (flat_map wire_bits (List.filter is_public ex_wires)) /\
      0%nat = 0%nat) /\
   (~ (exists p, In p (flat_map wire_bits (List.filter is_public ex_wires)) /\ 0%nat = 0%nat) ->
    (exists p, In p (flat_map wire_bits (List.filter port_input ex_wires)) /\ 0%nat = 0%nat) ->
      In (sigmap_apply sm (SBWire 2 0)) (flat_map wire_bits (List.filter port_input ex_wires)) /\
      0%nat = 0%nat)).
Proof.
  split; [vm_compute; reflexivity|].
  exact (promotion_priority (fun _ => 0%nat) (fun _ => SBWire 2 0) ex_wires (SBWire 2 0)).
Defined.

(* ------------------------------------------------------------------ *)
(** ** Further properties of the writer *)

Lemma land_small_128 (a : Z) : 0 <= a < 128 -> Z.land a 128 = 0.
Proof.
  intros Ha. apply Z.bits_inj'; intros n Hn.
  rewrite Z.land_spec, Z.testbit_0_l.
  change 128 with (2 ^ 7). rewrite Z.pow2_bits_eqb by lia.
  destruct (Z.eqb_spec 7 n) as [<-|_]; [|apply andb_false_r].
  rewrite testbit7_small by lia. reflexivity.
Qed.

Lemma cont_byte_val (x : Z) : Z.lor (Z.land x 127) 128 = x mod 128 + 128.
Proof.
  change 127 with (Z.ones 7). rewrite Z.land_ones by lia. change (2 ^ 7) with 128.
  assert (Ha : 0 <= x mod 128 < 128) by (apply Z.mod_pos_bound; lia).
  rewrite <- Z.lxor_lor by (apply land_small_128; exact Ha).
  rewrite <- Z.add_nocarry_lxor by (apply land_small_128; exact Ha).
  reflexivity.
Qed.

Lemma enc_loop_shape (f : nat) :
  forall x, 0 <= x < 128 ^ Z.of_nat (S f) ->
  enc_loop f x <> [] /\ Forall (fun b => 128 <= b < 256) (removelast (enc_loop f x)) /\
  0 <= last (enc_loop f x) 0 < 128 /\ x < 128 ^ Z.of_nat (length (enc_loop f x)) /\
  ((1 < length (enc_loop f x))%nat -> 128 ^ (Z.of_nat (length (enc_loop f x)) - 1) <= x).
Proof.
  induction f as [|f IH]; intros x Hx.
  - cbn [enc_loop]. cbn [removelast last length].
    split; [discriminate|]. split; [constructor|].
    split; [cbn in Hx; lia|]. split; [cbn in Hx |- *; lia|]. lia.
  - cbn [enc_loop]. rewrite high_bits_zero by lia.
    destruct (x <? 128) eqn:Hs; cbn [negb].
    + apply Z.ltb_lt in Hs. cbn [removelast last length].
      split; [discriminate|]. split; [constructor|].
      split; [lia|]. split; [cbn; lia|]. lia.
    + apply Z.ltb_ge in Hs.
      assert (Hq : 0 <= Z.shiftr x 7 < 128 ^ Z.of_nat (S f)).
      { rewrite Z.shiftr_div_pow2 by lia. change (2 ^ 7) with 128. split.
        - apply Z.div_pos; lia.
        - apply Z.div_lt_upper_bound; [lia|].
          rewrite Nat2Z.inj_succ, Z.pow_succ_r in Hx by lia. lia. }
      assert (Hq7 : 1 <= Z.shiftr x 7).
      { rewrite Z.shiftr_div_pow2 by lia. change (2 ^ 7) with 128.
        apply Z.div_le_lower_bound; lia. }
      destruct (IH _ Hq) as (Hne & Hf & Hl & Hlt & Hge).
      assert (Hd : x = 128 * Z.shiftr x 7 + x mod 128).
      { rewrite Z.shiftr_div_pow2 by lia. change (2 ^ 7) with 128. apply Z.div_mod. lia. }
      assert (Hm : 0 <= x mod 128 < 128) by (apply Z.mod_pos_bound; lia).
      set (r := enc_loop f (Z.shiftr x 7)) in *.
      destruct r as [|r0 rs] eqn:Er; [congruence|].
      change (removelast (Z.lor (Z.land x 127) 128 :: r0 :: rs))
        with (Z.lor (Z.land x 127) 128 :: removelast (r0 :: rs)).
      change (last (Z.lor (Z.land x 127) 128 :: r0 :: rs) 0) with (last (r0 :: rs) 0).
      change (length (Z.lor (Z.land x 127) 128 :: r0 :: rs)) with (S (length (r0 :: rs))).
      rewrite cont_byte_val.
      split; [discriminate|]. split; [constructor; [lia|exact Hf]|].
      split; [exact Hl|].
      rewrite Nat2Z.inj_succ, Z.pow_succ_r by lia.
      split; [lia|]. intros _.
      replace (Z.succ (Z.of_nat (length (r0 :: rs))) - 1) with (Z.of_nat (length (r0 :: rs))) by lia.
      destruct (length (r0 :: rs)) as [|[|n]] eqn:El; [discriminate| |].
      * cbn. lia.
      * assert (H1 : 128 ^ (Z.of_nat (S (S n)) - 1) <= Z.shiftr x 7) by (apply Hge; lia).
        replace (Z.of_nat (S (S n))) with (Z.succ (Z.of_nat (S (S n)) - 1)) by lia.
        rewrite Z.pow_succ_r by lia. lia.
Qed.

(** X1: aiger_encode fails its assertion exactly on negative numbers. For 0
    <= x < 2^31 it writes a non-empty byte string: every byte but the last
    is in [128, 256) with the continuation bit set, and the last is below
    128. The string has the fewest bytes needed: x < 128^len, and x >=
    128^(len-1) when there is more than one byte. *)
Theorem aiger_encode_bytes (x : Z) :
  (aiger_encode x = Err AssertFail <-> x < 0) /\
  (0 <= x < 2 ^ 31 ->
   exists bs, aiger_encode x = Ok bs /\ bs <> [] /\
     Forall (fun b => 128 <= b < 256) (removelast bs) /\ 0 <= last bs 0 < 128 /\
     x < 128 ^ Z.of_nat (length bs) /\
     ((1 < length bs)%nat -> 128 ^ (Z.of_nat (length bs) - 1) <= x)).
Proof.
  split.
  - unfold aiger_encode, log_assert. destruct (Z.leb_spec 0 x); cbn [bind].
    + split; [discriminate|lia].
    + split; [lia|reflexivity].
  - intros Hx. unfold aiger_encode, log_assert.
    replace (0 <=? x) with true by (symmetry; apply Z.leb_le; lia). cbn [bind].
    eexists; split; [reflexivity|]. apply enc_loop_shape.
    split; [lia|]. change (128 ^ Z.of_nat 6) with (2 ^ 42). 
    apply (Z.lt_le_trans _ (2 ^ 31)); [lia|]. apply Z.pow_le_mono_r; lia.
Qed.

(** X2: bit2aig only ever appends to the gate list: when it succeeds, the
    new gate list is the old one followed by some gates gs, aig_m and
    aig_a have each grown by exactly the number of gates in gs, and every
    appended gate has its larger literal first. *)
Theorem bit2aig_appends_gates (T : tables) (d : nat) :
  forall (s : aigstate) (b : SigBit) (s' : aigstate) (a : Z),
  bit2aig d T s b = Ok (s', a) ->
  exists gs, aig_gates s' = aig_gates s ++ gs /\
    aig_m s' = aig_m s + Z.of_nat (length gs) /\
    aig_a s' = aig_a s + Z.of_nat (length gs) /\
    Forall (fun g => g.2 <= g.1) gs.
Proof.
  assert (Hfin : forall bit s0 a0 s' a,
             bit2aig_finish bit s0 a0 = Ok (s', a) ->
             aig_gates s' = aig_gates s0 /\ aig_m s' = aig_m s0 /\ aig_a s' = aig_a s0).
  { intros bit s0 a0 s' a H. unfold bit2aig_finish in H.
    unbind H. unbind H. injection H as <- <-. cbn. tauto. }
  induction d as [|d IH]; intros s b s' a H; cbn [bit2aig] in H;
    destruct (aig_map s !! b) as [a0|] eqn:Hb; try discriminate;
    try (unbind H; cbn beta in H; injection H as <- <-;
         exists []; rewrite app_nil_r; cbn; repeat split; [lia|lia|constructor]).
  unbind H. destruct x as [s1 a1]. cbn [fst snd] in H.
  destruct (Hfin _ _ _ _ _ H) as (Hg & Hm & Ha). rewrite Hg, Hm, Ha. clear H Hg Hm Ha.
  destruct (not_map T !! b) as [nb|].
  - unbind E. injection E as <- <-. destruct x as [s0 a0]. cbn [fst snd].
    exact (IH _ _ _ _ E0).
  - destruct (and_map T !! b) as [[x y]|].
    + unbind E. unbind E. destruct x0 as [s0 a0], x1 as [s2 a2]. cbn [fst snd] in *.
      destruct (IH _ _ _ _ E0) as (gs0 & Hg0 & Hm0 & Ha0 & Hf0).
      destruct (IH _ _ _ _ E1) as (gs2 & Hg2 & Hm2 & Ha2 & Hf2).
      unfold mkgate in E. injection E as <- <-. cbn.
      exists (gs0 ++ gs2 ++ [if a0 >? a2 then (a0, a2) else (a2, a0)]).
      rewrite Hg2, Hg0, !app_assoc. split; [reflexivity|].
      rewrite !length_app. cbn [length].
      split; [lia|]. split; [lia|].
      apply Forall_app; split; [apply Forall_app; split; assumption|].
      constructor; [|constructor]. destruct (Z.gtb_spec a0 a2); cbn; lia.
    + destruct (alias_map T !! b) as [ab|].
      * exact (IH _ _ _ _ E).
      * injection E as <- <-. exists []. rewrite app_nil_r. cbn.
        repeat split; [lia|lia|constructor].
Qed.

(** X4: If aig_map maps State::S0 to a0 and every x or z bit already in
    aig_map to a0, a successful bit2aig keeps this true, and it returns a0
    for an x or z bit: x and z are treated as constant 0. *)
Theorem bit2aig_x_z (T : tables) (d : nat) :
  forall (a0 : Z) (s : aigstate) (b : SigBit) (s' : aigstate) (a : Z),
  xz_inv a0 s -> bit2aig d T s b = Ok (s', a) ->
  xz_inv a0 s' /\ (is_x_or_z b = true -> a = a0).
Proof.
  induction d as [|d IH]; intros a0 s b s' a Hi H; cbn [bit2aig] in H.
  - destruct (aig_map s !! b) as [c|] eqn:Ec; [|discriminate].
    apply bind_Ok in H as [u [_ H]]. injection H as <- <-.
    split; [exact Hi|]. intros Hx. exact (proj2 Hi _ _ Hx Ec).
  - destruct (aig_map s !! b) as [c|] eqn:Ec.
    { apply bind_Ok in H as [u [_ H]]. injection H as <- <-.
      split; [exact Hi|]. intros Hx. exact (proj2 Hi _ _ Hx Ec). }
    apply bind_Ok in H as [[s1 a1] [Er H]]. cbn [fst snd] in H.
    assert (Hi1 : xz_inv a0 s1).
    { destruct (not_map T !! b) as [nb|].
      - apply bind_Ok in Er as [[t c] [E1 Er]]. injection Er as <- <-.
        exact (proj1 (IH _ _ _ _ _ Hi E1)).
      - destruct (and_map T !! b) as [[x y]|].
        + apply bind_Ok in Er as [[t c] [E1 Er]]. apply bind_Ok in Er as [[t2 c2] [E2 Er]].
          apply Ok_inj in Er. unfold mkgate in Er. cbn [fst snd] in *.
          pose proof (proj1 (IH _ _ _ _ _ Hi E1)) as Ht.
          pose proof (proj1 (IH _ _ _ _ _ Ht E2)) as Ht2.
          injection Er as <- <-. exact Ht2.
        + destruct (alias_map T !! b) as [ab|].
          * exact (proj1 (IH _ _ _ _ _ Hi Er)).
          * injection Er as <- <-. exact Hi. }
    unfold bit2aig_finish in H.
    destruct (is_x_or_z b) eqn:Hx.
    + unfold at_ in H. rewrite (proj1 Hi1) in H. cbn [bind] in H.
      apply bind_Ok in H as [u [_ H]]. injection H as <- <-.
      split; [|intros _; reflexivity]. split.
      * cbn. rewrite lookup_insert_ne by (destruct b as [[]|]; discriminate).
        exact (proj1 Hi1).
      * intros b' a' Hx' E. cbn in E. destruct (decide (b = b')) as [<-|Hne].
        -- rewrite lookup_insert_eq in E. congruence.
        -- rewrite lookup_insert_ne in E by exact Hne. exact (proj2 Hi1 _ _ Hx' E).
    + cbn [bind] in H. apply bind_Ok in H as [u [_ H]]. injection H as <- <-.
      split; [|discriminate]. split.
      * cbn. rewrite lookup_insert_ne by (intros ->; rewrite (proj1 Hi) in Ec; discriminate).
        exact (proj1 Hi1).
      * intros b' a' Hx' E. cbn in E. destruct (decide (b = b')) as [<-|Hne].
        -- congruence.
        -- rewrite lookup_insert_ne in E by exact Hne. exact (proj2 Hi1 _ _ Hx' E).
Qed.

Lemma alloc_pis_app (l1 l2 : list SigBit) (s : aigstate) :
  alloc_pis (l1 ++ l2) s = bind (alloc_pis l1 s) (alloc_pis l2).
Proof.
  revert s. induction l1 as [|b l1 IH]; intros s; cbn [app alloc_pis]; [reflexivity|].
  destruct (log_assert _); cbn [bind]; [apply IH|reflexivity].
Qed.

Lemma alloc_pis_err (bits : list SigBit) (s : aigstate) (e : xerr) :
  alloc_pis bits s = Err e -> e = AssertFail.
Proof.
  revert s. induction bits as [|b bits IH]; intros s H; cbn [alloc_pis] in H; [discriminate|].
  unfold log_assert in H. destruct (negb _); cbn [bind] in H; [exact (IH _ H)|congruence].
Qed.

Lemma alloc_pis_spec (bits : list SigBit) :
  forall s s', alloc_pis bits s = Ok s' ->
  List.NoDup bits /\ (forall b, In b bits -> aig_map s !! b = None) /\
  (forall (k : nat) b, bits !! k = Some b -> aig_map s' !! b = Some (2 * (aig_m s + Z.of_nat k + 1))) /\
  map_incl (aig_map s) (aig_map s') /\
  aig_i s' = aig_i s + Z.of_nat (length bits) /\ aig_m s' = aig_m s + Z.of_nat (length bits) /\
  (forall b, ~ In b bits -> aig_map s' !! b = aig_map s !! b).
Proof.
  induction bits as [|b bits IH]; intros s s' H; cbn [alloc_pis] in H.
  - injection H as <-. split; [constructor|]. split; [intros b []|].
    split; [intros k b Hk; rewrite lookup_nil in Hk; discriminate|].
    split; [apply map_incl_refl|]. cbn. split; [lia|]. split; [lia|]. reflexivity.
  - apply bind_Ok in H as [u [Ha H]]. apply log_assert_Ok in Ha.
    apply negb_true_iff, bool_decide_eq_false in Ha. cbn in Ha.
    apply IH in H as (Hnd & Hab & Hk & Hinc & Hi & Hm & Hfr). cbn in Hab, Hk, Hi, Hm, Hfr.
    assert (Hb : aig_map s !! b = None) by (destruct (aig_map s !! b); [exfalso; apply Ha; eauto|reflexivity]).
    split; [constructor; [|exact Hnd]|].
    { intros Hin. specialize (Hab _ Hin). rewrite lookup_insert_eq in Hab. discriminate. }
    split.
    { intros b' [<-|Hin]; [exact Hb|]. specialize (Hab _ Hin).
      destruct (decide (b = b')) as [<-|Hne]; [rewrite lookup_insert_eq in Hab; discriminate|].
      rewrite lookup_insert_ne in Hab by exact Hne. exact Hab. }
    split.
    { intros [|k] b' Hkb; cbn in Hkb.
      - injection Hkb as <-. apply Hinc. cbn. rewrite lookup_insert_eq. f_equal. lia.
      - rewrite (Hk _ _ Hkb). f_equal. lia. }
    split.
    { intros x v Hx. apply Hinc. cbn. rewrite lookup_insert_ne; [exact Hx|].
      intros ->. congruence. }
    cbn [length]. split; [lia|]. split; [lia|].
    intros b' Hn. rewrite Hfr by (intros Hin; apply Hn; now right).
    rewrite lookup_insert_ne; [reflexivity|]. intros ->; apply Hn; now left.
Qed.

(** [aig_map] grows along [alloc_cis], and a box output bit not yet
    numbered gets the next input literal. *)
Lemma alloc_cis_fresh (bits : list SigBit) :
  forall s ffm,
  map_incl (aig_map s) (aig_map (fst (alloc_cis bits s ffm))) /\
  aig_i (fst (alloc_cis bits s ffm)) = aig_i s + Z.of_nat (length bits) /\
  forall (j : nat) b, bits !! j = Some b -> aig_map s !! b = None -> b ∉ take j bits ->
    aig_map (fst (alloc_cis bits s ffm)) !! b = Some (2 * (aig_m s + Z.of_nat j + 1)).
Proof.
  induction bits as [|c bits IH]; intros s ffm; cbn [alloc_cis].
  - split; [apply map_incl_refl|]. split; [cbn; lia|].
    intros j b Hj; rewrite lookup_nil in Hj; discriminate.
  - destruct (aig_map (bump_input s) !! c) as [v|] eqn:Ec.
    + destruct (IH (bump_input s) (<[c := 2 * aig_m (bump_input s)]> ffm)) as (Hinc & Hi & Hf).
      split; [exact Hinc|]. split; [cbn in Hi |- *; lia|].
      intros [|j] b Hj Hn Ht; cbn in Hj.
      * injection Hj as <-. cbn in Ec. congruence.
      * rewrite (Hf j b Hj Hn); [cbn; f_equal; lia|].
        intros Hin. apply Ht. cbn. now right.
    + set (s1 := set_aig_map _ _).
      destruct (IH s1 ffm) as (Hinc & Hi & Hf).
      split.
      { intros x w Hx. apply Hinc. cbn. rewrite lookup_insert_ne; [exact Hx|].
        intros ->. cbn in Ec. congruence. }
      split; [cbn in Hi |- *; lia|].
      intros [|j] b Hj Hn Ht; cbn in Hj.
      * injection Hj as <-. apply Hinc. cbn. rewrite lookup_insert_eq. f_equal. lia.
      * assert (Hcb : c <> b) by (intros ->; apply Ht; cbn; now left).
        rewrite (Hf j b Hj); [cbn; f_equal; lia| |].
        { cbn. rewrite lookup_insert_ne by exact Hcb. exact Hn. }
        intros Hin. apply Ht. cbn. now right.
Qed.

Lemma emit_bits_i (d : nat) (T : tables) (bits : list SigBit) :
  forall s s', emit_bits d T bits s = Ok s' -> aig_i s' = aig_i s.
Proof.
  induction bits as [|b bits IH]; intros s s' H; cbn [emit_bits] in H; [congruence|].
  apply bind_Ok in H as [[t a] [E H]]. apply IH in H. cbn in H.
  apply bit2aig_frame in E as [Hi _]. cbn in Hi. lia.
Qed.

Lemma emit_ffs_i (ffm : gmap SigBit Z) (ffs : list (SigBit * Z)) :
  forall s s', emit_ffs ffm ffs s = Ok s' -> aig_i s' = aig_i s.
Proof.
  induction ffs as [|[b c] ffs IH]; intros s s' H; cbn [emit_ffs] in H; [congruence|].
  apply bind_Ok in H as [a [_ H]]. apply IH in H. exact H.
Qed.

(** X5: When the constructor succeeds: State::S0, State::S1, the input bits
    and the register bits are pairwise distinct. The k-th input gets
    literal 2*(k+1), and the j-th register gets 2*(#inputs+j+1). The j-th
    combinational input that is neither a constant, an input, a register
    nor an earlier combinational input gets 2*(#inputs+#registers+j+1).
    aig_i ends at #inputs + #registers + #combinational inputs. *)
Theorem construct_numbering (d : nat) (z : bool) (T : tables) (w : writer) :
  construct d z T = Ok w ->
  let s := wstate w in
  let nin := Z.of_nat (length (input_bits T)) in
  let nff := Z.of_nat (length (ff_bits T)) in
  List.NoDup (SBConst S0 :: SBConst S1 :: input_bits T ++ map fst (ff_bits T)) /\
  (forall (k : nat) b, input_bits T !! k = Some b -> aig_map s !! b = Some (2 * (Z.of_nat k + 1))) /\
  (forall (j : nat) ff, ff_bits T !! j = Some ff ->
     aig_map s !! ff.1 = Some (2 * (nin + Z.of_nat j + 1))) /\
  (forall (j : nat) b, ci_bits T !! j = Some b ->
     b ∉ SBConst S0 :: SBConst S1 :: input_bits T ++ map fst (ff_bits T) ->
     b ∉ take j (ci_bits T) ->
     aig_map s !! b = Some (2 * (nin + nff + Z.of_nat j + 1))) /\
  aig_i s = nin + nff + Z.of_nat (length (ci_bits T)).
Proof.
  intros H. unfold construct in H.
  apply bind_Ok in H as [s1 [E1 H]]. apply bind_Ok in H as [s2 [E2 H]].
  destruct (alloc_cis (ci_bits T) s2 ∅) as [s3 ffm] eqn:E3.
  apply bind_Ok in H as [s4 [E4 H]].
  destruct (match output_bits T with [] => _ | _ => _ end) as [ob om] eqn:Eob.
  apply bind_Ok in H as [s5 [E5 H]]. apply bind_Ok in H as [s6 [E6 H]].
  assert (Hw : aig_map (wstate w) = aig_map s6 /\ aig_i (wstate w) = aig_i s6).
  { destruct ob; cbn in H; apply Ok_inj in H; subst w; split; reflexivity. }
  destruct Hw as [Hm7 Hi7]. cbn zeta.
  assert (E12 : alloc_pis (input_bits T ++ map fst (ff_bits T))
                  (set_aig_map (<[SBConst S1 := 1]> (<[SBConst S0 := 0]> ∅)) aigstate0) = Ok s2).
  { rewrite alloc_pis_app, E1. exact E2. }
  apply alloc_pis_spec in E12 as (Hnd & Hab & Hk & Hinc2 & Hi2 & Hm2 & Hfr2).
  cbn in Hab, Hk, Hi2, Hm2, Hfr2.
  pose proof (alloc_cis_fresh (ci_bits T) s2 ∅) as (Hinc3 & Hi3 & Hf3).
  rewrite E3 in Hinc3, Hi3, Hf3. cbn [fst] in Hinc3, Hi3, Hf3.
  destruct (emit_bits_facts _ _ _ _ _ E4) as (_ & _ & _ & Hinc4).
  destruct (emit_bits_facts _ _ _ _ _ E5) as (_ & _ & _ & Hinc5).
  destruct (emit_ffs_facts _ _ _ _ E6) as (_ & _ & _ & Hm6).
  pose proof (emit_bits_i _ _ _ _ _ E4) as Hi4. pose proof (emit_bits_i _ _ _ _ _ E5) as Hi5.
  pose proof (emit_ffs_i _ _ _ _ E6) as Hi6.
  assert (Hinc : map_incl (aig_map s2) (aig_map (wstate w))).
  { rewrite Hm7, Hm6. eapply map_incl_trans; [exact Hinc3|].
    eapply map_incl_trans; [exact Hinc4|exact Hinc5]. }
  rewrite length_app, length_map, Nat2Z.inj_add in Hi2, Hm2.
  split.
  { constructor; [|constructor; [|exact Hnd]].
    - intros [Heq|Hin]; [discriminate|]. specialize (Hab _ Hin).
      rewrite lookup_insert_ne, lookup_insert_eq in Hab by discriminate. discriminate.
    - intros Hin. specialize (Hab _ Hin). rewrite lookup_insert_eq in Hab. discriminate. }
  split.
  { intros k b Hkb. apply Hinc. rewrite (Hk k b); [f_equal; lia|].
    rewrite lookup_app_l; [exact Hkb|]. apply lookup_lt_Some in Hkb. exact Hkb. }
  split.
  { intros j ff Hj. apply Hinc. rewrite (Hk (length (input_bits T) + j)%nat ff.1); [f_equal; lia|].
    rewrite lookup_app_r by lia. replace (length (input_bits T) + j - length (input_bits T))%nat with j by lia.
    rewrite list_lookup_fmap, Hj. reflexivity. }
  split.
  { intros j b Hj Hn Ht. rewrite Hm7, Hm6. apply Hinc5, Hinc4.
    rewrite (Hf3 j b Hj); [f_equal; lia| |exact Ht].
    rewrite Hfr2.
    - rewrite lookup_insert_ne by (intros <-; apply Hn, list_elem_of_In; cbn; tauto).
      rewrite lookup_insert_ne by (intros <-; apply Hn, list_elem_of_In; cbn; tauto).
      apply lookup_empty.
    - intros Hin. apply Hn, list_elem_of_In. cbn; tauto. }
  rewrite Hi7, Hi6, Hi5, Hi4, Hi3, Hi2. lia.
Qed.

(** X6: If an input bit or a register bit repeats, or equals State::S0 or
    State::S1, the constructor fails its assertion !aig_map.count(bit). *)
Theorem construct_numbering_fails (d : nat) (z : bool) (T : tables) :
  ~ List.NoDup (SBConst S0 :: SBConst S1 :: input_bits T ++ map fst (ff_bits T)) ->
  construct d z T = Err AssertFail.
Proof.
  intros Hnd. unfold construct.
  destruct (alloc_pis (input_bits T) _) as [s1|e] eqn:E1; cbn [bind];
    [|f_equal; exact (alloc_pis_err _ _ _ E1)].
  destruct (alloc_pis (map fst (ff_bits T)) s1) as [s2|e] eqn:E2; cbn [bind];
    [|f_equal; exact (alloc_pis_err _ _ _ E2)].
  exfalso. apply Hnd.
  assert (E12 : alloc_pis (input_bits T ++ map fst (ff_bits T))
                  (set_aig_map (<[SBConst S1 := 1]> (<[SBConst S0 := 0]> ∅)) aigstate0) = Ok s2).
  { rewrite alloc_pis_app, E1. exact E2. }
  apply alloc_pis_spec in E12 as (Hnd' & Hab & _). cbn in Hab.
  constructor; [|constructor; [|exact Hnd']].
  - intros [Heq|Hin]; [discriminate|]. specialize (Hab _ Hin).
    rewrite lookup_insert_ne, lookup_insert_eq in Hab by discriminate. discriminate.
  - intros Hin. specialize (Hab _ Hin). rewrite lookup_insert_eq in Hab. discriminate.
Qed.

Lemma mapM_ok {A B} (f : A -> result B) (l : list A) :
  (forall x, In x l -> exists y, f x = Ok y) -> exists ys, mapM f l = Ok ys.
Proof.
  induction l as [|x l IH]; intros H; cbn [mapM]; [eauto|].
  destruct (H x (or_introl eq_refl)) as [y Ey]. rewrite Ey. cbn [bind].
  destruct IH as [ys Eys]; [intros x' Hx'; apply H; now right|].
  rewrite Eys. cbn [bind]. eauto.
Qed.

Lemma in_zrange (lo hi i : Z) : In i (zrange lo hi) -> lo <= i < hi.
Proof.
  unfold zrange. intros Hi. apply in_map_iff in Hi as [k [<- Hk]].
  apply in_seq in Hk. lia.
Qed.

Lemma write_body_ok (s : aigstate) (ascii_mode : bool) :
  builder_inv (aig_i s) s -> aig_o s = Z.of_nat (length (aig_outputs s)) ->
  exists body, write_body s ascii_mode = Ok body.
Proof.
  intros (_ & Hl & HI & Ha & Hm & _ & Hg) Ho.
  assert (Hvat : forall i, In i (zrange 0 (aig_a s)) ->
            exists g, vat (aig_gates s) i = Ok g /\ 0 <= snd g <= fst g /\
                      fst g < 2 * (aig_i s + i + 1)).
  { intros i Hi. apply in_zrange in Hi.
    destruct (lookup_lt_is_Some_2 (aig_gates s) (Z.to_nat i)) as [[x y] Hxy]; [lia|].
    exists (x, y). unfold vat. replace (i <? 0) with false by (symmetry; apply Z.ltb_ge; lia).
    rewrite Hxy. split; [reflexivity|]. destruct (Hg _ _ _ Hxy) as [H1 H2].
    cbn. split; [lia|]. rewrite Z2Nat.id in H2 by lia. exact H2. }
  unfold write_body. cbv zeta. rewrite zrange_empty, (output_lines_ok s Ho). cbn [mapM bind].
  destruct ascii_mode.
  - destruct (mapM_ok (fun i => Ok (decimal (2 * i + 2) ++ newline)) (zrange 0 (aig_i s)))
      as [ins Eins]; [eauto|].
    rewrite Eins. cbn [bind].
    destruct (mapM_ok (fun i => g <- vat (aig_gates s) i ;;
                  Ok (decimal (2 * (aig_i s + aig_l s + i) + 2) ++ space ++
                      decimal (fst g) ++ space ++ decimal (snd g) ++ newline))
               (zrange 0 (aig_a s))) as [gs Egs].
    { intros i Hi. destruct (Hvat i Hi) as [g [Eg _]]. rewrite Eg. cbn [bind]. eauto. }
    rewrite Egs. cbn [bind]. eauto.
  - destruct (mapM_ok (fun i =>
                  g <- vat (aig_gates s) i ;;
                  e0 <- aiger_encode (2 * (aig_i s + aig_l s + i) + 2 - fst g) ;;
                  e1 <- aiger_encode (fst g - snd g) ;;
                  Ok (e0 ++ e1))
               (zrange 0 (aig_a s))) as [gs Egs].
    { intros i Hi. destruct (Hvat i Hi) as [g [Eg [Hg1 Hg2]]]. rewrite Eg. cbn [bind].
      unfold aiger_encode, log_assert.
      replace (0 <=? _ - fst g) with true by (symmetry; apply Z.leb_le; lia).
      replace (0 <=? fst g - snd g) with true by (symmetry; apply Z.leb_le; lia).
      cbn [bind]. eauto. }
    rewrite Egs. cbn [bind]. eauto.
Qed.

Lemma mapM_r_entry_cases (e : endian) (T : tables) (ffs : list (SigBit * Z)) :
  match mapM (r_entry e T) ffs with
  | Ok _ => Forall (fun ff => 0 < ff.2) ffs
  | Err x => x = AssertFail /\ Exists (fun ff => ff.2 <= 0) ffs
  end.
Proof.
  induction ffs as [|ff ffs IH]; cbn [mapM]; [constructor|].
  unfold r_entry at 1, log_assert. destruct (Z.gtb_spec ff.2 0); cbn [bind].
  - destruct (mapM (r_entry e T) ffs); cbn [bind].
    + constructor; [lia|exact IH].
    + split; [apply IH|]. apply Exists_cons; right; apply IH.
  - split; [reflexivity|]. apply Exists_cons; left; cbn; lia.
Qed.

(** In the model of [write_aiger] above, the only failure left on a
    writer the constructor built is the assertion [i.second > 0] of the
    [r] section (lines 815-825). *)
Lemma write_aiger_classes_cases (env : environment) (d : nat) (z : bool) (T : tables)
    (w : writer) (ascii_mode : bool) :
  construct d z T = Ok w ->
  match write_aiger env w ascii_mode with
  | Ok _ => Forall (fun ff => 0 < ff.2) (ff_bits T)
  | Err e => e = AssertFail /\ Exists (fun ff => ff.2 <= 0) (ff_bits T)
  end.
Proof.
  intros H. destruct (construct_inv _ _ _ _ H) as (Hb & Ho & _ & Hne & _ & Hff & _ & _).
  destruct (write_body_ok (wstate w) ascii_mode Hb Ho) as [body Eb].
  destruct Hb as (_ & Hl & _ & _ & Hm & _).
  unfold write_aiger. cbv zeta.
  replace (aig_m (wstate w) =? _) with true by (symmetry; apply Z.eqb_eq; lia).
  replace (aig_o (wstate w) =? _) with true by (symmetry; apply Z.eqb_eq; lia).
  cbn [log_assert bind]. rewrite Eb. cbn [bind].
  rewrite (bool_decide_eq_false_2 _ Hne). cbn [negb log_assert bind].
  rewrite Hff. pose proof (mapM_r_entry_cases (host env) (wtables w) (ff_bits T)) as Hr.
  destruct (ff_bits T) as [|ff ffs] eqn:Ef.
  - rewrite orb_false_r. destruct (negb _); cbn [mapM bind]; constructor.
  - rewrite (bool_decide_eq_false_2 (ff :: ffs = []) ltac:(discriminate)), orb_true_r.
    destruct (mapM (r_entry (host env) (wtables w)) (ff :: ffs)); cbn [bind]; exact Hr.
Qed.

(** X7: On a writer the constructor built, write_aiger never succeeds
    unless every register's mergeability class is positive: whenever it
    returns the AIGER bytes, every entry of ff_bits has class > 0 (the
    assertion i.second > 0 of the r section, line 820). *)
Theorem write_aiger_classes (env : environment) (d : nat) (z : bool) (T : tables)
    (w : writer) (ascii_mode : bool) (bytes : list Z) :
  construct d z T = Ok w -> write_aiger env w ascii_mode = Ok bytes ->
  Forall (fun ff => 0 < ff.2) (ff_bits T).
Proof.
  intros H Hw. pose proof (write_aiger_classes_cases env d z T w ascii_mode H) as Hc.
  rewrite Hw in Hc. exact Hc.
Qed.

Lemma classify_holes_inv (cells : list cell) :
  forall st,
  match foldM (classify_cell true) cells st with
  | Ok st' => forallb is_gate_cell cells = true /\ topo_nodes st' = topo_nodes st /\
              bit_users st' = bit_users st /\ bit_drivers st' = bit_drivers st /\
              abc9_box_seen st' = abc9_box_seen st
  | Err e => e = AssertFail /\ forallb is_gate_cell cells = false
  end.
Proof.
  induction cells as [|c cs IH]; intros st; cbn [foldM forallb].
  - repeat split.
  - destruct c as [n k]. unfold classify_cell at 1. cbn [cell_kind_of cell_name is_gate_cell].
    destruct k; cbn [bind log_assert negb andb].
    + match goal with |- context [foldM _ cs ?s] => specialize (IH s) end.
      destruct (foldM _ cs _); exact IH.
    + match goal with |- context [foldM _ cs ?s] => specialize (IH s) end.
      destruct (foldM _ cs _); exact IH.
    + split; reflexivity.
    + split; reflexivity.
    + split; reflexivity.
Qed.

(** X8: In the holes module (holes_mode) the cell scan succeeds exactly
    when every selected cell is a $_NOT_ or $_AND_; any other cell fails
    log_assert(!holes_mode). On success no TopoSort node, no bit user and
    no bit driver is recorded and abc9_box_seen is false, so nothing is
    sorted. *)
Theorem order_phase_holes (sort : graph -> bool) (cells : list cell) :
  match order_phase_with sort true cells with
  | Ok st => forallb is_gate_cell cells = true /\ topo_nodes st = [] /\
             bit_users st = ∅ /\ bit_drivers st = ∅ /\ abc9_box_seen st = false
  | Err e => e = AssertFail /\ forallb is_gate_cell cells = false
  end.
Proof.
  unfold order_phase_with. pose proof (classify_holes_inv cells order_state0) as H.
  destruct (foldM _ cells _) as [st|e]; cbn [bind]; [|exact H].
  destruct H as (H1 & H2 & H3 & H4 & H5). rewrite H5. cbn. repeat split; assumption.
Qed.

Lemma pool_add_in (m : gmap SigBit (list nat)) (b' : SigBit) (n' : nat) (b : SigBit) (n : nat) :
  In n (default [] (pool_add m b' n' !! b)) <-> In n (default [] (m !! b)) \/ (b = b' /\ n = n').
Proof.
  unfold pool_add. destruct (decide (b' = b)) as [<-|Hne].
  - rewrite lookup_insert_eq. cbn [default]. split.
    + intros [<-|H]; [right; split; reflexivity|left; exact H].
    + intros [H|[_ <-]]; [right; exact H|left; reflexivity].
  - rewrite lookup_insert_ne by exact Hne. split; [intros H; left; exact H|].
    intros [H|[-> _]]; [exact H|congruence].
Qed.

Lemma fold_pool_in (bs : list SigBit) (k : nat) :
  forall m b n,
  In n (default [] (fold_left (fun m b => pool_add m b k) bs m !! b)) <->
  In n (default [] (m !! b)) \/ (In b bs /\ n = k).
Proof.
  induction bs as [|b0 bs IH]; intros m b n; cbn [fold_left].
  - split; [intros H; left; exact H|intros [H|[[] _]]; exact H].
  - rewrite IH, pool_add_in. cbn [In]. split.
    + intros [[H|[-> ->]]|[Hi ->]]; [left; exact H|right; split; [left; reflexivity|reflexivity]|].
      right. split; [right; exact Hi|reflexivity].
    + intros [H|[[<-|Hi] ->]]; [left; left; exact H|left; right; split; reflexivity|].
      right. split; [exact Hi|reflexivity].
Qed.

Lemma box_conns_inv (n : nat) (conns : list box_conn) :
  forall st st', foldM (box_conn_step n) conns st = Ok st' ->
  topo_nodes st' = topo_nodes st /\ abc9_box_seen st' = abc9_box_seen st /\
  c_flop_boxes st' = c_flop_boxes st /\
  (forall b m, In m (default [] (bit_users st' !! b)) <->
     In m (default [] (bit_users st !! b)) \/ (In b (flat_map conn_inputs conns) /\ m = n)) /\
  (forall b m, In m (default [] (bit_drivers st' !! b)) <->
     In m (default [] (bit_drivers st !! b)) \/ (In b (flat_map conn_outputs conns) /\ m = n)).
Proof.
  induction conns as [|bc cs IH]; intros st st' H; cbn [foldM flat_map] in *.
  - apply Ok_inj in H. subst st'. do 3 (split; [reflexivity|]).
    split; intros b m; (split; [intros Hm; left; exact Hm|intros [Hm|[[] _]]; exact Hm]).
  - apply bind_Ok in H as [st1 [E1 H]].
    destruct (IH st1 st' H) as (Hn & Hb & Hf & Hu & Hd).
    assert (Hs : topo_nodes st1 = topo_nodes st /\ abc9_box_seen st1 = abc9_box_seen st /\
                 c_flop_boxes st1 = c_flop_boxes st /\
                 (forall b m, In m (default [] (bit_users st1 !! b)) <->
                    In m (default [] (bit_users st !! b)) \/ (In b (conn_inputs bc) /\ m = n)) /\
                 (forall b m, In m (default [] (bit_drivers st1 !! b)) <->
                    In m (default [] (bit_drivers st !! b)) \/ (In b (conn_outputs bc) /\ m = n))).
    { unfold box_conn_step, conn_inputs, conn_outputs in *.
      destruct (bc_port bc) as [p|]; [|discriminate].
      destruct (pi_input p), (pi_output p); cbn [andb negb] in *; apply Ok_inj in E1; subst st1;
        cbn [set_users set_drivers topo_nodes abc9_box_seen c_flop_boxes bit_users bit_drivers];
        do 3 (split; [reflexivity|]);
        split; intros b m; rewrite ?fold_pool_in; cbn [In];
        (split; [intros Hm; first [exact Hm|left; exact Hm]|intros [Hm|[[] _]]; exact Hm]) || tauto. }
    destruct Hs as (Hn1 & Hb1 & Hf1 & Hu1 & Hd1).
    rewrite Hn, Hn1, Hb, Hb1, Hf, Hf1. do 3 (split; [reflexivity|]).
    split; intros b m; [rewrite Hu, Hu1|rewrite Hd, Hd1]; rewrite in_app_iff; tauto.
Qed.

Lemma classify_false_step (st st1 : order_state) (c : cell) :
  classify_cell false st c = Ok st1 ->
  topo_nodes st1 = topo_nodes st ++ map cell_name (List.filter is_ordered_cell [c]) /\
  abc9_box_seen st1 = abc9_box_seen st || is_box_cell c /\
  (forall b n, In n (default [] (bit_users st1 !! b)) <->
     In n (default [] (bit_users st !! b)) \/ (In b (cell_inputs c) /\ n = cell_name c)) /\
  (forall b n, In n (default [] (bit_drivers st1 !! b)) <->
     In n (default [] (bit_drivers st !! b)) \/ (In b (cell_outputs c) /\ n = cell_name c)).
Proof.
  destruct c as [nm k]. unfold classify_cell, is_ordered_cell, is_gate_cell, is_box_cell,
    cell_inputs, cell_outputs, box_in_bits, box_out_bits. cbn [cell_kind_of cell_name].
  intros H.
  destruct k as [a0 y0|a0 a1 y0|d0 q0|bx|known conns]; cbn [bind log_assert negb List.filter orb map] in *.
  - apply Ok_inj in H. subst st1. cbn. split; [reflexivity|].
    split; [rewrite orb_false_r; reflexivity|].
    split; intros b n; rewrite ?pool_add_in; cbn [In]; intuition congruence.
  - apply Ok_inj in H. subst st1. cbn. split; [reflexivity|].
    split; [rewrite orb_false_r; reflexivity|].
    split; intros b n; rewrite ?pool_add_in; cbn [In]; intuition congruence.
  - apply bind_Ok in H as [u [_ H]]. apply Ok_inj in H. subst st1. cbn.
    rewrite app_nil_r, orb_false_r. split; [reflexivity|]. split; [reflexivity|].
    split; intros b n; cbn [In]; intuition congruence.
  - apply bind_Ok in H as [st2 [E H]]. apply Ok_inj in H. subst st1.
    apply box_conns_inv in E as (Hn & Hb & _ & Hu & Hd). cbn [topo_nodes abc9_box_seen
      bit_users bit_drivers] in *.
    rewrite Hn, Hb. split; [reflexivity|]. split; [rewrite orb_true_r; reflexivity|].
    split; intros b n; [rewrite Hu|rewrite Hd]; reflexivity.
  - apply bind_Ok in H as [u [_ H]]. apply Ok_inj in H. subst st1.
    rewrite app_nil_r, orb_false_r. split; [reflexivity|]. split; [reflexivity|].
    split; intros b n; cbn [In]; intuition congruence.
Qed.

Lemma classify_false_inv (cells : list cell) :
  forall st st', foldM (classify_cell false) cells st = Ok st' ->
  topo_nodes st' = topo_nodes st ++ map cell_name (List.filter is_ordered_cell cells) /\
  abc9_box_seen st' = abc9_box_seen st || existsb is_box_cell cells /\
  (forall b n, In n (default [] (bit_users st' !! b)) <->
     In n (default [] (bit_users st !! b)) \/
     exists c, In c cells /\ cell_name c = n /\ In b (cell_inputs c)) /\
  (forall b n, In n (default [] (bit_drivers st' !! b)) <->
     In n (default [] (bit_drivers st !! b)) \/
     exists c, In c cells /\ cell_name c = n /\ In b (cell_outputs c)).
Proof.
  induction cells as [|c cs IH]; intros st st' H; cbn [foldM] in H.
  - apply Ok_inj in H. subst st'. rewrite app_nil_r, orb_false_r.
    split; [reflexivity|]. split; [reflexivity|].
    split; intros b n; (split; [intros Hm; left; exact Hm|intros [Hm|[c [[] _]]]; exact Hm]).
  - apply bind_Ok in H as [st1 [E1 H]].
    destruct (classify_false_step st st1 c E1) as (Hn1 & Hb1 & Hu1 & Hd1).
    destruct (IH st1 st' H) as (Hn & Hb & Hu & Hd).
    split; [rewrite Hn, Hn1, <- app_assoc; cbn [List.filter map]; destruct (is_ordered_cell c); reflexivity|].
    split; [rewrite Hb, Hb1; cbn [existsb]; symmetry; apply orb_assoc|].
    split.
    + intros b n. rewrite Hu, Hu1. split.
      * intros [[Hm|[Hi ->]]|[c' [Hc' [Hn' Hi']]]]; [left; exact Hm|right; exists c; cbn; tauto|].
        right. exists c'. cbn. tauto.
      * intros [Hm|[c' [[<-|Hc'] [Hn' Hi']]]]; [left; left; exact Hm|left; right; split; [exact Hi'|symmetry; exact Hn']|].
        right. exists c'. tauto.
    + intros b n. rewrite Hd, Hd1. split.
      * intros [[Hm|[Hi ->]]|[c' [Hc' [Hn' Hi']]]]; [left; exact Hm|right; exists c; cbn; tauto|].
        right. exists c'. cbn. tauto.
      * intros [Hm|[c' [[<-|Hc'] [Hn' Hi']]]]; [left; left; exact Hm|left; right; split; [exact Hi'|symmetry; exact Hn']|].
        right. exists c'. tauto.
Qed.

Lemma topo_edges_spec (st : order_state) (u v : nat) :
  In (u, v) (topo_edges st) <->
  exists b, In u (default [] (bit_drivers st !! b)) /\ In v (default [] (bit_users st !! b)).
Proof.
  unfold topo_edges. rewrite in_flat_map. split.
  - intros [[b us] [Hin Hx]]. apply list_elem_of_In, elem_of_map_to_list in Hin. cbn [fst snd] in Hx.
    destruct (bit_drivers st !! b) as [ds|] eqn:Ed; [|destruct Hx].
    apply in_flat_map in Hx as [d [Hd Hx]]. apply in_map_iff in Hx as [u' [Heq Hu']].
    injection Heq as -> ->. exists b. rewrite Ed, Hin. cbn. split; assumption.
  - intros [b [Hu Hv]].
    destruct (bit_users st !! b) as [us|] eqn:Eu; [|destruct Hv].
    destruct (bit_drivers st !! b) as [ds|] eqn:Ed; [|destruct Hu].
    exists (b, us). split; [apply list_elem_of_In, elem_of_map_to_list; exact Eu|].
    cbn [fst snd]. rewrite Ed. apply in_flat_map. exists u. split; [exact Hu|].
    apply in_map_iff. exists v. split; [reflexivity|exact Hv].
Qed.

(** X9: Outside the holes module, when the cell scan succeeds, the TopoSort
    nodes are the $_NOT_, $_AND_ and box cells in scan order; $__ABC9_FF_
    cells and other cells are not nodes. abc9_box_seen is then true
    exactly when a box cell occurs. *)
Theorem order_nodes (cells : list cell) (st : order_state) :
  foldM (classify_cell false) cells order_state0 = Ok st ->
  topo_nodes st = map cell_name (List.filter is_ordered_cell cells) /\
  abc9_box_seen st = existsb is_box_cell cells.
Proof.
  intros E. destruct (classify_false_inv cells order_state0 st E) as (Hn & Hb & _ & _).
  split; [exact Hn|exact Hb].
Qed.

(** X10: Outside the holes module, when the cell scan succeeds and a box
    was seen, the graph the edges of lines 388-392 build (from bit_users
    and bit_drivers, which the flop-box pass leaves alone) has an edge from
    cell u to cell v exactly when some bit is driven by u and read by v.
    A gate drives its Y and reads its A (and B); a box drives the bits of
    its pure output ports and reads those of its pure input ports, and an
    inout port counts as neither. *)
Theorem order_edges (cells : list cell) (st : order_state) :
  foldM (classify_cell false) cells order_state0 = Ok st -> abc9_box_seen st = true ->
  forall u v, In (u, v) (g_edges (topo_graph st)) <->
    exists b cu cv, In cu cells /\ In cv cells /\ cell_name cu = u /\ cell_name cv = v /\
                    In b (cell_outputs cu) /\ In b (cell_inputs cv).
Proof.
  intros E _. destruct (classify_false_inv cells order_state0 st E) as (_ & _ & Hu & Hd).
  intros u v. cbn [topo_graph g_edges].
  rewrite topo_edges_spec. split.
  - intros [b [H1 H2]]. apply Hd in H1 as [H1|[cu [Hcu [Hnu Hbu]]]]; [destruct H1|].
    apply Hu in H2 as [H2|[cv [Hcv [Hnv Hbv]]]]; [destruct H2|].
    exists b, cu, cv. tauto.
  - intros (b & cu & cv & Hcu & Hcv & Hnu & Hnv & Hbu & Hbv). exists b.
    split; [apply Hd; right; exists cu; tauto|apply Hu; right; exists cv; tauto].
Qed.

Lemma parse_loop_stop (fuel : nat) :
  forall args argidx o, (length args <= fuel + argidx)%nat ->
  let (o', k) := parse_loop fuel args argidx o in
  (argidx <= k)%nat /\ (k <= Nat.max argidx (length args))%nat /\
  ((k < length args)%nat ->
   nth k args "" <> "-ascii" /\ nth k args "" <> "-zinit" /\
   ((nth k args "" = "-map" \/ nth k args "" = "-vmap") ->
    opt_map_filename o' <> "" \/ (k + 1 = length args)%nat)).
Proof.
  induction fuel as [|f IH]; intros args argidx o Hf; cbn [parse_loop].
  - split; [lia|]. split; [lia|]. intros; lia.
  - destruct (Nat.ltb_spec argidx (length args)) as [Hlt|Hge].
    2: { split; [lia|]. split; [lia|]. intros; lia. }
    destruct (String.eqb_spec (nth argidx args "") "-ascii") as [Ha|Ha].
    { match goal with |- context [parse_loop f args (S argidx) ?o1] =>
        pose proof (IH args (S argidx) o1 ltac:(lia)) as H end.
      destruct (parse_loop _ _ _ _) as [o' k]. destruct H as (H1 & H2 & H3).
      split; [lia|]. split; [lia|]. exact H3. }
    destruct (String.eqb_spec (nth argidx args "") "-zinit") as [Hz|Hz].
    { match goal with |- context [parse_loop f args (S argidx) ?o1] =>
        pose proof (IH args (S argidx) o1 ltac:(lia)) as H end.
      destruct (parse_loop _ _ _ _) as [o' k]. destruct H as (H1 & H2 & H3).
      split; [lia|]. split; [lia|]. exact H3. }
    destruct (String.eqb (opt_map_filename o) "" && String.eqb (nth argidx args "") "-map" &&
              Nat.ltb (argidx + 1) (length args)) eqn:Em.
    { apply andb_true_iff in Em as [_ Hl]. apply Nat.ltb_lt in Hl.
      match goal with |- context [parse_loop f args (argidx + 2) ?o1] =>
        pose proof (IH args (argidx + 2)%nat o1 ltac:(lia)) as H end.
      destruct (parse_loop _ _ _ _) as [o' k]. destruct H as (H1 & H2 & H3).
      split; [lia|]. split; [lia|]. exact H3. }
    destruct (String.eqb (opt_map_filename o) "" && String.eqb (nth argidx args "") "-vmap" &&
              Nat.ltb (argidx + 1) (length args)) eqn:Ev.
    { apply andb_true_iff in Ev as [_ Hl]. apply Nat.ltb_lt in Hl.
      match goal with |- context [parse_loop f args (argidx + 2) ?o1] =>
        pose proof (IH args (argidx + 2)%nat o1 ltac:(lia)) as H end.
      destruct (parse_loop _ _ _ _) as [o' k]. destruct H as (H1 & H2 & H3).
      split; [lia|]. split; [lia|]. exact H3. }
    split; [lia|]. split; [lia|]. intros _. split; [exact Ha|]. split; [exact Hz|].
    intros Hmv.
    destruct (String.eqb_spec (opt_map_filename o) "") as [He|He]; [|left; exact He].
    right. destruct (Nat.ltb_spec (argidx + 1) (length args)) as [Hl|Hl]; [|lia].
    exfalso.
    destruct Hmv as [Hmv|Hmv]; rewrite Hmv in Em, Ev; discriminate.
Qed.

(** X11: The option loop of write_xaiger stops at an index k with 1 <= k <=
    max(1, #args). If an argument remains there, it is not -ascii or
    -zinit. If it is -map or -vmap, a map file was already named or it is
    the last argument (no file name follows). The remaining arguments go to
    extra_args. *)
Theorem parse_args_stop (args : list string) :
  let (o, k) := parse_args args in
  (1 <= k)%nat /\ (k <= Nat.max 1 (length args))%nat /\
  ((k < length args)%nat ->
   nth k args "" <> "-ascii" /\ nth k args "" <> "-zinit" /\
   ((nth k args "" = "-map" \/ nth k args "" = "-vmap") ->
    opt_map_filename o <> "" \/ (k + 1 = length args)%nat)).
Proof. apply parse_loop_stop. lia. Qed.

(** X12: Once a non-empty map file name is set, the option loop never
    changes it or the verbose flag: a second -map or -vmap ends the loop
    instead of overriding the first. *)
Theorem parse_loop_map_kept (fuel : nat) :
  forall args argidx o, opt_map_filename o <> "" ->
  let (o', k) := parse_loop fuel args argidx o in
  opt_map_filename o' = opt_map_filename o /\ opt_verbose_map o' = opt_verbose_map o.
Proof.
  induction fuel as [|f IH]; intros args argidx o Ho; cbn [parse_loop]; [split; reflexivity|].
  destruct (Nat.ltb argidx (length args)); [|split; reflexivity].
  destruct (String.eqb (nth argidx args "") "-ascii").
  { match goal with |- context [parse_loop f args (S argidx) ?o1] =>
      pose proof (IH args (S argidx) o1 Ho) as H end. exact H. }
  destruct (String.eqb (nth argidx args "") "-zinit").
  { match goal with |- context [parse_loop f args (S argidx) ?o1] =>
      pose proof (IH args (S argidx) o1 Ho) as H end. exact H. }
  rewrite (proj2 (String.eqb_neq _ _) Ho). cbn [andb]. split; reflexivity.
Qed.

Lemma not_wire_line_app (p x : list Z) :
  is_wire_line p = false -> (length (bytes_of_string "wire ") <= length p)%nat ->
  is_wire_line (p ++ x) = false.
Proof.
  unfold is_wire_line. generalize (bytes_of_string "wire "). intros q.
  revert p. induction q as [|c q IH]; intros p Hp Hl; [cbn in Hp; discriminate|].
  destruct p as [|y p]; [cbn in Hl; lia|]. cbn [app starts_with] in *.
  destruct (c =? y); cbn [andb] in *; [apply IH; [exact Hp|cbn in Hl; lia]|reflexivity].
Qed.

Lemma map_bit_no_wire (w : writer) (mi : modinfo) (wr : mwire) (acc acc' : maplines) (i : nat) :
  let P := fun l => is_wire_line l = false in
  wire_lines acc = [] /\ dict_lines_all P (input_lines acc) /\ dict_lines_all P (output_lines acc) ->
  map_bit w mi false wr acc i = Ok acc' ->
  wire_lines acc' = [] /\ dict_lines_all P (input_lines acc') /\ dict_lines_all P (output_lines acc').
Proof.
  intros P (Hw & Hi & Ho) H. unfold map_bit in H.
  apply bind_Ok in H as [il [Eil H]].
  assert (Hil : dict_lines_all P il).
  { destruct (bool_decide (_ ∈ input_bits _)).
    - apply bind_Ok in Eil as [a [_ Eil]]. apply bind_Ok in Eil as [u [_ Eil]].
      apply Ok_inj in Eil. subst il. apply dict_add_all; [|exact Hi].
      unfold P, input_line. apply not_wire_line_app; [reflexivity|cbn; lia].
    - apply Ok_inj in Eil. subst il. exact Hi. }
  destruct (bool_decide (_ ∈ output_bits _)).
  - apply bind_Ok in H as [o [_ H]]. apply Ok_inj in H. subst acc'. cbn.
    split; [exact Hw|]. split; [exact Hil|]. apply dict_add_all; [|exact Ho].
    unfold P, output_line_map. reflexivity.
  - apply Ok_inj in H. subst acc'. cbn. split; [exact Hw|]. split; [exact Hil|exact Ho].
Qed.

Lemma dict_set_all (P : list Z -> Prop) (k : Z) (v : list (list Z)) (d : dict (list (list Z))) :
  Forall P v -> dict_lines_all P d -> dict_lines_all P (dict_set k v d).
Proof.
  intros Hv Hd. unfold dict_set, dict_lines_all in *.
  destruct (dict_lookup k d).
  - apply dict_update_Forall; [intros ? ? _; exact Hv|exact Hd].
  - constructor; [exact Hv|exact Hd].
Qed.

(** X13: write_map without verbose_map (the -map option) writes no wire
    line: no line it writes starts with "wire ". *)
Theorem write_map_no_wire_lines (w : writer) (mi : modinfo) (lines : list (list Z)) :
  write_map w mi false = Ok lines -> Forall (fun l => is_wire_line l = false) lines.
Proof.
  set (P := fun l => is_wire_line l = false).
  intros H. unfold write_map in H.
  apply bind_Ok in H as [acc [Es H]].
  assert (Hacc : wire_lines acc = [] /\ dict_lines_all P (input_lines acc) /\
                 dict_lines_all P (output_lines acc)).
  { set (Inv := fun a : maplines => wire_lines a = [] /\ dict_lines_all P (input_lines a) /\
                 dict_lines_all P (output_lines a)).
    change (Inv acc). unfold map_scan in Es.
    refine (foldM_inv Inv _ _ _ _ _ _ Es); [|split; [reflexivity|split; constructor]].
    intros b wr b' Hb E. refine (foldM_inv Inv _ _ _ _ _ Hb E).
    intros c i c' Hc E'. exact (map_bit_no_wire w mi wr c c' i Hc E'). }
  destruct Hacc as (Hw & Hi & Ho).
  apply bind_Ok in H as [u [_ H]]. apply bind_Ok in H as [u' [_ H]].
  apply Ok_inj in H. subst lines. rewrite Hw.
  repeat apply Forall_app_2.
  - apply dict_text_all. unfold dict_lines_all. apply dict_sort_Forall. exact Hi.
  - constructor.
  - unfold box_line. apply Forall_forall. intros l Hl.
    apply list_elem_of_In, elem_of_lookup_imap in Hl as [k [bx [-> _]]].
    unfold P. reflexivity.
  - apply dict_text_all. destruct (omode w).
    + apply dict_set_all; [constructor; [reflexivity|constructor]|].
      unfold dict_lines_all. apply dict_sort_Forall. exact Ho.
    + unfold dict_lines_all. apply dict_sort_Forall. exact Ho.
  - destruct (omode w && _); [|constructor]. constructor; [|constructor].
    unfold P. reflexivity.
  - constructor.
  - constructor.
Qed.

(** ** Witnesses of the further properties *)

Lemma aiger_encode_bytes_witness :
  0 <= 300 < 2 ^ 31 /\
  exists bs, aiger_encode 300 = Ok bs /\ bs <> [] /\
     Forall (fun b => 128 <= b < 256) (removelast bs) /\ 0 <= last bs 0 < 128 /\
     300 < 128 ^ Z.of_nat (length bs) /\
     ((1 < length bs)%nat -> 128 ^ (Z.of_nat (length bs) - 1) <= 300).
Proof.
  assert (H : 0 <= 300 < 2 ^ 31) by lia.
  exact (conj H (proj2 (aiger_encode_bytes 300) H)).
Defined.

Lemma bit2aig_appends_gates_witness :
  exists s' a, bit2aig 3 ex_tables ex_state_in (SBWire 3 0) = Ok (s', a) /\
  exists gs, aig_gates s' = aig_gates ex_state_in ++ gs /\
    aig_m s' = aig_m ex_state_in + Z.of_nat (length gs) /\
    aig_a s' = aig_a ex_state_in + Z.of_nat (length gs) /\
    Forall (fun g => g.2 <= g.1) gs.
Proof.
  destruct (bit2aig 3 ex_tables ex_state_in (SBWire 3 0)) as [[s' a]|e] eqn:E;
    [|vm_compute in E; discriminate].
  exists s', a. split; [reflexivity|].
  exact (bit2aig_appends_gates ex_tables 3 ex_state_in (SBWire 3 0) s' a E).
Defined.

Lemma bit2aig_x_z_witness :
  xz_inv 0 ex_state_in /\
  exists s' a, bit2aig 1 ex_tables ex_state_in (SBConst Sx) = Ok (s', a) /\
    xz_inv 0 s' /\ (is_x_or_z (SBConst Sx) = true -> a = 0).
Proof.
  assert (Hi : xz_inv 0 ex_state_in).
  { split; [vm_compute; reflexivity|]. intros b a Hb H. cbn [aig_map ex_state_in] in H.
    repeat (apply lookup_insert_Some in H as [[<- <-]|[_ H]];
            [first [reflexivity|discriminate]|]).
    rewrite lookup_empty in H. discriminate. }
  split; [exact Hi|].
  destruct (bit2aig 1 ex_tables ex_state_in (SBConst Sx)) as [[s' a]|e] eqn:E;
    [|vm_compute in E; discriminate].
  exists s', a. split; [reflexivity|].
  exact (bit2aig_x_z ex_tables 1 0 ex_state_in (SBConst Sx) s' a Hi E).
Defined.

Lemma construct_numbering_witness :
  construct 10 false ex_tables = Ok ex_writer /\
  let s := wstate ex_writer in
  let nin := Z.of_nat (length (input_bits ex_tables)) in
  let nff := Z.of_nat (length (ff_bits ex_tables)) in
  List.NoDup (SBConst S0 :: SBConst S1 :: input_bits ex_tables ++ map fst (ff_bits ex_tables)) /\
  (forall (k : nat) b, input_bits ex_tables !! k = Some b ->
     aig_map s !! b = Some (2 * (Z.of_nat k + 1))) /\
  (forall (j : nat) ff, ff_bits ex_tables !! j = Some ff ->
     aig_map s !! ff.1 = Some (2 * (nin + Z.of_nat j + 1))) /\
  (forall (j : nat) b, ci_bits ex_tables !! j = Some b ->
     b ∉ SBConst S0 :: SBConst S1 :: input_bits ex_tables ++ map fst (ff_bits ex_tables) ->
     b ∉ take j (ci_bits ex_tables) ->
     aig_map s !! b = Some (2 * (nin + nff + Z.of_nat j + 1))) /\
  aig_i s = nin + nff + Z.of_nat (length (ci_bits ex_tables)).
Proof.
  assert (Hw : construct 10 false ex_tables = Ok ex_writer) by (vm_compute; reflexivity).
  exact (conj Hw (construct_numbering 10 false ex_tables ex_writer Hw)).
Defined.

Lemma construct_numbering_fails_witness :
  ~ List.NoDup (SBConst S0 :: SBConst S1 :: input_bits ex_dup_tables ++
                map fst (ff_bits ex_dup_tables)) /\
  construct 10 false ex_dup_tables = Err AssertFail.
Proof.
  assert (Hn : ~ List.NoDup (SBConst S0 :: SBConst S1 :: input_bits ex_dup_tables ++
                             map fst (ff_bits ex_dup_tables))).
  { cbn. intros Hn. inversion Hn as [|? ? _ Hn1]. inversion Hn1 as [|? ? _ Hn2].
    inversion Hn2 as [|? ? Hin _]. apply Hin. left. reflexivity. }
  exact (conj Hn (construct_numbering_fails 10 false ex_dup_tables Hn)).
Defined.

Lemma write_aiger_classes_witness :
  construct 10 false ex_tables = Ok ex_writer /\
  exists bytes, write_aiger ex_env_le ex_writer false = Ok bytes /\
  Forall (fun ff => 0 < ff.2) (ff_bits ex_tables).
Proof.
  assert (Hw : construct 10 false ex_tables = Ok ex_writer) by (vm_compute; reflexivity).
  split; [exact Hw|].
  destruct (write_aiger ex_env_le ex_writer false) as [bytes|e] eqn:E;
    [|vm_compute in E; discriminate].
  exists bytes. split; [reflexivity|].
  exact (write_aiger_classes ex_env_le 10 false ex_tables ex_writer false bytes Hw E).
Defined.

Lemma parse_args_stop_witness :
  let args := ["write_xaiger"; "-ascii"; "-map"; "a.map"; "-vmap"; "b.map"] in
  let (o, k) := parse_args args in
  (1 <= k)%nat /\ (k <= Nat.max 1 (length args))%nat /\
  ((k < length args)%nat ->
   nth k args "" <> "-ascii" /\ nth k args "" <> "-zinit" /\
   ((nth k args "" = "-map" \/ nth k args "" = "-vmap") ->
    opt_map_filename o <> "" \/ (k + 1 = length args)%nat)).
Proof.
  exact (parse_args_stop ["write_xaiger"; "-ascii"; "-map"; "a.map"; "-vmap"; "b.map"]).
Defined.

Lemma parse_loop_map_kept_witness :
  opt_map_filename ex_opts_map <> "" /\
  let (o', k) := parse_loop 4 ["write_xaiger"; "-vmap"; "b.map"; "-ascii"] 1 ex_opts_map in
  opt_map_filename o' = opt_map_filename ex_opts_map /\
  opt_verbose_map o' = opt_verbose_map ex_opts_map.
Proof.
  assert (H : opt_map_filename ex_opts_map <> "") by discriminate.
  exact (conj H (parse_loop_map_kept 4 ["write_xaiger"; "-vmap"; "b.map"; "-ascii"] 1
                   ex_opts_map H)).
Defined.

Lemma write_map_no_wire_lines_witness :
  exists lines, write_map ex_writer ex_modinfo false = Ok lines /\
    Forall (fun l => is_wire_line l = false) lines.
Proof.
  destruct (write_map ex_writer ex_modinfo false) as [lines|e] eqn:E;
    [|vm_compute in E; discriminate].
  exists lines. split; [reflexivity|].
  exact (write_map_no_wire_lines ex_writer ex_modinfo lines E).
Defined.

Lemma order_nodes_witness :
  exists st, foldM (classify_cell false) ex_box_loop_cells order_state0 = Ok st /\
    topo_nodes st = map cell_name (List.filter is_ordered_cell ex_box_loop_cells) /\
    abc9_box_seen st = existsb is_box_cell ex_box_loop_cells.
Proof.
  destruct (foldM (classify_cell false) ex_box_loop_cells order_state0) as [st|e] eqn:E;
    [|vm_compute in E; discriminate].
  exists st. split; [reflexivity|]. exact (order_nodes ex_box_loop_cells st E).
Defined.

Lemma order_edges_witness :
  exists st, foldM (classify_cell false) ex_box_loop_cells order_state0 = Ok st /\
    abc9_box_seen st = true /\
    forall u v, In (u, v) (g_edges (topo_graph st)) <->
      exists b cu cv, In cu ex_box_loop_cells /\ In cv ex_box_loop_cells /\
                      cell_name cu = u /\ cell_name cv = v /\
                      In b (cell_outputs cu) /\ In b (cell_inputs cv).
Proof.
  destruct (foldM (classify_cell false) ex_box_loop_cells order_state0) as [st|e] eqn:E;
    [|vm_compute in E; discriminate].
  assert (Hb : abc9_box_seen st = true) by (vm_compute in E; injection E as <-; reflexivity).
  exists st. split; [reflexivity|]. split; [exact Hb|].
  exact (order_edges ex_box_loop_cells st E Hb).
Defined.
